(** * The asynchronous scan pipeline of the sitemap W3C validator

    A shallow embedding of the backend's scan pipeline:

    - [utils/validation.ts]   ([Validation]): URL validation and the
      sanitising of strings;
    - [utils/sitemap.js]      ([Sitemap]): fetching and parsing a sitemap;
    - [utils/w3cValidator.js] ([W3C]): the validation client, the batch
      validator and the aggregate summary;
    - [services/credit.service.js] ([CreditService]): the credit ledger and
      its statistics;
    - [services/scan.service.js]   ([ScanService]): scan creation,
      cancellation and deletion, the details of a scan, its summary and the
      statistics of a user;
    - [queues/scanQueue.js]   ([ScanQueue]): the queue worker.

    Persistent state (the Prisma client) is an explicit [Db] value threaded
    through a state-and-exception monad; two deductions that run at the same
    time are followed statement by statement.  Everything that comes from
    outside the process (HTTP responses, the XML parser, the platform's URL
    parser, infrastructure failures) is an oracle passed as an argument.
    Numbers that the code keeps integral are [Z]; the two places where the
    code divides are evaluated in IEEE 754 binary64, as JavaScript does. *)

From stdpp Require Import gmap strings list pretty.
From Stdlib Require Import ZArith.
From Stdlib Require Floats.SpecFloat.

Local Open Scope Z_scope.

(* ===================================================================== *)
(** * JavaScript values and operators used by the pipeline               *)
(* ===================================================================== *)

Module Js.

(** [a || d] on an optional string: [undefined] and the empty string are
    falsy. *)
Definition orString (a : option string) (d : string) : string :=
  match a with
  | Some s => if decide (s = "") then d else s
  | None => d
  end.

(** [a || b] on optional numbers: [undefined] and [0] are falsy. *)
Definition orNumber (a b : option Z) : option Z :=
  match a with
  | Some n => if decide (n = 0) then b else Some n
  | None => b
  end.

(** Truthiness of an optional string. *)
Definition truthy (a : option string) : bool :=
  match a with
  | Some s => bool_decide (s ≠ "")
  | None => false
  end.

(** ** Strings

    A JavaScript string is a sequence of UTF-16 code units.  A [string] here
    is a sequence of characters with the codes 0 to 255 and stands for the
    JavaScript string that has these code units, one for each character: the
    length of the one is the [length] of the other, and a cut after [n]
    characters is a cut after [n] code units.  Strings with a code unit
    above 255 have no counterpart here. *)

(** The code units that [String.prototype.trim] removes, white space and
    line terminators: TAB, LF, VT, FF, CR, space, U+00A0 (no-break space),
    U+1680, U+2000 to U+200A, U+2028, U+2029, U+202F, U+205F, U+3000 and
    U+FEFF. *)
Definition isWhiteSpaceCode (n : N) : bool :=
  bool_decide ((9 ≤ n ∧ n ≤ 13) ∨ n = 32 ∨ n = 160 ∨ n = 5760
               ∨ (8192 ≤ n ∧ n ≤ 8202) ∨ n = 8232 ∨ n = 8233 ∨ n = 8239
               ∨ n = 8287 ∨ n = 12288 ∨ n = 65279)%N.

Definition isWhiteSpace (c : Ascii.ascii) : bool :=
  isWhiteSpaceCode (Ascii.N_of_ascii c).

Fixpoint trimStart (s : string) : string :=
  match s with
  | String c s' => if isWhiteSpace c then trimStart s' else s
  | EmptyString => EmptyString
  end.

Fixpoint trimEnd (s : string) : string :=
  match s with
  | String c s' =>
      match trimEnd s' with
      | EmptyString => if isWhiteSpace c then EmptyString else String c EmptyString
      | t => String c t
      end
  | EmptyString => EmptyString
  end.

Definition trim (s : string) : string := trimEnd (trimStart s).

Fixpoint startsWith (p s : string) : bool :=
  match p, s with
  | EmptyString, _ => true
  | String a p', String b s' => bool_decide (a = b) && startsWith p' s'
  | String _ _, EmptyString => false
  end.

(** ** Numbers

    A JavaScript number is a binary64 float.  Integral quantities (lengths,
    counters, credit amounts) stay in [Z]; a division goes through
    [SpecFloat] with precision 53 and maximal exponent 1024. *)

Definition prec : Z := 53.
Definition emax : Z := 1024.

Abbreviation float := SpecFloat.spec_float.

Definition ofInt (z : Z) : float := SpecFloat.binary_normalize prec emax z 0 false.
Definition fdiv (x y : float) : float := SpecFloat.SFdiv prec emax x y.
Definition fmul (x y : float) : float := SpecFloat.SFmul prec emax x y.

(** The result of [Math.round]: an integer, or one of the values it
    passes through unchanged. *)
Inductive Rounded :=
| Int (z : Z)
| NaN
| Infinity (negative : bool).

(** [Math.round x] is the integer nearest to [x], ties going up:
    [floor (x + 1/2)] computed exactly.  For [x = ± m * 2^e] with [e < 0]
    that is [floor ((± 2 m + 2^-e) / 2^(1 - e))]. *)
Definition Math_round (x : float) : Rounded :=
  match x with
  | SpecFloat.S754_zero _ => Int 0
  | SpecFloat.S754_infinity s => Infinity s
  | SpecFloat.S754_nan => NaN
  | SpecFloat.S754_finite s m e =>
      let n := if s then Z.neg m else Z.pos m in
      if 0 <=? e then Int (n * 2 ^ e)
      else Int ((2 * n + 2 ^ (- e)) `div` 2 ^ (1 - e))
  end.

(** [k + r] for an integer [k] and a rounded [r]. *)
Definition plus (k : Z) (r : Rounded) : Rounded :=
  match r with
  | Int z => Int (k + z)
  | other => other
  end.

(** ** Plain objects

    The value of a property of an object that is used as a tally: a number,
    or a string. *)
Inductive Property :=
| Num (n : Z)
| Str (s : string).

(** The properties that an object literal inherits from [Object.prototype],
    each with the string that the conversion to a string makes of its value:
    the prototype itself for [__proto__], a native function for the others
    (printed as Node.js prints it). *)
Definition inherited (key : string) : option string :=
  if decide (key = "__proto__") then Some "[object Object]"
  else if decide (key = "constructor") then Some "function Object() { [native code] }"
  else if bool_decide (key ∈ ["__defineGetter__"; "__defineSetter__"; "hasOwnProperty";
                              "__lookupGetter__"; "__lookupSetter__"; "isPrototypeOf";
                              "propertyIsEnumerable"; "toString"; "valueOf";
                              "toLocaleString"])
  then Some ("function " +:+ key +:+ "() { [native code] }")
  else None.

(** The characters [<] (code 60) and [>] (code 62). *)
Definition isAngleBracket (c : Ascii.ascii) : bool :=
  let n := Ascii.nat_of_ascii c in
  bool_decide (n = 60%nat) || bool_decide (n = 62%nat).

(** [s.replace(/[<>]/g, '')] *)
Fixpoint replaceAngleBrackets (s : string) : string :=
  match s with
  | String c s' =>
      if isAngleBracket c then replaceAngleBrackets s'
      else String c (replaceAngleBrackets s')
  | EmptyString => EmptyString
  end.

End Js.

(* ===================================================================== *)
(** * Exceptions and the state-and-exception monad                        *)
(* ===================================================================== *)

(** The error classes of [middleware/errorHandler.js] that the pipeline
    throws, next to the built-in [Error]. *)
Inductive ErrorClass :=
| PlainError
| InsufficientCreditsError (required available : Z)
| NotFoundError
| ConflictError.

Record Error := mkError { errClass : ErrorClass; errMessage : string }.

Definition newError (msg : string) : Error := mkError PlainError msg.

Inductive Result (A : Type) :=
| Ok (a : A)
| Throw (e : Error).
Arguments Ok {A} a.
Arguments Throw {A} e.

Definition isOk {A} (r : Result A) : bool :=
  match r with Ok _ => true | Throw _ => false end.

(** A computation over a state [S] that returns or throws. *)
Definition M (S A : Type) : Type := S → Result A * S.

#[global] Instance M_ret {S} : MRet (M S) := λ A a s, (Ok a, s).

#[global] Instance M_bind {S} : MBind (M S) := λ A B f m s,
  match m s with
  | (Ok a, s') => f a s'
  | (Throw e, s') => (Throw e, s')
  end.

Definition throw {S A} (e : Error) : M S A := λ s, (Throw e, s).

(** [try { m } catch (e) { h e }]: the state changes made before the throw
    are kept. *)
Definition tryCatch {S A} (m : M S A) (h : Error → M S A) : M S A := λ s,
  match m s with
  | (Ok a, s') => (Ok a, s')
  | (Throw e, s') => h e s'
  end.

Definition gets {S A} (f : S → A) : M S A := λ s, (Ok (f s), s).
Definition modify {S} (f : S → S) : M S unit := λ s, (Ok tt, f s).

(** A pure computation that may throw, run inside [M]. *)
Definition liftResult {S A} (r : Result A) : M S A := λ s, (r, s).

(* ===================================================================== *)
(** * utils/validation.ts                                                 *)
(* ===================================================================== *)

Module Validation.

(** What the platform's [new URL(s)] exposes of a parsed URL. *)
Record URL := { protocol : string; hostname : string; href : string }.

Section WithURLParser.

(** The platform's URL parser: [None] when [new URL(s)] throws. *)
Variable parseURL : string → option URL.

Definition validateUrl (url : string) : Result string :=
  match parseURL url with
  | None => Throw (newError "Invalid URL: Invalid URL")
  | Some parsedUrl =>
      if bool_decide (protocol parsedUrl ∈ ["http:"; "https:"])
      then Ok (href parsedUrl)
      else Throw (newError "Invalid URL: Only HTTP and HTTPS protocols are allowed")
  end.

End WithURLParser.

(** An [unknown] input: a string, or a value of another type with the
    string that [String(input)] gives for it. *)
Inductive Unknown :=
| IsString (s : string)
| NotString (rendered : string).

(** [substring(0, 1000)] keeps the first 1000 code units. *)
Definition sanitizeString (input : Unknown) : string :=
  match input with
  | NotString rendered => rendered
  | IsString input =>
      String.substring 0 1000 (Js.trim (Js.replaceAngleBrackets input))
  end.

End Validation.

(* ===================================================================== *)
(** * utils/w3cValidator.js                                               *)
(* ===================================================================== *)

Module W3C.

(** The wire format of the Nu HTML checker: every field may be missing. *)
Module Nu.
Record Message := {
  type : option string;
  subType : option string;
  message : option string;
  firstLine : option Z;
  lastLine : option Z;
  firstColumn : option Z;
  lastColumn : option Z;
  extract : option string;
}.

(** [messages] is [None] when the field is absent or not an array. *)
Record Result := { messages : option (list Message) }.
End Nu.

(** The counters of [summary.severityBreakdown]. *)
Module Breakdown.
Record t := { critical : Z; high : Z; medium : Z; low : Z }.
End Breakdown.

Inductive Severity := critical | high | medium | low.

#[global] Instance Severity_eq_dec : EqDecision Severity.
Proof. solve_decision. Defined.

Record Message := {
  type : string;
  message : string;
  line : option Z;
  column : option Z;
  extract : option string;
  severity : option Severity;
}.

Record ResultSummary := { errorCount : Z; warningCount : Z }.

(** A validation result.  The [validatedAt] time stamp and the [raw] echo
    of the response (development mode only) carry no information used
    downstream and are left out. *)
Record ValidationResult := {
  url : string;
  isValid : bool;
  errors : list Message;
  warnings : list Message;
  summary : ResultSummary;
}.

Definition mapW3CSeverity (subType : option string) : Severity :=
  match subType with
  | Some "fatal" => critical
  | Some "error" => high
  | Some "warning" => medium
  | Some "info" => low
  | _ => medium
  end.

Definition processMessage (m : Nu.Message) : Message :=
  {| type := Js.orString (Nu.type m) "unknown";
     message := Js.orString (Nu.message m) "No message provided";
     line := Js.orNumber (Nu.lastLine m) (Nu.firstLine m);
     column := Js.orNumber (Nu.lastColumn m) (Nu.firstColumn m);
     extract := Nu.extract m;
     severity := Some (mapW3CSeverity (Nu.subType m)) |}.

(** The [for (const message of w3cResult.messages)] loop, with the two
    arrays it pushes to. *)
Fixpoint sortMessages (msgs : list Nu.Message) (errors warnings : list Message)
  : list Message * list Message :=
  match msgs with
  | [] => (errors, warnings)
  | m :: rest =>
      let processedMessage := processMessage m in
      if bool_decide (Nu.type m = Some "error")
      then sortMessages rest (errors ++ [processedMessage]) warnings
      else if bool_decide (Nu.type m = Some "info")
              && bool_decide (Nu.subType m = Some "warning")
      then sortMessages rest errors (warnings ++ [processedMessage])
      else sortMessages rest errors warnings
  end.

Definition processW3CResult (w3cResult : Nu.Result) (url : string)
  : ValidationResult :=
  let '(errors, warnings) :=
    match Nu.messages w3cResult with
    | Some msgs => sortMessages msgs [] []
    | None => ([], [])
    end in
  let isValid := bool_decide (Z.of_nat (length errors) = 0) in
  {| url := url;
     isValid := isValid;
     errors := errors;
     warnings := warnings;
     summary := {| errorCount := Z.of_nat (length errors);
                   warningCount := Z.of_nat (length warnings) |} |}.

(** What [fetch] and [response.json()] can give for one request: a body
    that is not JSON, the JSON value [null], or another JSON value, of which
    only the [messages] are read. *)
Inductive Body :=
| InvalidJson (reason : string)
| JsonNull
| Json (value : Nu.Result).

Inductive Fetched :=
| NetworkError (reason : string)
| Response (ok : bool) (status : Z) (statusText : string) (body : Body).

(** What the caller's progress callback receives. *)
Record Progress := {
  completed : Z;
  total : Z;
  current : string;
  result : ValidationResult;
  error : option string;
}.

Section WithValidator.

(** The external validator: the outcome of the request for a document. *)
Variable fetch : string → Fetched.

Definition validateUrl (url : string) : Result ValidationResult :=
  let attempt :=
    match fetch url with
    | NetworkError reason => Throw (newError reason)
    | Response ok status statusText body =>
        if negb ok
        then Throw (newError ("W3C API returned " +:+ pretty status +:+ ": " +:+ statusText))
        else match body with
             | InvalidJson reason => Throw (newError reason)
             | JsonNull =>
                 Throw (newError "Cannot read properties of null (reading 'messages')")
             | Json value => Ok (processW3CResult value url)
             end
    end in
  match attempt with
  | Ok validation => Ok validation
  | Throw error =>
      Throw (newError ("W3C validation failed for " +:+ url +:+ ": " +:+ errMessage error))
  end.

Definition failedResult (url : string) (error : Error) : ValidationResult :=
  {| url := url;
     isValid := false;
     errors := [ {| type := "validation_error";
                    message := errMessage error;
                    line := None; column := None; extract := None;
                    severity := Some critical |} ];
     warnings := [];
     summary := {| errorCount := 1; warningCount := 0 |} |}.

(** The caller's progress callback: it returns, or it throws. *)
Variable progressCallback : option (Progress → Result unit).

(** The state of the [for] loop: the [results] array and the calls made
    to the callback so far. *)
Record Loop := { results : list ValidationResult; calls : list Progress }.

Definition pushResult (r : ValidationResult) : M Loop unit :=
  modify (λ st, {| results := results st ++ [r]; calls := calls st |}).

Definition notify (p : Progress) : M Loop unit :=
  match progressCallback with
  | None => mret tt
  | Some callback =>
      modify (λ st, {| results := results st; calls := calls st ++ [p] |});;
      liftResult (callback p)
  end.

(** One iteration of the loop for [urls[i]].  The one-second pause before
    each request but the first takes time and changes nothing else. *)
Definition iteration (n : Z) (i : Z) (url : string) : M Loop unit :=
  tryCatch
    (result ← liftResult (validateUrl url);
     pushResult result;;
     notify {| completed := i + 1; total := n; current := url;
               result := result; error := None |})
    (λ error,
       let failedResult := failedResult url error in
       pushResult failedResult;;
       notify {| completed := i + 1; total := n; current := url;
                 result := failedResult; error := Some (errMessage error) |}).

Fixpoint iterations (n : Z) (i : Z) (urls : list string) : M Loop unit :=
  match urls with
  | [] => mret tt
  | url :: rest => iteration n i url;; iterations n (i + 1) rest
  end.

(** [validateUrls urls progressCallback]: the returned array or the
    exception that escaped, and the calls the callback received. *)
Definition validateUrls (urls : list string)
  : Result (list ValidationResult) * list Progress :=
  let '(r, st) :=
    iterations (Z.of_nat (length urls)) 0 urls {| results := []; calls := [] |} in
  (match r with Ok _ => Ok (results st) | Throw e => Throw e end, calls st).

End WithValidator.

Module Summary.
Record t := {
  total : Z;
  valid : Z;
  invalid : Z;
  totalErrors : Z;
  totalWarnings : Z;
  errorTypes : gmap string Js.Property;
  warningTypes : gmap string Js.Property;
  severityBreakdown : Breakdown.t;
  validPercentage : Js.Rounded;
}.
End Summary.

(** [obj[key] = (obj[key] || 0) + 1] on an object that started as [{}] and
    has the own properties [types].

    Reading [obj[key]] gives the own property, or else what the object
    inherits under that key, an object or a function, or else [undefined].
    With [|| 0] and [+ 1] a number becomes the next number, [undefined]
    becomes 1, and a string that is not empty, an object or a function
    becomes a string: its text followed by ["1"].  The assignment makes an
    own property of the result, except under [__proto__], where assigning a
    value that is no object changes nothing. *)
Definition countType (type : string) (types : gmap string Js.Property)
  : gmap string Js.Property :=
  let next :=
    match types !! type with
    | Some (Js.Num n) => Js.Num ((if decide (n = 0) then 0 else n) + 1)
    | Some (Js.Str s) => if decide (s = "") then Js.Num 1 else Js.Str (s +:+ "1")
    | None =>
        match Js.inherited type with
        | Some rendered => Js.Str (rendered +:+ "1")
        | None => Js.Num 1
        end
    end in
  if decide (type = "__proto__") then types else <[type := next]> types.

(** [summary.severityBreakdown[severity]++] *)
Definition countSeverity (severity : Severity) (b : Breakdown.t) : Breakdown.t :=
  match severity with
  | critical => {| Breakdown.critical := Breakdown.critical b + 1;
                   Breakdown.high := Breakdown.high b;
                   Breakdown.medium := Breakdown.medium b;
                   Breakdown.low := Breakdown.low b |}
  | high => {| Breakdown.critical := Breakdown.critical b;
               Breakdown.high := Breakdown.high b + 1;
               Breakdown.medium := Breakdown.medium b;
               Breakdown.low := Breakdown.low b |}
  | medium => {| Breakdown.critical := Breakdown.critical b;
                 Breakdown.high := Breakdown.high b;
                 Breakdown.medium := Breakdown.medium b + 1;
                 Breakdown.low := Breakdown.low b |}
  | low => {| Breakdown.critical := Breakdown.critical b;
              Breakdown.high := Breakdown.high b;
              Breakdown.medium := Breakdown.medium b;
              Breakdown.low := Breakdown.low b + 1 |}
  end.

Section Tally.
Import Summary.

(** The body of [result.errors.forEach]. *)
Definition countError (s : Summary.t) (error : Message) : Summary.t :=
  {| total := total s; valid := valid s; invalid := invalid s;
     totalErrors := totalErrors s; totalWarnings := totalWarnings s;
     errorTypes := countType (Js.orString (Some (type error)) "unknown") (errorTypes s);
     warningTypes := warningTypes s;
     severityBreakdown :=
       countSeverity (default medium (severity error)) (severityBreakdown s);
     validPercentage := validPercentage s |}.

(** The body of [result.warnings.forEach]. *)
Definition countWarning (s : Summary.t) (warning : Message) : Summary.t :=
  {| total := total s; valid := valid s; invalid := invalid s;
     totalErrors := totalErrors s; totalWarnings := totalWarnings s;
     errorTypes := errorTypes s;
     warningTypes :=
       countType (Js.orString (Some (type warning)) "unknown") (warningTypes s);
     severityBreakdown := severityBreakdown s;
     validPercentage := validPercentage s |}.

(** The body of [results.forEach]: the counters of the result itself, then
    the two inner loops. *)
Definition countValidity (s : Summary.t) (result : ValidationResult) : Summary.t :=
  {| total := total s;
     valid := if isValid result then valid s + 1 else valid s;
     invalid := if isValid result then invalid s else invalid s + 1;
     totalErrors := totalErrors s + Z.of_nat (length (errors result));
     totalWarnings := totalWarnings s + Z.of_nat (length (warnings result));
     errorTypes := errorTypes s;
     warningTypes := warningTypes s;
     severityBreakdown := severityBreakdown s;
     validPercentage := validPercentage s |}.

Definition countResult (s : Summary.t) (result : ValidationResult) : Summary.t :=
  let s1 := countValidity s result in
  let s2 := foldl countError s1 (errors result) in
  foldl countWarning s2 (warnings result).

(** [Math.round((valid / total) * 100)] *)
Definition percentage (valid total : Z) : Js.Rounded :=
  Js.Math_round (Js.fmul (Js.fdiv (Js.ofInt valid) (Js.ofInt total)) (Js.ofInt 100)).

Definition generateValidationSummary (results : list ValidationResult) : Summary.t :=
  let initial :=
    {| total := Z.of_nat (length results);
       valid := 0; invalid := 0; totalErrors := 0; totalWarnings := 0;
       errorTypes := ∅; warningTypes := ∅;
       severityBreakdown :=
         {| Breakdown.critical := 0; Breakdown.high := 0;
            Breakdown.medium := 0; Breakdown.low := 0 |};
       validPercentage := Js.Int 0 |} in
  let s := foldl countResult initial results in
  {| total := total s; valid := valid s; invalid := invalid s;
     totalErrors := totalErrors s; totalWarnings := totalWarnings s;
     errorTypes := errorTypes s; warningTypes := warningTypes s;
     severityBreakdown := severityBreakdown s;
     validPercentage :=
       if bool_decide (total s > 0) then percentage (valid s) (total s)
       else Js.Int 0 |}.

End Tally.

End W3C.

(* ===================================================================== *)
(** * utils/sitemap.js                                                    *)
(* ===================================================================== *)

Module Sitemap.

(** The object [xml2js] builds from a sitemap.  A child element is an array
    of nodes or, with other parser options, a single node.  The value of an
    element that has only text is that text, a string (the empty string for
    an empty element); the value of an element with attributes or with child
    elements is an object. *)
Inductive OneOrMany (A : Type) :=
| One (a : A)
| Many (l : list A).
Arguments One {A} a.
Arguments Many {A} l.

(** [Array.isArray(x) ? x : [x]] *)
Definition toArray {A} (x : OneOrMany A) : list A :=
  match x with
  | One a => [a]
  | Many l => l
  end.

(** The value of a [<loc>] element. *)
Inductive LocValue :=
| Text (text : string)
| Element.

(** An entry; [loc] is missing when the entry has no [<loc>] child, and
    when the entry is itself a text. *)
Record Entry := { loc : option (list LocValue) }.
Record Urlset := { url : option (OneOrMany Entry) }.
Record SitemapIndex := { sitemap : option (OneOrMany Entry) }.
Record ParsedXml := { urlset : option Urlset; sitemapindex : option SitemapIndex }.

(** What [parseString] hands to its callback: an error, the parsed object,
    or no object at all (a document without root element). *)
Inductive XmlParse :=
| XmlError (reason : string)
| XmlNull
| Xml (result : ParsedXml).

Inductive Fetched :=
| NetworkError (reason : string)
| Response (ok : bool) (status : Z) (statusText : string) (content : string).

(** The result of [validateAndParseSitemap]; of [metadata] only the
    [domains] are kept (the rest are time stamps and sizes). *)
Record SitemapValidation := {
  isValid : bool;
  error : option string;
  urlCount : Z;
  urls : list string;
  warnings : list string;
  domains : option (list string);
}.

(** The result of [getSitemapInfo], without the response headers. *)
Record SitemapInfo := { accessible : bool; infoError : option string }.

(** [[...new Set(xs)]]: the first occurrence of each element, in order. *)
Fixpoint uniqueFrom (seen : gset string) (xs : list string) : list string :=
  match xs with
  | [] => []
  | x :: rest =>
      if decide (x ∈ seen) then uniqueFrom seen rest
      else x :: uniqueFrom ({[x]} ∪ seen) rest
  end.

Definition unique (xs : list string) : list string := uniqueFrom ∅ xs.

Section WithPlatform.

Variable parseURL : string → option Validation.URL.
(** [appConfig.w3c.maxSitemapUrls] *)
Variable maxSitemapUrls : Z.
(** The network, and [xml2js]'s [parseString]. *)
Variable fetch : string → Fetched.
Variable parseString : string → XmlParse.
(** The network again, for a [HEAD] request. *)
Variable head : string → Fetched.

Definition isValidHttpUrl (s : string) : bool :=
  match parseURL s with
  | Some u =>
      bool_decide (Validation.protocol u = "http:")
      || bool_decide (Validation.protocol u = "https:")
  | None => false
  end.

(** The body of the two [for] loops over the entries, for the loop
    variable [name]: the URL pushed for an entry, if one is pushed.  On a
    [loc[0]] that is an object, [loc[0].trim()] throws a [TypeError]. *)
Definition entryUrl (name : string) (entry : Entry) : Result (option string) :=
  match loc entry with
  | Some (Text first :: _) =>
      if Js.truthy (Some first) then
        let url := Js.trim first in
        if Js.truthy (Some url) && isValidHttpUrl url then Ok (Some url) else Ok None
      else Ok None
  | Some (Element :: _) =>
      Throw (newError (name +:+ ".loc[0].trim is not a function"))
  | _ => Ok None
  end.

(** A [for] loop over entries, pushing to [urls] until an entry throws. *)
Fixpoint pushAll (name : string) (entries : list Entry) (urls : list string)
  : Result (list string) :=
  match entries with
  | [] => Ok urls
  | entry :: rest =>
      match entryUrl name entry with
      | Throw e => Throw e
      | Ok (Some url) => pushAll name rest (urls ++ [url])
      | Ok None => pushAll name rest urls
      end
  end.

Definition pushEntries (name : string) (entries : option (OneOrMany Entry))
    (urls : list string) : Result (list string) :=
  match entries with
  | Some es => pushAll name (toArray es) urls
  | None => Ok urls
  end.

(** [parsedXml] is [None] for [null]: reading a property of it throws.
    Whatever is thrown in the [try] block becomes the one error of the
    [catch] block. *)
Definition extractUrlsFromParsedXml (parsedXml : option ParsedXml)
  : Result (list string) :=
  let attempt :=
    match parsedXml with
    | None => Throw (newError "Cannot read properties of null (reading 'urlset')")
    | Some parsedXml =>
        let fromUrlset :=
          match urlset parsedXml with
          | Some u => pushEntries "urlEntry" (url u) []
          | None => Ok []
          end in
        match fromUrlset with
        | Throw e => Throw e
        | Ok urls =>
            let fromIndex :=
              match sitemapindex parsedXml with
              | Some i => pushEntries "sitemapEntry" (sitemap i) urls
              | None => Ok urls
              end in
            match fromIndex with
            | Throw e => Throw e
            | Ok urls =>
                let uniqueUrls := unique urls in
                Ok (filter (λ url, isOk (Validation.validateUrl parseURL url) = true)
                      uniqueUrls)
            end
        end
    end in
  match attempt with
  | Ok validUrls => Ok validUrls
  | Throw _ => Throw (newError "Failed to extract URLs from sitemap")
  end.

Definition parseSitemap (xmlContent : string) : Result (list string) :=
  let extracted (result : option ParsedXml) :=
    match extractUrlsFromParsedXml result with
    | Throw extractError => Throw extractError
    | Ok urls =>
        let n := Z.of_nat (length urls) in
        if bool_decide (n = 0) then Throw (newError "No URLs found in sitemap")
        else if bool_decide (n > maxSitemapUrls) then
          Throw (newError ("Sitemap contains " +:+ pretty n
                           +:+ " URLs, maximum allowed is " +:+ pretty maxSitemapUrls))
        else Ok urls
    end in
  match parseString xmlContent with
  | XmlError reason => Throw (newError ("XML parsing failed: " +:+ reason))
  | XmlNull => extracted None
  | Xml result => extracted (Some result)
  end.

Definition fetchSitemap (sitemapUrl : string) : Result string :=
  let attempt :=
    match Validation.validateUrl parseURL sitemapUrl with
    | Throw e => Throw e
    | Ok normalizedUrl =>
        match fetch normalizedUrl with
        | NetworkError reason => Throw (newError reason)
        | Response ok status statusText content =>
            if negb ok then
              Throw (newError ("HTTP " +:+ pretty status +:+ ": " +:+ statusText))
            else if bool_decide (Js.trim content = "") then
              Throw (newError "Empty sitemap content")
            else Ok content
        end
    end in
  match attempt with
  | Ok content => Ok content
  | Throw e => Throw (newError ("Failed to fetch sitemap: " +:+ errMessage e))
  end.

(** [urls.map(url => new URL(url).hostname)]: [new URL] throws on a string
    it cannot parse. *)
Fixpoint hostnames (urls : list string) : Result (list string) :=
  match urls with
  | [] => Ok []
  | u :: rest =>
      match parseURL u with
      | None => Throw (newError "Invalid URL")
      | Some parsed =>
          match hostnames rest with
          | Ok hs => Ok (Validation.hostname parsed :: hs)
          | Throw e => Throw e
          end
      end
  end.

Definition invalidSitemap (e : Error) : SitemapValidation :=
  {| isValid := false; error := Some (errMessage e); urlCount := 0;
     urls := []; warnings := []; domains := None |}.

Definition validateAndParseSitemap (sitemapUrl : string) : SitemapValidation :=
  match fetchSitemap sitemapUrl with
  | Throw e => invalidSitemap e
  | Ok xmlContent =>
      match parseSitemap xmlContent with
      | Throw e => invalidSitemap e
      | Ok urls =>
          let n := Z.of_nat (length urls) in
          let w1 :=
            if bool_decide (n > 1000)
            then ["Large sitemap with many URLs - scanning may take a while"]
            else [] in
          match hostnames urls with
          | Throw e => invalidSitemap e
          | Ok hs =>
              let domains := unique hs in
              let many := bool_decide (Z.of_nat (length domains) > 1) in
              let w2 :=
                if many then w1 ++ ["Sitemap contains URLs from multiple domains"]
                else w1 in
              let httpUrls := filter (λ u, Js.startsWith "http://" u = true) urls in
              let k := Z.of_nat (length httpUrls) in
              let w3 :=
                if bool_decide (k > 0)
                then w2 ++ [pretty k +:+ " URLs use HTTP instead of HTTPS"]
                else w2 in
              {| isValid := true; error := None; urlCount := n; urls := urls;
                 warnings := w3;
                 domains := if many then Some domains else None |}
          end
      end
  end.

Definition getSitemapInfo (sitemapUrl : string) : SitemapInfo :=
  match Validation.validateUrl parseURL sitemapUrl with
  | Throw e => {| accessible := false; infoError := Some (errMessage e) |}
  | Ok normalizedUrl =>
      match head normalizedUrl with
      | NetworkError reason => {| accessible := false; infoError := Some reason |}
      | Response ok _ _ _ => {| accessible := ok; infoError := None |}
      end
  end.

End WithPlatform.

End Sitemap.

(* ===================================================================== *)
(** * The persistence layer (the Prisma client)                          *)
(* ===================================================================== *)

Module Prisma.

Inductive ScanStatus := pending | processing | success | failed.

#[global] Instance ScanStatus_eq_dec : EqDecision ScanStatus.
Proof. solve_decision. Defined.

Definition statusName (s : ScanStatus) : string :=
  match s with
  | pending => "pending"
  | processing => "processing"
  | success => "success"
  | failed => "failed"
  end.

Module Scan.
Record t := {
  userId : Z;
  sitemapUrl : string;
  status : ScanStatus;
  totalUrls : option Z;
  finishedAt : option Z;
  errorMsg : option string;
}.

(** The [data] of an update: the fields to overwrite. *)
Record data := {
  setStatus : option ScanStatus;
  setTotalUrls : option Z;
  setFinishedAt : option Z;
  setErrorMsg : option string;
}.

Definition apply (d : data) (s : t) : t :=
  {| userId := userId s;
     sitemapUrl := sitemapUrl s;
     status := default (status s) (setStatus d);
     totalUrls := match setTotalUrls d with Some n => Some n | None => totalUrls s end;
     finishedAt := match setFinishedAt d with Some n => Some n | None => finishedAt s end;
     errorMsg := match setErrorMsg d with Some m => Some m | None => errorMsg s end |}.
End Scan.

Module ScanResult.
Record t := {
  scanId : Z;
  url : string;
  errors : list W3C.Message;
  warnings : list W3C.Message;
  isValid : bool;
}.
End ScanResult.

(** The writes issued to the database, oldest first. *)
Inductive Write :=
| ScanCreated (scanId : Z) (status : ScanStatus)
| ScanUpdated (scanId : Z) (data : Scan.data)
| CreditCreated (userId : Z)
| CreditIncremented (userId : Z) (amount : Z)
| CreditDecremented (userId : Z) (amount : Z)
| ScanResultsCreated (count : Z).

Record Db := {
  scan : gmap Z Scan.t;
  credit : gmap Z Z;
  scanResult : list ScanResult.t;
  nextScanId : Z;
  writes : list Write;
}.

Definition record (w : Write) (db : Db) : list Write := writes db ++ [w].

Definition notFound : Error := newError "Record to update not found.".

(** [db.scan.create({ data })] *)
Definition scan_create (s : Scan.t) : M Db Z := λ db,
  let id := nextScanId db in
  (Ok id,
   {| scan := <[id := s]> (scan db); credit := credit db;
      scanResult := scanResult db; nextScanId := id + 1;
      writes := record (ScanCreated id (Scan.status s)) db |}).

(** [db.scan.update({ where: { id }, data })]: throws when the row is
    missing. *)
Definition scan_update (id : Z) (d : Scan.data) : M Db unit := λ db,
  match scan db !! id with
  | None => (Throw notFound, db)
  | Some s =>
      (Ok tt,
       {| scan := <[id := Scan.apply d s]> (scan db); credit := credit db;
          scanResult := scanResult db; nextScanId := nextScanId db;
          writes := record (ScanUpdated id d) db |})
  end.

(** [db.scan.findUnique({ where: { id } })] *)
Definition scan_findUnique (id : Z) : M Db (option Scan.t) :=
  gets (λ db, scan db !! id).

(** [db.scan.findFirst({ where: { id, userId } })] *)
Definition scan_findFirst (id userId : Z) : M Db (option Scan.t) :=
  gets (λ db,
    match scan db !! id with
    | Some s => if decide (Scan.userId s = userId) then Some s else None
    | None => None
    end).

(** [db.scanResult.createMany({ data })] *)
Definition scanResult_createMany (rows : list ScanResult.t) : M Db unit :=
  modify (λ db,
    {| scan := scan db; credit := credit db;
       scanResult := scanResult db ++ rows; nextScanId := nextScanId db;
       writes := record (ScanResultsCreated (Z.of_nat (length rows))) db |}).

(** [credit.findUnique({ where: { userId } })]: the amount of the row. *)
Definition credit_findUnique (userId : Z) : M Db (option Z) :=
  gets (λ db, credit db !! userId).

(** [credit.create({ data: { userId, amount: 0 } })]: throws on a second row
    for the user. *)
Definition credit_create (userId : Z) : M Db Z := λ db,
  match credit db !! userId with
  | Some _ => (Throw (newError "Unique constraint failed on the fields: (`userId`)"), db)
  | None =>
      (Ok 0,
       {| scan := scan db; credit := <[userId := 0]> (credit db);
          scanResult := scanResult db; nextScanId := nextScanId db;
          writes := record (CreditCreated userId) db |})
  end.

Definition credit_write (userId amount : Z) (w : Write) (db : Db) : Db :=
  {| scan := scan db; credit := <[userId := amount]> (credit db);
     scanResult := scanResult db; nextScanId := nextScanId db;
     writes := record w db |}.

(** [credit.update({ where: { userId }, data: { amount: { increment } } })] *)
Definition credit_increment (userId amount : Z) : M Db Z := λ db,
  match credit db !! userId with
  | None => (Throw notFound, db)
  | Some a =>
      (Ok (a + amount), credit_write userId (a + amount) (CreditIncremented userId amount) db)
  end.

(** [credit.update({ where: { userId }, data: { amount: { decrement } } })] *)
Definition credit_decrement (userId amount : Z) : M Db Z := λ db,
  match credit db !! userId with
  | None => (Throw notFound, db)
  | Some a =>
      (Ok (a - amount), credit_write userId (a - amount) (CreditDecremented userId amount) db)
  end.

(** [db.$transaction(async (tx) => ...)] when no other transaction runs
    meanwhile: the statements of the callback one after the other, and
    nothing that it wrote is kept when it throws.  Transactions that run at
    the same time are followed statement by statement, see
    [CreditService.interleave]. *)
Definition transaction {A} (m : M Db A) : M Db A := λ db,
  match m db with
  | (Ok a, db') => (Ok a, db')
  | (Throw e, _) => (Throw e, db)
  end.

(** The sequence of status values a scan has been given. *)
Definition statusWritten (id : Z) (w : Write) : option ScanStatus :=
  match w with
  | ScanCreated id' s => if decide (id' = id) then Some s else None
  | ScanUpdated id' d => if decide (id' = id) then Scan.setStatus d else None
  | _ => None
  end.

Definition statusHistory (id : Z) (db : Db) : list ScanStatus :=
  omap (statusWritten id) (writes db).

(** The credits taken from, and given to, a user. *)
Definition decrements (userId : Z) (ws : list Write) : list Z :=
  omap (λ w, match w with
             | CreditDecremented u a => if decide (u = userId) then Some a else None
             | _ => None
             end) ws.

Definition increments (userId : Z) (ws : list Write) : list Z :=
  omap (λ w, match w with
             | CreditIncremented u a => if decide (u = userId) then Some a else None
             | _ => None
             end) ws.

Definition sum (l : list Z) : Z := foldr Z.add 0 l.

(** [db.scan.delete({ where: { id } })]: throws when the row is missing.
    The results of the scan go with it: the service relies on the cascade of
    the schema ("cascade will delete results").  A deletion sets no status
    and moves no credit; the journal is left as it is. *)
Definition scan_delete (id : Z) : M Db unit := λ db,
  match scan db !! id with
  | None => (Throw (newError "Record to delete does not exist."), db)
  | Some _ =>
      (Ok tt,
       {| scan := delete id (scan db); credit := credit db;
          scanResult := filter (λ r, ScanResult.scanId r ≠ id) (scanResult db);
          nextScanId := nextScanId db; writes := writes db |})
  end.

(** The rows that [where: { userId }] selects. *)
Definition scansOf (userId : Z) (db : Db) : list Scan.t :=
  filter (λ s, Scan.userId s = userId) (map_to_list (scan db)).*2.

(** [db.scan.count({ where: { userId } })] *)
Definition scan_count (userId : Z) : M Db Z :=
  gets (λ db, Z.of_nat (length (scansOf userId db))).

(** A group of [groupBy]: [status], [_count.id] and [_sum.totalUrls]. *)
Module StatusGroup.
Record t := { status : ScanStatus; count : Z; sumTotalUrls : option Z }.
End StatusGroup.

(** [_sum]: the sum of the values that are not null, null when there is
    none. *)
Definition sumOfNonNull (values : list (option Z)) : option Z :=
  match omap id values with
  | [] => None
  | present => Some (sum present)
  end.

(** The group of the rows with a status, if there is such a row. *)
Definition groupOf (status : ScanStatus) (rows : list Scan.t) : option StatusGroup.t :=
  match filter (λ s, Scan.status s = status) rows with
  | [] => None
  | group =>
      Some {| StatusGroup.status := status;
              StatusGroup.count := Z.of_nat (length group);
              StatusGroup.sumTotalUrls := sumOfNonNull (Scan.totalUrls <$> group) |}
  end.

(** [db.scan.groupBy({ by: ['status'], where: { userId }, _count, _sum })]:
    one group for each status that a scan of the user has. *)
Definition scan_groupBy (userId : Z) : M Db (list StatusGroup.t) :=
  gets (λ db,
    omap (λ status, groupOf status (scansOf userId db))
      [pending; processing; success; failed]).

End Prisma.

(* ===================================================================== *)
(** * services/credit.service.js                                          *)
(* ===================================================================== *)

Module CreditService.
Import Prisma.

Module Added.
Record t := { amount : Z; added : Z }.
End Added.

Module Deducted.
Record t := { amount : Z; deducted : Z }.
End Deducted.

Record CreditCheck := {
  hasSufficient : bool;
  currentAmount : Z;
  requiredAmount : Z;
  deficit : Z;
}.

Definition getCreditBalance (userId : Z) : M Db Z :=
  tryCatch
    (credits ← credit_findUnique userId;
     match credits with
     | None => credit_create userId
     | Some amount => mret amount
     end)
    (λ _, throw (newError "Failed to retrieve credit balance")).

Definition addCredits (userId amount : Z) (reason : string) : M Db Added.t :=
  if bool_decide (amount ≤ 0) then
    throw (newError "Credit amount must be positive")
  else if bool_decide (amount > 10000) then
    throw (newError "Cannot add more than 10,000 credits at once")
  else
    tryCatch
      (result ← transaction
         (credits ← credit_findUnique userId;
          match credits with
          | None => credit_create userId;; mret tt
          | Some _ => mret tt
          end;;
          credit_increment userId amount);
       mret {| Added.amount := result; Added.added := amount |})
      (λ _, throw (newError "Failed to add credits")).

Definition deductCredits (userId amount : Z) (reason : string) : M Db Deducted.t :=
  if bool_decide (amount ≤ 0) then
    throw (newError "Deduction amount must be positive")
  else
    tryCatch
      (result ← transaction
         (credits ← credit_findUnique userId;
          match credits with
          | None =>
              throw (mkError (InsufficientCreditsError amount 0) "No credit account found")
          | Some available =>
              if bool_decide (available < amount) then
                throw (mkError (InsufficientCreditsError amount available)
                         ("Insufficient credits. Required: " +:+ pretty amount
                          +:+ ", Available: " +:+ pretty available))
              else credit_decrement userId amount
          end);
       mret {| Deducted.amount := result; Deducted.deducted := amount |})
      (λ error,
         match errClass error with
         | InsufficientCreditsError _ _ => throw error
         | _ => throw (newError "Failed to deduct credits")
         end).

(** ** Deductions at the same time

    [deductCredits] calls [$transaction] without an isolation level, so that
    the transaction runs at the default level of the database.  The database
    is PostgreSQL ([backend/README.md], [docs/05-hosting.md]) and its default
    is READ COMMITTED: a statement sees the rows as they are committed when
    it runs, an [update] with [decrement] lowers the amount that the row has
    then, and the statements of two transactions run in any order.  The
    transaction of [deductCredits] has two statements, the [findUnique],
    whose result is tested, and the [update], after which it commits.  The
    source shows no constraint of the database on the amount, and none is
    modelled. *)

(** Where a call of [deductCredits] stands: nothing has run; the balance was
    read and covers the amount; or the call has returned or thrown. *)
Inductive Deduction :=
| Called
| Checked
| Settled (outcome : Result Deducted.t).

(** The next statement of a call, with what precedes and follows it in the
    code. *)
Definition deductStep (userId amount : Z) (stage : Deduction) : M Db Deduction :=
  match stage with
  | Called =>
      if bool_decide (amount ≤ 0) then
        mret (Settled (Throw (newError "Deduction amount must be positive")))
      else
        credits ← credit_findUnique userId;
        match credits with
        | None =>
            mret (Settled (Throw (mkError (InsufficientCreditsError amount 0)
                                    "No credit account found")))
        | Some available =>
            if bool_decide (available < amount) then
              mret (Settled (Throw
                (mkError (InsufficientCreditsError amount available)
                   ("Insufficient credits. Required: " +:+ pretty amount
                    +:+ ", Available: " +:+ pretty available))))
            else mret Checked
        end
  | Checked =>
      tryCatch
        (result ← credit_decrement userId amount;
         mret (Settled (Ok {| Deducted.amount := result;
                              Deducted.deducted := amount |})))
        (λ _, mret (Settled (Throw (newError "Failed to deduct credits"))))
  | Settled outcome => mret (Settled outcome)
  end.

(** A call in progress. *)
Module Pending.
Record t := { userId : Z; amount : Z; stage : Deduction }.
End Pending.

Definition called (userId amount : Z) : Pending.t :=
  {| Pending.userId := userId; Pending.amount := amount; Pending.stage := Called |}.

Definition advance (call : Pending.t) : M Db Pending.t :=
  stage ← deductStep (Pending.userId call) (Pending.amount call) (Pending.stage call);
  mret {| Pending.userId := Pending.userId call;
          Pending.amount := Pending.amount call;
          Pending.stage := stage |}.

(** Two calls whose statements run in the order of a schedule: at each step
    the first call ([true]) or the second ([false]) runs its next
    statement. *)
Fixpoint interleave (schedule : list bool) (first second : Pending.t)
  : M Db (Pending.t * Pending.t) :=
  match schedule with
  | [] => mret (first, second)
  | true :: rest => first' ← advance first; interleave rest first' second
  | false :: rest => second' ← advance second; interleave rest first second'
  end.

Definition checkSufficientCredits (userId requiredAmount : Z) : M Db CreditCheck :=
  tryCatch
    (credits ← getCreditBalance userId;
     let hasSufficient := bool_decide (credits >= requiredAmount) in
     mret {| hasSufficient := hasSufficient;
             currentAmount := credits;
             requiredAmount := requiredAmount;
             deficit := if hasSufficient then 0 else requiredAmount - credits |})
    (λ _, throw (newError "Failed to check credit balance")).

Definition refundCredits (userId amount : Z) (reason : string)
    (relatedScanId : option Z) : M Db Added.t :=
  tryCatch
    (addCredits userId amount ("refund: " +:+ reason))
    (λ _, throw (newError "Failed to refund credits")).

(** The result of [getCreditStatistics], without the time stamp. *)
Module CreditStatistics.
Record t := {
  currentBalance : Z;
  totalScans : Z;
  totalUrlsScanned : Z;
  successfulScans : Z;
  failedScans : Z;
  successRate : Js.float;
}.
End CreditStatistics.

(** [scanStats.find(stat => stat.status === status)?._count.id || 0] *)
Definition countWithStatus (status : ScanStatus) (scanStats : list StatusGroup.t) : Z :=
  default 0
    (StatusGroup.count <$> head (filter (λ stat, StatusGroup.status stat = status) scanStats)).

Definition getCreditStatistics (userId : Z) : M Db CreditStatistics.t :=
  tryCatch
    (credits ← getCreditBalance userId;
     scanStats ← scan_groupBy userId;
     let totalScans := foldl (λ sum stat, sum + StatusGroup.count stat) 0 scanStats in
     let totalUrlsScanned :=
       foldl (λ sum stat, sum + default 0 (StatusGroup.sumTotalUrls stat)) 0 scanStats in
     let successfulScans := countWithStatus success scanStats in
     let failedScans := countWithStatus failed scanStats in
     mret {| CreditStatistics.currentBalance := credits;
             CreditStatistics.totalScans := totalScans;
             CreditStatistics.totalUrlsScanned := totalUrlsScanned;
             CreditStatistics.successfulScans := successfulScans;
             CreditStatistics.failedScans := failedScans;
             CreditStatistics.successRate :=
               if bool_decide (totalScans > 0)
               then Js.fmul (Js.fdiv (Js.ofInt successfulScans) (Js.ofInt totalScans))
                      (Js.ofInt 100)
               else Js.ofInt 0 |})
    (λ _, throw (newError "Failed to retrieve credit statistics")).

End CreditService.

(* ===================================================================== *)
(** * queues/scanQueue.js                                                 *)
(* ===================================================================== *)

Module ScanQueue.
Import Prisma.

Module Job.
(** [job.data] *)
Record data := { scanId : Z; userId : Z; sitemapUrl : string }.
End Job.

(** What a completed job returns ([completedAt] is a time stamp). *)
Record Completed := { scanId : Z; summary : W3C.Summary.t }.

(** The database, the jobs added to the queue (oldest first) and the
    progress values written to jobs, each with the job's [scanId]. *)
Record World := {
  db : Db;
  queue : list Job.data;
  progress : list (Z * Js.Rounded);
}.

Definition liftDb {A} (m : M Db A) : M World A := λ w,
  let '(r, db') := m (db w) in
  (r, {| db := db'; queue := queue w; progress := progress w |}).

(** [defaultJobOptions.attempts] *)
Definition attempts : nat := 3.

(** [addScanJob(scanData)].  [scanQueue.add] fails when the queue cannot be
    reached ([fault] is the reason) and adds nothing then; the [catch] block
    logs the error and throws it again.  The job's position in the queue
    stands for its id. *)
Definition addScanJob (fault : option string) (scanData : Job.data) : M World Z :=
  tryCatch
    (match fault with
     | Some reason => throw (newError reason)
     | None => λ w,
         (Ok (Z.of_nat (length (queue w))),
          {| db := db w; queue := queue w ++ [scanData]; progress := progress w |})
     end)
    (λ error, throw error).

(** The awaited calls of the worker that leave the process; each may
    fail for a reason of the infrastructure (database, Redis). *)
Inductive Call :=
| UpdateProcessing | Progress10 | UpdateTotalUrls | Progress20
| CheckCredits | DeductCredits | Progress30 | Progress90
| CreateResults | UpdateSuccess | Progress100
| UpdateFailed | FindScan | RefundCredits.

#[global] Instance Call_eq_dec : EqDecision Call.
Proof. solve_decision. Defined.

(** All that a run of the worker takes from outside the process. *)
Record Env := {
  parseURL : string → option Validation.URL;
  maxSitemapUrls : Z;
  sitemapFetch : string → Sitemap.Fetched;
  parseString : string → Sitemap.XmlParse;
  w3cFetch : string → W3C.Fetched;
  (** [new Date()] *)
  now : Z;
  (** The calls that fail in this run, with the reason. *)
  faults : Call → option string;
}.

Section Worker.

Variable env : Env.
Variable job : Job.data.

(** [await call]: the call throws for the infrastructure's reason and has
    no effect, or it runs. *)
Definition await {A} (c : Call) (m : M World A) : M World A :=
  match faults env c with
  | Some reason => throw (newError reason)
  | None => m
  end.

(** [job.updateProgress(value)] *)
Definition updateProgress (value : Js.Rounded) : M World unit :=
  modify (λ w, {| db := db w; queue := queue w;
                  progress := progress w ++ [(Job.scanId job, value)] |}).

(** [30 + Math.round((progress.completed / urls.length) * 60)] *)
Definition overallProgress (completed n : Z) : Js.Rounded :=
  Js.plus 30
    (Js.Math_round (Js.fmul (Js.fdiv (Js.ofInt completed) (Js.ofInt n)) (Js.ofInt 60))).

(** [validateUrls(urls, progressCallback)] with the worker's callback,
    which starts a progress update without waiting for it and returns. *)
Definition validate (urls : list string) : M World (list W3C.ValidationResult) :=
  let n := Z.of_nat (length urls) in
  let '(r, calls) := W3C.validateUrls (w3cFetch env) (Some (λ _, Ok tt)) urls in
  modify (λ w,
    {| db := db w; queue := queue w;
       progress := progress w ++
         map (λ p, (Job.scanId job, overallProgress (W3C.completed p) n)) calls |});;
  liftResult r.

Definition toScanResult (result : W3C.ValidationResult) : ScanResult.t :=
  {| ScanResult.scanId := Job.scanId job;
     ScanResult.url := W3C.url result;
     ScanResult.errors := W3C.errors result;
     ScanResult.warnings := W3C.warnings result;
     ScanResult.isValid := W3C.isValid result |}.

(** The [try] block of the processor. *)
Definition process : M World Completed :=
  let scanId := Job.scanId job in
  let userId := Job.userId job in
  await UpdateProcessing
    (liftDb (scan_update scanId
       {| Scan.setStatus := Some processing; Scan.setTotalUrls := None;
          Scan.setFinishedAt := None; Scan.setErrorMsg := None |}));;
  await Progress10 (updateProgress (Js.Int 10));;
  let sitemapValidation :=
    Sitemap.validateAndParseSitemap (parseURL env) (maxSitemapUrls env)
      (sitemapFetch env) (parseString env) (Job.sitemapUrl job) in
  if negb (Sitemap.isValid sitemapValidation) then
    throw (newError (Js.orString (Sitemap.error sitemapValidation) "Invalid sitemap"))
  else
    let urls := Sitemap.urls sitemapValidation in
    let n := Z.of_nat (length urls) in
    await UpdateTotalUrls
      (liftDb (scan_update scanId
         {| Scan.setStatus := None; Scan.setTotalUrls := Some n;
            Scan.setFinishedAt := None; Scan.setErrorMsg := None |}));;
    await Progress20 (updateProgress (Js.Int 20));;
    creditCheck ← await CheckCredits
      (liftDb (CreditService.checkSufficientCredits userId n));
    if negb (CreditService.hasSufficient creditCheck) then
      throw (newError ("Insufficient credits. Required: " +:+ pretty n
                       +:+ ", Available: "
                       +:+ pretty (CreditService.currentAmount creditCheck)))
    else
      await DeductCredits
        (liftDb (CreditService.deductCredits userId n
                   ("sitemap_scan_" +:+ pretty scanId)));;
      await Progress30 (updateProgress (Js.Int 30));;
      validationResults ← validate urls;
      await Progress90 (updateProgress (Js.Int 90));;
      await CreateResults
        (liftDb (scanResult_createMany (map toScanResult validationResults)));;
      let summary := W3C.generateValidationSummary validationResults in
      await UpdateSuccess
        (liftDb (scan_update scanId
           {| Scan.setStatus := Some success; Scan.setTotalUrls := None;
              Scan.setFinishedAt := Some (now env); Scan.setErrorMsg := None |}));;
      await Progress100 (updateProgress (Js.Int 100));;
      mret {| scanId := scanId; summary := summary |}.

(** The refund of the [catch] block, with its own [try]/[catch]. *)
Definition refundAfterFailure : M World unit :=
  let scanId := Job.scanId job in
  tryCatch
    (scan ← await FindScan (liftDb (scan_findUnique scanId));
     match scan with
     | Some s =>
         match Scan.totalUrls s with
         | Some totalUrls =>
             if bool_decide (totalUrls ≠ 0) && bool_decide (totalUrls > 0) then
               await RefundCredits
                 (liftDb (CreditService.refundCredits (Job.userId job) totalUrls
                            ("scan_failure_" +:+ pretty scanId) (Some scanId)));;
               mret tt
             else mret tt
         | None => mret tt
         end
     | None => mret tt
     end)
    (λ refundError, mret tt).

(** The processor given to [new Worker('sitemap-scan', ...)]. *)
Definition scanWorker : M World Completed :=
  tryCatch process
    (λ error,
       await UpdateFailed
         (liftDb (scan_update (Job.scanId job)
            {| Scan.setStatus := Some failed; Scan.setTotalUrls := None;
               Scan.setFinishedAt := Some (now env);
               Scan.setErrorMsg := Some (errMessage error) |}));;
       refundAfterFailure;;
       throw error).

End Worker.

(** The queue runs the processor again when it throws, [attempts] times in
    all; every attempt meets its own environment. *)
Fixpoint retry (first : Env) (later : list Env) (job : Job.data) : M World Completed :=
  tryCatch (scanWorker first job)
    (λ error,
       match later with
       | [] => throw error
       | next :: rest => retry next rest job
       end).

Definition runJob (first : Env) (later : list Env) (job : Job.data) : M World Completed :=
  retry first (take (attempts - 1) later) job.

End ScanQueue.

(* ===================================================================== *)
(** * services/scan.service.js                                            *)
(* ===================================================================== *)

Module ScanService.
Import Prisma.

(** The awaited calls of [createScan] that leave the process for the
    database or for the queue; each may fail for a reason of the
    infrastructure. *)
Inductive Call := ReadBalance | CreateScan | AddJob.

#[global] Instance Call_eq_dec : EqDecision Call.
Proof. solve_decision. Defined.

Section WithPlatform.

Variable parseURL : string → option Validation.URL.
Variable head : string → Sitemap.Fetched.
(** The calls that fail in this run, with the message they throw. *)
Variable faults : Call → option string.

(** [await call] on the database: the call throws and has no effect, or it
    runs. *)
Definition await {A} (c : Call) (m : M ScanQueue.World A) : M ScanQueue.World A :=
  match faults c with
  | Some reason => throw (newError reason)
  | None => m
  end.

Definition createScan (userId : Z) (sitemapUrl : string)
  : M ScanQueue.World (Z * Z) :=
  tryCatch
    (let sitemapInfo := Sitemap.getSitemapInfo parseURL head sitemapUrl in
     if negb (Sitemap.accessible sitemapInfo) then
       throw (newError ("Sitemap is not accessible: "
                        +:+ Js.orString (Sitemap.infoError sitemapInfo) "Unknown error"))
     else
       creditBalance ← await ReadBalance
         (ScanQueue.liftDb (CreditService.getCreditBalance userId));
       if bool_decide (creditBalance = 0) then
         throw (mkError (InsufficientCreditsError 1 0)
                  "No credits available. Please purchase credits to start scanning.")
       else
         scanId ← await CreateScan
           (ScanQueue.liftDb
              (scan_create {| Scan.userId := userId; Scan.sitemapUrl := sitemapUrl;
                              Scan.status := pending; Scan.totalUrls := Some 0;
                              Scan.finishedAt := None; Scan.errorMsg := None |}));
         jobId ← ScanQueue.addScanJob (faults AddJob)
           {| ScanQueue.Job.scanId := scanId; ScanQueue.Job.userId := userId;
              ScanQueue.Job.sitemapUrl := sitemapUrl |};
         mret (scanId, jobId))
    (λ error,
       match errClass error with
       | InsufficientCreditsError _ _ => throw error
       | _ => throw (newError ("Failed to create scan: " +:+ errMessage error))
       end).

End WithPlatform.

(** [cancelScan(scanId, userId)], at time [now]. *)
Definition cancelScan (now : Z) (scanId userId : Z) : M Db bool :=
  tryCatch
    (scan ← scan_findFirst scanId userId;
     match scan with
     | None => throw (mkError NotFoundError "Scan not found or not accessible")
     | Some s =>
         if bool_decide (Scan.status s ∉ [pending; processing]) then
           throw (mkError ConflictError
                    ("Cannot cancel scan with status: " +:+ statusName (Scan.status s)))
         else
           scan_update scanId
             {| Scan.setStatus := Some failed; Scan.setTotalUrls := None;
                Scan.setFinishedAt := Some now;
                Scan.setErrorMsg := Some "Cancelled by user" |};;
           mret true
     end)
    (λ error,
       match errClass error with
       | NotFoundError | ConflictError => throw error
       | _ => throw (newError "Failed to cancel scan")
       end).

(** [deleteScan(scanId, userId)] *)
Definition deleteScan (scanId userId : Z) : M Db bool :=
  tryCatch
    (scan ← scan_findFirst scanId userId;
     match scan with
     | None => throw (mkError NotFoundError "Scan not found or not accessible")
     | Some _ => scan_delete scanId;; mret true
     end)
    (λ error,
       match errClass error with
       | NotFoundError => throw error
       | _ => throw (newError "Failed to delete scan")
       end).

Module ScanSummary.
Record t := {
  total : Z;
  valid : Z;
  invalid : Z;
  totalErrors : Z;
  totalWarnings : Z;
  validPercentage : Js.Rounded;
}.
End ScanSummary.

(** The body of [results.forEach] in [calculateScanSummary].  The [errors]
    and the [warnings] of a row are arrays, as the worker stores them. *)
Definition countRow (summary : ScanSummary.t) (result : ScanResult.t) : ScanSummary.t :=
  {| ScanSummary.total := ScanSummary.total summary;
     ScanSummary.valid :=
       if ScanResult.isValid result then ScanSummary.valid summary + 1
       else ScanSummary.valid summary;
     ScanSummary.invalid :=
       if ScanResult.isValid result then ScanSummary.invalid summary
       else ScanSummary.invalid summary + 1;
     ScanSummary.totalErrors :=
       ScanSummary.totalErrors summary + Z.of_nat (length (ScanResult.errors result));
     ScanSummary.totalWarnings :=
       ScanSummary.totalWarnings summary + Z.of_nat (length (ScanResult.warnings result));
     ScanSummary.validPercentage := ScanSummary.validPercentage summary |}.

Definition calculateScanSummary (results : list ScanResult.t) : ScanSummary.t :=
  let empty :=
    {| ScanSummary.total := 0; ScanSummary.valid := 0; ScanSummary.invalid := 0;
       ScanSummary.totalErrors := 0; ScanSummary.totalWarnings := 0;
       ScanSummary.validPercentage := Js.Int 0 |} in
  if bool_decide (Z.of_nat (length results) = 0) then empty
  else
    let summary :=
      foldl countRow
        {| ScanSummary.total := Z.of_nat (length results);
           ScanSummary.valid := 0; ScanSummary.invalid := 0;
           ScanSummary.totalErrors := 0; ScanSummary.totalWarnings := 0;
           ScanSummary.validPercentage := Js.Int 0 |} results in
    {| ScanSummary.total := ScanSummary.total summary;
       ScanSummary.valid := ScanSummary.valid summary;
       ScanSummary.invalid := ScanSummary.invalid summary;
       ScanSummary.totalErrors := ScanSummary.totalErrors summary;
       ScanSummary.totalWarnings := ScanSummary.totalWarnings summary;
       ScanSummary.validPercentage :=
         W3C.percentage (ScanSummary.valid summary) (ScanSummary.total summary) |}.

(** The result of [getUserScanStatistics], without the five most recent
    scans. *)
Module Statistics.
Record t := {
  totalScans : Z;
  pendingScans : Z;
  processingScans : Z;
  successScans : Z;
  failedScans : Z;
  successRate : Js.Rounded;
}.
End Statistics.

(** [statusCounts.reduce((acc, item) => { acc[item.status] = item._count.id;
    return acc; }, {})] *)
Definition statusBreakdown (statusCounts : list StatusGroup.t) : ScanStatus → option Z :=
  foldl (λ acc item status,
           if decide (status = StatusGroup.status item) then Some (StatusGroup.count item)
           else acc status)
    (λ _, None) statusCounts.

Definition getUserScanStatistics (userId : Z) : M Db Statistics.t :=
  tryCatch
    (totalScans ← scan_count userId;
     statusCounts ← scan_groupBy userId;
     let statusBreakdown := statusBreakdown statusCounts in
     mret {| Statistics.totalScans := totalScans;
             Statistics.pendingScans := default 0 (statusBreakdown pending);
             Statistics.processingScans := default 0 (statusBreakdown processing);
             Statistics.successScans := default 0 (statusBreakdown success);
             Statistics.failedScans := default 0 (statusBreakdown failed);
             Statistics.successRate :=
               if bool_decide (totalScans > 0)
               then W3C.percentage (default 0 (statusBreakdown success)) totalScans
               else Js.Int 0 |})
    (λ _, throw (newError "Failed to retrieve scan statistics")).

(** The result of [getScanDetails]: the scan, its results, their summary and
    the two entries of [metadata]. *)
Module ScanDetails.
Record t := {
  scan : Scan.t;
  results : list ScanResult.t;
  summary : ScanSummary.t;
  resultCount : Z;
  hasResults : bool;
}.
End ScanDetails.

Section WithOrder.

(** [orderBy: { url: 'asc' }]: the order in which the database returns rows
    sorted by URL. *)
Variable orderByUrl : list ScanResult.t → list ScanResult.t.

(** [include: { scanResults: { orderBy: { url: 'asc' } } }] *)
Definition scanResultsOf (scanId : Z) (db : Db) : list ScanResult.t :=
  orderByUrl (filter (λ r, ScanResult.scanId r = scanId) (scanResult db)).

(** [getScanDetails(scanId, userId)] *)
Definition getScanDetails (scanId userId : Z) : M Db ScanDetails.t :=
  tryCatch
    (scan ← scan_findFirst scanId userId;
     match scan with
     | None => throw (mkError NotFoundError "Scan not found or not accessible")
     | Some s =>
         scanResults ← gets (scanResultsOf scanId);
         count ← gets (λ db,
           Z.of_nat (length (filter (λ r, ScanResult.scanId r = scanId) (scanResult db))));
         let summary := calculateScanSummary scanResults in
         mret {| ScanDetails.scan := s;
                 ScanDetails.results := scanResults;
                 ScanDetails.summary := summary;
                 ScanDetails.resultCount := count;
                 ScanDetails.hasResults :=
                   bool_decide (Z.of_nat (length scanResults) > 0) |}
     end)
    (λ error,
       match errClass error with
       | NotFoundError => throw error
       | _ => throw (newError "Failed to retrieve scan details")
       end).

End WithOrder.

End ScanService.

(* ===================================================================== *)
(** * Vocabulary of the specification                                     *)
(* ===================================================================== *)

Module Spec.

(** The result the batch records for a URL: the client's result, or the
    synthetic failed result when the client throws. *)
Definition resultFor (fetch : string → W3C.Fetched) (url : string)
  : W3C.ValidationResult :=
  match W3C.validateUrl fetch url with
  | Ok r => r
  | Throw e => W3C.failedResult url e
  end.

(** The notification expected for the URL at index [i] of [n]. *)
Definition progressFor (fetch : string → W3C.Fetched) (n i : Z) (url : string)
  : W3C.Progress :=
  {| W3C.completed := i + 1;
     W3C.total := n;
     W3C.current := url;
     W3C.result := resultFor fetch url;
     W3C.error := match W3C.validateUrl fetch url with
                  | Ok _ => None
                  | Throw e => Some (errMessage e)
                  end |}.

Fixpoint progressFrom (fetch : string → W3C.Fetched) (n i : Z) (urls : list string)
  : list W3C.Progress :=
  match urls with
  | [] => []
  | url :: rest => progressFor fetch n i url :: progressFrom fetch n (i + 1) rest
  end.

(** A result does not contradict itself: [isValid] says that there is no
    error. *)
Definition consistent (r : W3C.ValidationResult) : Prop :=
  W3C.isValid r = bool_decide (W3C.errors r = []).

Definition consistentRow (r : Prisma.ScanResult.t) : Prop :=
  Prisma.ScanResult.isValid r = bool_decide (Prisma.ScanResult.errors r = []).

(** The severity an error is counted under. *)
Definition severityOf (m : W3C.Message) : W3C.Severity :=
  default W3C.medium (W3C.severity m).

Definition allErrors (results : list W3C.ValidationResult) : list W3C.Message :=
  concat (map W3C.errors results).

(** The number of [errors] of severity [s]. *)
Definition countOf (s : W3C.Severity) (errors : list W3C.Message) : Z :=
  Z.of_nat (length (filter (λ m, severityOf m = s) errors)).

(** The child elements of a name: none, the one, or the many. *)
Definition children {A} (x : option (Sitemap.OneOrMany A)) : list A :=
  match x with
  | None => []
  | Some (Sitemap.One a) => [a]
  | Some (Sitemap.Many l) => l
  end.

(** The entries of a parsed sitemap in the order of the document: those of
    the [<urlset>], then those of the [<sitemapindex>]. *)
Definition entries (p : Sitemap.ParsedXml) : list Sitemap.Entry :=
  match Sitemap.urlset p with
  | Some u => children (Sitemap.url u)
  | None => []
  end ++
  match Sitemap.sitemapindex p with
  | Some i => children (Sitemap.sitemap i)
  | None => []
  end.

(** The first [<loc>] of an entry is an element with attributes or with
    child elements, not a text. *)
Definition structured (entry : Sitemap.Entry) : Prop :=
  ∃ rest, Sitemap.loc entry = Some (Sitemap.Element :: rest).

#[global] Instance structured_dec entry : Decision (structured entry).
Proof.
  unfold structured. destruct (Sitemap.loc entry) as [[|[text|] rest]|].
  - right. by intros [? ?].
  - right. by intros [? ?].
  - left. by exists rest.
  - right. by intros [? ?].
Defined.

(** The text of the first [<loc>] of an entry, trimmed. *)
Definition firstLoc (entry : Sitemap.Entry) : option string :=
  match Sitemap.loc entry with
  | Some (Sitemap.Text first :: _) => Some (Js.trim first)
  | _ => None
  end.

(** The locations a parsed sitemap lists, duplicates included. *)
Definition locations (p : Sitemap.ParsedXml) : list string :=
  omap firstLoc (entries p).

(** A string the platform parses as an absolute HTTP or HTTPS URL. *)
Definition httpUrl (parseURL : string → option Validation.URL) (s : string) : Prop :=
  ∃ u, parseURL s = Some u ∧
       (Validation.protocol u = "http:" ∨ Validation.protocol u = "https:").

#[global] Instance httpUrl_dec parseURL s : Decision (httpUrl parseURL s).
Proof.
  unfold httpUrl. destruct (parseURL s) as [u|].
  - destruct (decide (Validation.protocol u = "http:"
                      ∨ Validation.protocol u = "https:")) as [Hp|Hp].
    + left. by exists u.
    + right. by intros (u' & [= <-] & H).
  - right. by intros (u & ? & _).
Defined.

(** The locations of a sitemap that are URLs to scan: not empty, and
    absolute HTTP or HTTPS URLs. *)
Definition candidates (parseURL : string → option Validation.URL)
    (p : Sitemap.ParsedXml) : list string :=
  filter (λ u, u ≠ "" ∧ httpUrl parseURL u) (locations p).

(** A list without the repetitions of its elements: each element stays
    where it comes first. *)
Fixpoint firstOccurrences (xs : list string) : list string :=
  match xs with
  | [] => []
  | x :: rest => x :: filter (λ y, y ≠ x) (firstOccurrences rest)
  end.

(** The balance of a user: the amount of the credit row, or zero when the
    user has none. *)
Definition balance (db : Prisma.Db) (userId : Z) : Z :=
  default 0 (Prisma.credit db !! userId).

(** No balance is negative. *)
Definition nonNegative (db : Prisma.Db) : Prop :=
  ∀ userId amount, Prisma.credit db !! userId = Some amount → 0 ≤ amount.

(** The database after the first access to the balance of a user without a
    credit row. *)
Definition withNewAccount (userId : Z) (db : Prisma.Db) : Prisma.Db :=
  {| Prisma.scan := Prisma.scan db;
     Prisma.credit := <[userId := 0]> (Prisma.credit db);
     Prisma.scanResult := Prisma.scanResult db;
     Prisma.nextScanId := Prisma.nextScanId db;
     Prisma.writes := Prisma.writes db ++ [Prisma.CreditCreated userId] |}.

(** The operations of the ledger, for sequences of calls in which each call
    has returned or thrown before the next begins. *)
Inductive LedgerOp :=
| Deduct (userId amount : Z) (reason : string)
| Refund (userId amount : Z) (reason : string) (relatedScanId : option Z)
| Add (userId amount : Z) (reason : string)
| CheckSufficient (userId requiredAmount : Z)
| GetBalance (userId : Z).

Definition step (db : Prisma.Db) (op : LedgerOp) : Prisma.Db :=
  match op with
  | Deduct u a reason => (CreditService.deductCredits u a reason db).2
  | Refund u a reason related => (CreditService.refundCredits u a reason related db).2
  | Add u a reason => (CreditService.addCredits u a reason db).2
  | CheckSufficient u required =>
      (CreditService.checkSufficientCredits u required db).2
  | GetBalance u => (CreditService.getCreditBalance u db).2
  end.

Definition run (ops : list LedgerOp) (db : Prisma.Db) : Prisma.Db :=
  foldl step db ops.

(** A result stripped of its warnings. *)
Definition withoutWarnings (r : W3C.ValidationResult) : W3C.ValidationResult :=
  {| W3C.url := W3C.url r; W3C.isValid := W3C.isValid r;
     W3C.errors := W3C.errors r; W3C.warnings := [];
     W3C.summary := W3C.summary r |}.

(** The counter of [severityBreakdown] kept for a severity. *)
Definition counter (sev : W3C.Severity) (b : W3C.Breakdown.t) : Z :=
  match sev with
  | W3C.critical => W3C.Breakdown.critical b
  | W3C.high => W3C.Breakdown.high b
  | W3C.medium => W3C.Breakdown.medium b
  | W3C.low => W3C.Breakdown.low b
  end.

(** The percentage [100 * valid / total] rounded to the nearest integer in
    exact arithmetic, a tie going up. *)
Definition roundedPercentage (valid total : Z) : Z :=
  (200 * valid + total) `div` (2 * total).

(** ** Hoare triples for [M]

    [triple P m Q E]: run from a state satisfying [P], the computation [m]
    returns a value and a state related by [Q], or throws an error in a state
    related by [E]. *)
Definition triple {S A} (P : S → Prop) (m : M S A)
    (Q : A → S → Prop) (E : Error → S → Prop) : Prop :=
  ∀ s, P s →
    match m s with
    | (Ok a, s') => Q a s'
    | (Throw e, s') => E e s'
    end.

(** A step of the database that leaves the scans and their results alone. *)
Definition sameScans (db db' : Prisma.Db) : Prop :=
  Prisma.scan db' = Prisma.scan db ∧
  Prisma.scanResult db' = Prisma.scanResult db ∧
  ∀ id, Prisma.statusHistory id db' = Prisma.statusHistory id db.

(** The status of a scan is terminal. *)
Definition terminal (s : Prisma.ScanStatus) : bool :=
  match s with
  | Prisma.success | Prisma.failed => true
  | Prisma.pending | Prisma.processing => false
  end.

(** Every persisted result is consistent. *)
Definition consistentRows (w : ScanQueue.World) : Prop :=
  Forall consistentRow (Prisma.scanResult (ScanQueue.db w)).

(** The scan of a job exists, has been given the statuses [h] and, when
    [current] is known, has that status now. *)
Definition tracked (job : ScanQueue.Job.data) (h : list Prisma.ScanStatus)
    (current : option Prisma.ScanStatus) (w : ScanQueue.World) : Prop :=
  ∃ s, Prisma.scan (ScanQueue.db w) !! ScanQueue.Job.scanId job = Some s ∧
       (∀ st, current = Some st → Prisma.Scan.status s = st) ∧
       Prisma.statusHistory (ScanQueue.Job.scanId job) (ScanQueue.db w) = h.

(** The scan of a job exists and, when [t] is known, has that URL count;
    its user holds [b] credits; the amounts [d] have been taken from that
    user and the amounts [i] given to that user so far. *)
Definition charged (job : ScanQueue.Job.data) (d i : list Z) (b : Z)
    (t : option Z) (w : ScanQueue.World) : Prop :=
  ∃ s, Prisma.scan (ScanQueue.db w) !! ScanQueue.Job.scanId job = Some s ∧
       (∀ n, t = Some n → Prisma.Scan.totalUrls s = Some n) ∧
       Prisma.credit (ScanQueue.db w) !! ScanQueue.Job.userId job = Some b ∧
       Prisma.decrements (ScanQueue.Job.userId job) (Prisma.writes (ScanQueue.db w)) = d ∧
       Prisma.increments (ScanQueue.Job.userId job) (Prisma.writes (ScanQueue.db w)) = i.

(** The messages of the checker that become errors, and those that become
    warnings. *)
Definition isErrorMessage (m : W3C.Nu.Message) : bool :=
  bool_decide (W3C.Nu.type m = Some "error").

Definition isWarningMessage (m : W3C.Nu.Message) : bool :=
  bool_decide (W3C.Nu.type m = Some "info")
  && bool_decide (W3C.Nu.subType m = Some "warning").

Definition allWarnings (results : list W3C.ValidationResult) : list W3C.Message :=
  concat (map W3C.warnings results).

(** The key a message is tallied under in [errorTypes] and [warningTypes]. *)
Definition typeKey (m : W3C.Message) : string :=
  Js.orString (Some (W3C.type m)) "unknown".

(** The number of messages tallied under a key. *)
Definition tallyOf (key : string) (ms : list W3C.Message) : Z :=
  Z.of_nat (length (filter (λ m, typeKey m = key) ms)).

(** A text followed by [n] times the character [1]. *)
Definition followedByOnes (text : string) (n : nat) : string :=
  Nat.iter n (λ s, s +:+ "1") text.

(** The entry of the tally for a key.  There is none when no message has
    the key.  For a key that a plain object does not inherit, it is the
    number of the messages with the key.  For a key that every object
    inherits ([constructor], [toString], ...) it is no number but a string,
    what is inherited followed by a [1] for every message; and under
    [__proto__] there is never an entry. *)
Definition tallied (key : string) (ms : list W3C.Message) : option Js.Property :=
  let n := tallyOf key ms in
  if decide (n = 0) then None
  else match Js.inherited key with
       | None => Some (Js.Num n)
       | Some rendered =>
           if decide (key = "__proto__") then None
           else Some (Js.Str (followedByOnes rendered (Z.to_nat n)))
       end.

(** What the batch records for a URL when the callback throws [e] at the
    notification of a success and returns at the notification of a
    failure. *)
Definition recordedWith (fetch : string → W3C.Fetched) (e : Error) (url : string)
  : list W3C.ValidationResult :=
  match W3C.validateUrl fetch url with
  | Ok r => [r; W3C.failedResult url e]
  | Throw e' => [W3C.failedResult url e']
  end.

(** The user a ledger operation is for, and whether the operation returns
    (rather than throws) from a database. *)
Definition userOf (op : LedgerOp) : Z :=
  match op with
  | Deduct u _ _ | Refund u _ _ _ | Add u _ _ | CheckSufficient u _ | GetBalance u => u
  end.

Definition succeeds (db : Prisma.Db) (op : LedgerOp) : bool :=
  match op with
  | Deduct u a reason => isOk (CreditService.deductCredits u a reason db).1
  | Refund u a reason related => isOk (CreditService.refundCredits u a reason related db).1
  | Add u a reason => isOk (CreditService.addCredits u a reason db).1
  | CheckSufficient u required => isOk (CreditService.checkSufficientCredits u required db).1
  | GetBalance u => isOk (CreditService.getCreditBalance u db).1
  end.

(** ** What a job may touch

    The row of a scan before and after: the row is neither created nor
    deleted, and it keeps its owner and its URL. *)
Definition keepsIdentity (before after : option Prisma.Scan.t) : Prop :=
  match before, after with
  | Some s, Some s' =>
      Prisma.Scan.userId s' = Prisma.Scan.userId s ∧
      Prisma.Scan.sitemapUrl s' = Prisma.Scan.sitemapUrl s
  | None, None => True
  | _, _ => False
  end.

(** From [d0] to [d] nothing changed but the row of the scan [scanId], the
    credit row of the user [userId] and the results, which gained rows of
    that scan. *)
Definition dbTouchedOnly (scanId userId : Z) (d0 d : Prisma.Db) : Prop :=
  Prisma.nextScanId d = Prisma.nextScanId d0 ∧
  (∀ id, id ≠ scanId → Prisma.scan d !! id = Prisma.scan d0 !! id) ∧
  keepsIdentity (Prisma.scan d0 !! scanId) (Prisma.scan d !! scanId) ∧
  (∀ u, u ≠ userId → Prisma.credit d !! u = Prisma.credit d0 !! u) ∧
  ∃ rows, Prisma.scanResult d = Prisma.scanResult d0 ++ rows ∧
          Forall (λ r, Prisma.ScanResult.scanId r = scanId) rows.

(** The same for the world of a job: the queue is as it was, and the
    progress values added are those of the job. *)
Definition touchedOnly (job : ScanQueue.Job.data) (w0 w : ScanQueue.World) : Prop :=
  ScanQueue.queue w = ScanQueue.queue w0 ∧
  dbTouchedOnly (ScanQueue.Job.scanId job) (ScanQueue.Job.userId job)
    (ScanQueue.db w0) (ScanQueue.db w) ∧
  ∃ pr, ScanQueue.progress w = ScanQueue.progress w0 ++ pr ∧
        Forall (λ p, p.1 = ScanQueue.Job.scanId job) pr.

(** ** The state a run has reached

    What a run of a job has written so far: the statuses [h] given to the
    scan, the balance [b] of the user, the amounts [d] taken from and [i]
    given to the user, and the stored results [rows]. *)
Definition entered (job : ScanQueue.Job.data) (h : list Prisma.ScanStatus) (b : Z)
    (d i : list Z) (rows : list Prisma.ScanResult.t) (w : ScanQueue.World) : Prop :=
  Prisma.statusHistory (ScanQueue.Job.scanId job) (ScanQueue.db w) = h ∧
  balance (ScanQueue.db w) (ScanQueue.Job.userId job) = b ∧
  Prisma.decrements (ScanQueue.Job.userId job) (Prisma.writes (ScanQueue.db w)) = d ∧
  Prisma.increments (ScanQueue.Job.userId job) (Prisma.writes (ScanQueue.db w)) = i ∧
  Prisma.scanResult (ScanQueue.db w) = rows.

(** The same once the scan is known to exist, with what is known of its
    status, its URL count and its time of completion. *)
Definition reached (job : ScanQueue.Job.data) (h : list Prisma.ScanStatus)
    (current : option Prisma.ScanStatus) (t finished : option Z) (b : Z)
    (d i : list Z) (rows : list Prisma.ScanResult.t) (w : ScanQueue.World) : Prop :=
  (∃ s, Prisma.scan (ScanQueue.db w) !! ScanQueue.Job.scanId job = Some s ∧
        (∀ st, current = Some st → Prisma.Scan.status s = st) ∧
        (∀ n, t = Some n → Prisma.Scan.totalUrls s = Some n) ∧
        (∀ f, finished = Some f → Prisma.Scan.finishedAt s = Some f)) ∧
  entered job h b d i rows w.

(** The URLs of a batch whose validation throws. *)
Definition unreachableUrls (fetch : string → W3C.Fetched) (urls : list string)
  : list string :=
  filter (λ url, isOk (W3C.validateUrl fetch url) = false) urls.

(** The calls of the [try] block that follow the deduction. *)
Definition afterDeduction : list ScanQueue.Call :=
  [ScanQueue.Progress30; ScanQueue.Progress90; ScanQueue.CreateResults;
   ScanQueue.UpdateSuccess; ScanQueue.Progress100].

(** Every character of a string passes a test. *)
Fixpoint allChars (test : Ascii.ascii → bool) (s : string) : bool :=
  match s with
  | String c s' => test c && allChars test s'
  | EmptyString => true
  end.

(** A string does not begin with white space. *)
Definition startsClean (s : string) : bool :=
  match s with
  | String c _ => negb (Js.isWhiteSpace c)
  | EmptyString => true
  end.

(** A scan as it is when it has just been asked for: pending, with a URL
    count of zero. *)
Definition newScan (userId : Z) (sitemapUrl : string) : Prisma.Scan.t :=
  {| Prisma.Scan.userId := userId; Prisma.Scan.sitemapUrl := sitemapUrl;
     Prisma.Scan.status := Prisma.pending; Prisma.Scan.totalUrls := Some 0;
     Prisma.Scan.finishedAt := None; Prisma.Scan.errorMsg := None |}.

(** The URL count a scan contributes to [_sum.totalUrls]. *)
Definition urlsOf (s : Prisma.Scan.t) : Z := default 0 (Prisma.Scan.totalUrls s).

(** The scans of a user that have a status. *)
Definition withStatus (status : Prisma.ScanStatus) (userId : Z) (db : Prisma.Db)
  : list Prisma.Scan.t :=
  filter (λ s, Prisma.Scan.status s = status) (Prisma.scansOf userId db).

End Spec.

(* ===================================================================== *)
(** * Concrete inputs                                                     *)
(* ===================================================================== *)

Module Scenario.
Import Prisma ScanQueue.

(** A stand-in for the platform's URL parser, enough for the sample
    inputs: it knows three schemes and reports one host. *)
Definition sampleURL (s : string) : option Validation.URL :=
  let parsed (protocol : string) :=
    Some {| Validation.protocol := protocol;
            Validation.hostname := "example.com";
            Validation.href := s |} in
  if Js.startsWith "https://" s then parsed "https:"
  else if Js.startsWith "http://" s then parsed "http:"
  else if Js.startsWith "ftp://" s then parsed "ftp:"
  else None.

Definition entry (s : string) : Sitemap.Entry :=
  {| Sitemap.loc := Some [Sitemap.Text s] |}.

Definition five : list string :=
  ["https://example.com/1"; "https://example.com/2"; "https://example.com/3";
   "https://example.com/4"; "https://example.com/5"].

(** Seven entries: a page listed three times (once with white space
    around it), a second page, a relative path, an FTP address and an entry
    without location. *)
Definition untidy : Sitemap.ParsedXml :=
  {| Sitemap.urlset :=
       Some {| Sitemap.url :=
                 Some (Sitemap.Many
                         [entry "https://example.com/a";
                          entry "  https://example.com/a
";
                          entry "/relative/path";
                          entry "http://example.com/b";
                          entry "ftp://example.com/c";
                          {| Sitemap.loc := None |};
                          entry "https://example.com/a"]) |};
     Sitemap.sitemapindex := None |}.

(** Three entries: the location of the second carries an attribute. *)
Definition attributed : Sitemap.ParsedXml :=
  {| Sitemap.urlset :=
       Some {| Sitemap.url :=
                 Some (Sitemap.Many
                         [entry "https://example.com/a";
                          {| Sitemap.loc := Some [Sitemap.Element] |};
                          entry "https://example.com/b"]) |};
     Sitemap.sitemapindex := None |}.

Definition xml (locs : list string) : Sitemap.ParsedXml :=
  {| Sitemap.urlset := Some {| Sitemap.url := Some (Sitemap.Many (map entry locs)) |};
     Sitemap.sitemapindex := None |}.

(** The validator's answer for a page without messages. *)
Definition clean : W3C.Fetched :=
  W3C.Response true 200 "OK" (W3C.Json {| W3C.Nu.messages := Some [] |}).

(** A validator that cannot be reached for page 3. *)
Definition flaky (url : string) : W3C.Fetched :=
  if decide (url = "https://example.com/3") then W3C.NetworkError "socket hang up"
  else clean.

Definition noFaults : Call → option string := λ _, None.

(** The one call [c] fails, for [reason]. *)
Definition faultAt (c : Call) (reason : string) : Call → option string :=
  λ c', if decide (c' = c) then Some reason else None.

(** Both the insertion of the results and the refund fail. *)
Definition databaseDown : Call → option string :=
  λ c, if decide (c = CreateResults) then Some "Connection terminated unexpectedly"
       else if decide (c = RefundCredits) then Some "Connection terminated unexpectedly"
       else None.

Definition env (locs : list string) (faults : Call → option string) : Env :=
  {| parseURL := sampleURL;
     maxSitemapUrls := 10000;
     sitemapFetch := λ _, Sitemap.Response true 200 "OK" "<urlset/>";
     parseString := λ _, Sitemap.Xml (xml locs);
     w3cFetch := λ _, clean;
     now := 1000;
     faults := faults |}.

(** The environment of an attempt that cannot fetch the sitemap. *)
Definition unreachable : Env :=
  {| parseURL := sampleURL;
     maxSitemapUrls := 10000;
     sitemapFetch := λ _, Sitemap.Response false 404 "Not Found" "";
     parseString := λ _, Sitemap.XmlError "Unexpected end";
     w3cFetch := λ _, clean;
     now := 900;
     faults := noFaults |}.

Definition job : Job.data :=
  {| Job.scanId := 1; Job.userId := 7;
     Job.sitemapUrl := "https://example.com/sitemap.xml" |}.

(** The world before user 7, holding [balance] credits, asks for a scan. *)
Definition signedUp (balance : Z) : World :=
  {| db := {| scan := ∅; credit := {[ 7 := balance ]}; scanResult := [];
              nextScanId := 1; writes := [] |};
     queue := [];
     progress := [] |}.

(** The world [createScan] leaves for user 7 holding [balance] credits. *)
Definition start (balance : Z) : World :=
  {| db := {| scan := {[ 1 := {| Scan.userId := 7;
                                  Scan.sitemapUrl := "https://example.com/sitemap.xml";
                                  Scan.status := pending;
                                  Scan.totalUrls := Some 0;
                                  Scan.finishedAt := None;
                                  Scan.errorMsg := None |} ]};
              credit := {[ 7 := balance ]};
              scanResult := [];
              nextScanId := 2;
              writes := [ScanCreated 1 pending] |};
     queue := [job];
     progress := [] |}.

(** A database with the balance of user 7 only, or with no balance. *)
Definition ledger (balance : option Z) : Db :=
  {| scan := ∅;
     credit := match balance with Some b => {[ 7 := b ]} | None => ∅ end;
     scanResult := []; nextScanId := 1; writes := [] |}.

Definition message (severity : W3C.Severity) : W3C.Message :=
  {| W3C.type := "error"; W3C.message := "Stray end tag.";
     W3C.line := Some 3; W3C.column := Some 9; W3C.extract := None;
     W3C.severity := Some severity |}.

Definition validPage : W3C.ValidationResult :=
  {| W3C.url := "https://example.com/ok"; W3C.isValid := true;
     W3C.errors := []; W3C.warnings := [];
     W3C.summary := {| W3C.errorCount := 0; W3C.warningCount := 0 |} |}.

Definition invalidPage : W3C.ValidationResult :=
  {| W3C.url := "https://example.com/broken"; W3C.isValid := false;
     W3C.errors := [message W3C.high]; W3C.warnings := [message W3C.medium];
     W3C.summary := {| W3C.errorCount := 1; W3C.warningCount := 1 |} |}.

(** Forty pages of which twenty-three are valid. *)
Definition forty : list W3C.ValidationResult :=
  replicate 23 validPage ++ replicate 17 invalidPage.

End Scenario.

(* ===================================================================== *)
(** * The batch validator                                                 *)
(* ===================================================================== *)

Section BatchValidator.

Variable fetch : string → W3C.Fetched.
Variable progressCallback : option (W3C.Progress → Result unit).

(** The callback returns normally, as the worker's does. *)
Hypothesis callback_returns :
  ∀ f p, progressCallback = Some f → f p = Ok tt.

Lemma notify_returns (p : W3C.Progress) (st : W3C.Loop) :
  W3C.notify progressCallback p st =
    (Ok tt, {| W3C.results := W3C.results st;
               W3C.calls := W3C.calls st ++
                 match progressCallback with Some _ => [p] | None => [] end |}).
Proof.
  unfold W3C.notify. destruct progressCallback as [f|] eqn:Hcb.
  - unfold mbind, M_bind, modify, liftResult. simpl.
    by rewrite (callback_returns f p eq_refl).
  - destruct st. by rewrite app_nil_r.
Qed.

Lemma iteration_returns (n i : Z) (url : string) (st : W3C.Loop) :
  W3C.iteration fetch progressCallback n i url st =
    (Ok tt, {| W3C.results := W3C.results st ++ [Spec.resultFor fetch url];
               W3C.calls := W3C.calls st ++
                 match progressCallback with
                 | Some _ => [Spec.progressFor fetch n i url]
                 | None => []
                 end |}).
Proof.
  unfold W3C.iteration, tryCatch, mbind, M_bind, liftResult, W3C.pushResult, modify.
  unfold Spec.progressFor, Spec.resultFor.
  destruct (W3C.validateUrl fetch url) as [r|e]; rewrite notify_returns; done.
Qed.

Lemma iterations_return (n : Z) (urls : list string) :
  ∀ (i : Z) (st : W3C.Loop),
    W3C.iterations fetch progressCallback n i urls st =
      (Ok tt, {| W3C.results := W3C.results st ++ map (Spec.resultFor fetch) urls;
                 W3C.calls := W3C.calls st ++
                   match progressCallback with
                   | Some _ => Spec.progressFrom fetch n i urls
                   | None => []
                   end |}).
Proof.
  induction urls as [|url rest IH]; intros i st; simpl.
  - destruct st, progressCallback; by rewrite !app_nil_r.
  - unfold mbind, M_bind. rewrite iteration_returns, IH. simpl.
    f_equal. f_equal.
    + by rewrite <- app_assoc.
    + destruct progressCallback; by rewrite <- app_assoc.
Qed.

Lemma validateUrls_returns (urls : list string) :
  W3C.validateUrls fetch progressCallback urls =
    (Ok (map (Spec.resultFor fetch) urls),
     match progressCallback with
     | Some _ => Spec.progressFrom fetch (Z.of_nat (length urls)) 0 urls
     | None => []
     end).
Proof. unfold W3C.validateUrls. by rewrite iterations_return. Qed.

End BatchValidator.

Lemma progressFrom_length fetch n i urls :
  length (Spec.progressFrom fetch n i urls) = length urls.
Proof. revert i. induction urls as [|u rest IH]; intros i; simpl; [done | by rewrite IH]. Qed.

Lemma progressFrom_lookup fetch n urls :
  ∀ i (k : nat) url,
    urls !! k = Some url →
    Spec.progressFrom fetch n i urls !! k = Some (Spec.progressFor fetch n (i + Z.of_nat k) url).
Proof.
  induction urls as [|u rest IH]; intros i k url Hk; [done|].
  destruct k as [|k]; simpl in *.
  - inversion Hk; subst. by rewrite Z.add_0_r.
  - rewrite (IH (i + 1) k url Hk). do 2 f_equal. lia.
Qed.

Lemma resultFor_url fetch url : W3C.url (Spec.resultFor fetch url) = url.
Proof.
  unfold Spec.resultFor, W3C.validateUrl.
  destruct (fetch url) as [reason | ok status statusText body]; [done|].
  destruct ok; [|done]. destruct body as [reason | | value]; [done..|]. simpl.
  unfold W3C.processW3CResult. by destruct (W3C.Nu.messages value) as [msgs|];
    [destruct (W3C.sortMessages msgs [] [])|].
Qed.

Lemma failedResult_shape url e :
  W3C.isValid (W3C.failedResult url e) = false ∧
  ∃ m, W3C.errors (W3C.failedResult url e) = [m] ∧
       W3C.severity m = Some W3C.critical ∧
       W3C.message m = errMessage e.
Proof. split; [done|]. eexists. by split. Qed.

(** C7 (as the code has it).  Run without a callback, or with a callback
    that returns normally, as the worker's does, the batch validator returns
    (it does not throw), with exactly one result per input URL in the order
    of the input; the result at a URL for which the client throws is the
    synthetic failed result ([isValid] false, one error of severity critical
    carrying the client's message), and the following URLs are still
    processed; the callback, when one is given, is called exactly once per
    URL, in order, with the count completed so far. *)
Theorem validateUrls_one_result_per_url
    (fetch : string → W3C.Fetched)
    (progressCallback : option (W3C.Progress → Result unit))
    (urls : list string) :
  (∀ f p, progressCallback = Some f → f p = Ok tt) →
  ∃ results calls,
    W3C.validateUrls fetch progressCallback urls = (Ok results, calls) ∧
    length results = length urls ∧
    map W3C.url results = urls ∧
    (∀ (i : nat) url, urls !! i = Some url →
       match W3C.validateUrl fetch url with
       | Ok r => results !! i = Some r
       | Throw e =>
           results !! i = Some (W3C.failedResult url e) ∧
           W3C.isValid (W3C.failedResult url e) = false ∧
           ∃ m, W3C.errors (W3C.failedResult url e) = [m] ∧
                W3C.severity m = Some W3C.critical ∧
                W3C.message m = errMessage e
       end) ∧
    match progressCallback with
    | None => calls = []
    | Some _ =>
        length calls = length urls ∧
        ∀ (i : nat) url, urls !! i = Some url →
          ∃ p, calls !! i = Some p ∧
               W3C.completed p = Z.of_nat i + 1 ∧
               W3C.total p = Z.of_nat (length urls) ∧
               W3C.current p = url ∧
               results !! i = Some (W3C.result p)
    end.
Proof.
  intros Hcb. eexists _, _. split; [by apply validateUrls_returns|].
  split; [by rewrite length_map|]. split.
  { rewrite <- list_fmap_compose. rewrite <- (list_fmap_id urls) at 2.
    apply list_fmap_ext. intros _ url _. apply resultFor_url. }
  split.
  - intros i url Hi. rewrite list_lookup_fmap, Hi. simpl.
    unfold Spec.resultFor. destruct (W3C.validateUrl fetch url) as [r|e]; [done|].
    split; [done|]. exact (failedResult_shape url e).
  - destruct progressCallback as [f|]; [|done].
    split; [apply progressFrom_length|].
    intros i url Hi. eexists. split; [by apply progressFrom_lookup|].
    simpl. rewrite list_lookup_fmap, Hi. repeat split; lia.
Qed.

Lemma validateUrls_one_result_per_url_witness :
  (∀ f p, Some (λ _ : W3C.Progress, Ok tt) = Some f → f p = Ok tt) ∧
  ∃ results calls,
    W3C.validateUrls Scenario.flaky (Some (λ _, Ok tt)) Scenario.five
      = (Ok results, calls) ∧
    length results = 5%nat ∧
    length calls = 5%nat ∧
    (W3C.isValid <$> results) = [true; true; false; true; true].
Proof.
  assert (Hcb : ∀ f p, Some (λ _ : W3C.Progress, Ok tt) = Some f → f p = Ok tt).
  { intros f p Hf. injection Hf as <-. reflexivity. }
  split; [exact Hcb|].
  destruct (validateUrls_one_result_per_url Scenario.flaky (Some (λ _, Ok tt))
              Scenario.five Hcb) as (results & calls & Hrun & Hlen & _ & _ & Hcalls & _).
  exists results, calls. split; [exact Hrun|]. split; [exact Hlen|].
  split; [exact Hcalls|].
  vm_compute in Hrun. injection Hrun as <- _. reflexivity.
Defined.

(** C7, where the claim fails: a callback that throws.  The validation of
    the first URL succeeds and its result is recorded; the callback is called
    inside the [try] block, and what it throws is taken for a failure of the
    validation: a failed result is recorded for the same URL and the callback
    is called again, from the [catch] block.  What it throws there escapes:
    the batch fails as a whole, having called the callback twice for the
    first URL and never for the second.  With a callback that throws only
    when it is told of a success, the batch returns two results for the one
    URL it was given. *)
Lemma validateUrls_fails_with_callback :
  let fetch := λ _ : string, Scenario.clean in
  let throws := λ _ : W3C.Progress, Throw (newError "progress store is down") in
  let rejects := λ p : W3C.Progress,
    match W3C.error p with
    | None => Throw (newError "progress store is down")
    | Some _ => Ok tt
    end in
  let failing :=
    W3C.validateUrls fetch (Some throws)
      ["https://example.com/1"; "https://example.com/2"] in
  let doubled := W3C.validateUrls fetch (Some rejects) ["https://example.com/1"] in
  isOk (W3C.validateUrl fetch "https://example.com/1") = true ∧
  failing.1 = Throw (newError "progress store is down") ∧
  W3C.current <$> failing.2 = ["https://example.com/1"; "https://example.com/1"] ∧
  doubled.1 =
    Ok [Spec.resultFor fetch "https://example.com/1";
        W3C.failedResult "https://example.com/1" (newError "progress store is down")].
Proof. repeat split; reflexivity. Qed.

(* ===================================================================== *)
(** * Validity of a result                                                *)
(* ===================================================================== *)

Lemma processW3CResult_consistent w url :
  Spec.consistent (W3C.processW3CResult w url).
Proof.
  unfold Spec.consistent, W3C.processW3CResult.
  destruct (match W3C.Nu.messages w with
            | Some msgs => W3C.sortMessages msgs [] []
            | None => ([], [])
            end) as [errors warnings]; simpl.
  by destruct errors.
Qed.

Lemma validateUrl_consistent fetch url r :
  W3C.validateUrl fetch url = Ok r → Spec.consistent r.
Proof.
  unfold W3C.validateUrl.
  destruct (fetch url) as [reason | ok status statusText body]; [done|].
  destruct ok; [|done]. destruct body as [reason | | value]; [done..|]. simpl.
  intros [= <-]. apply processW3CResult_consistent.
Qed.

Lemma iteration_consistent fetch cb n i url st :
  Forall Spec.consistent (W3C.results st) →
  Forall Spec.consistent (W3C.results (W3C.iteration fetch cb n i url st).2).
Proof.
  intros Hst.
  unfold W3C.iteration, tryCatch, mbind, M_bind, liftResult, W3C.pushResult,
    W3C.notify, modify.
  destruct (W3C.validateUrl fetch url) as [r|e] eqn:Hr; simpl.
  - pose proof (validateUrl_consistent _ _ _ Hr) as Hc.
    destruct cb as [f|]; simpl; repeat case_match; simplify_eq/=;
      repeat (apply Forall_app; split); auto; by repeat constructor.
  - destruct cb as [f|]; simpl; repeat case_match; simplify_eq/=;
      repeat (apply Forall_app; split); auto; by repeat constructor.
Qed.

Lemma iterations_consistent fetch cb n urls :
  ∀ i st,
    Forall Spec.consistent (W3C.results st) →
    Forall Spec.consistent (W3C.results (W3C.iterations fetch cb n i urls st).2).
Proof.
  induction urls as [|url rest IH]; intros i st Hst; simpl; [done|].
  unfold mbind, M_bind.
  pose proof (iteration_consistent fetch cb n i url st Hst) as Hstep.
  destruct (W3C.iteration fetch cb n i url st) as [[[]|e] st']; simpl in *; auto.
Qed.

Lemma validateUrls_consistent fetch cb urls results calls :
  W3C.validateUrls fetch cb urls = (Ok results, calls) →
  Forall Spec.consistent results.
Proof.
  unfold W3C.validateUrls.
  pose proof (iterations_consistent fetch cb (Z.of_nat (length urls)) urls 0
                {| W3C.results := []; W3C.calls := [] |} (Forall_nil_2 _)) as H.
  destruct (W3C.iterations _ _ _ _ _ _) as [[[]|e] st]; [|done].
  by intros [= <- _].
Qed.

Lemma toScanResult_consistent job r :
  Spec.consistent r → Spec.consistentRow (ScanQueue.toScanResult job r).
Proof. done. Qed.

(* ===================================================================== *)
(** * The aggregate summary                                               *)
(* ===================================================================== *)

Section SummaryFacts.
Import W3C.

Lemma countOf_nil s : Spec.countOf s [] = 0.
Proof. done. Qed.

Lemma countOf_cons s m errs :
  Spec.countOf s (m :: errs) =
    (if decide (Spec.severityOf m = s) then 1 else 0) + Spec.countOf s errs.
Proof.
  unfold Spec.countOf. rewrite filter_cons.
  destruct (decide (Spec.severityOf m = s)); simpl; lia.
Qed.

Lemma countOf_app s errs1 errs2 :
  Spec.countOf s (errs1 ++ errs2) = Spec.countOf s errs1 + Spec.countOf s errs2.
Proof. unfold Spec.countOf. rewrite filter_app, length_app. lia. Qed.

(** Every error is counted under exactly one of the four severities. *)
Lemma countOf_total errs :
  Spec.countOf critical errs + Spec.countOf high errs
  + Spec.countOf medium errs + Spec.countOf low errs = Z.of_nat (length errs).
Proof.
  induction errs as [|m errs IH]; [done|].
  rewrite !countOf_cons. simpl length.
  destruct (Spec.severityOf m); repeat case_decide; try congruence; lia.
Qed.

(** The fields [countError] reads and writes, after the loop over the
    errors of one result. *)
Lemma countErrors_fields errs :
  ∀ s,
    let s' := foldl countError s errs in
    Summary.total s' = Summary.total s ∧
    Summary.valid s' = Summary.valid s ∧
    Summary.invalid s' = Summary.invalid s ∧
    Summary.totalErrors s' = Summary.totalErrors s ∧
    Summary.validPercentage s' = Summary.validPercentage s ∧
    ∀ sev,
      Spec.counter sev (Summary.severityBreakdown s') =
      Spec.counter sev (Summary.severityBreakdown s) + Spec.countOf sev errs.
Proof.
  induction errs as [|m errs IH]; intros s; simpl.
  - repeat split; try done. intros sev. rewrite countOf_nil. lia.
  - destruct (IH (countError s m)) as (-> & -> & -> & -> & -> & Hsev).
    repeat split; try done. intros sev. rewrite Hsev, countOf_cons.
    unfold countError, Spec.severityOf; simpl.
    destruct (default medium (severity m)), sev; simpl;
      try case_decide; try congruence; lia.
Qed.

Lemma countWarnings_fields ws :
  ∀ s,
    let s' := foldl countWarning s ws in
    Summary.total s' = Summary.total s ∧
    Summary.valid s' = Summary.valid s ∧
    Summary.invalid s' = Summary.invalid s ∧
    Summary.totalErrors s' = Summary.totalErrors s ∧
    Summary.validPercentage s' = Summary.validPercentage s ∧
    Summary.severityBreakdown s' = Summary.severityBreakdown s.
Proof.
  induction ws as [|m ws IH]; intros s; simpl; [done|].
  by destruct (IH (countWarning s m)) as (-> & -> & -> & -> & -> & ->).
Qed.

Lemma countResult_fields s r :
  let s' := countResult s r in
  Summary.total s' = Summary.total s ∧
  Summary.valid s' = Summary.valid s + (if isValid r then 1 else 0) ∧
  Summary.invalid s' = Summary.invalid s + (if isValid r then 0 else 1) ∧
  Summary.totalErrors s' = Summary.totalErrors s + Z.of_nat (length (errors r)) ∧
  ∀ sev,
    Spec.counter sev (Summary.severityBreakdown s') =
    Spec.counter sev (Summary.severityBreakdown s) + Spec.countOf sev (errors r).
Proof.
  unfold countResult.
  destruct (countWarnings_fields (warnings r)
              (foldl countError (countValidity s r) (errors r)))
    as (-> & -> & -> & -> & _ & ->).
  destruct (countErrors_fields (errors r) (countValidity s r))
    as (-> & -> & -> & -> & _ & Hsev).
  simpl. repeat split; try (destruct (isValid r); lia). apply Hsev.
Qed.

Lemma countResults_fields results :
  ∀ s,
    let s' := foldl countResult s results in
    Summary.total s' = Summary.total s ∧
    Summary.valid s' =
      Summary.valid s + Z.of_nat (length (filter (λ r, isValid r = true) results)) ∧
    Summary.invalid s' =
      Summary.invalid s + Z.of_nat (length (filter (λ r, isValid r = false) results)) ∧
    Summary.totalErrors s' =
      Summary.totalErrors s + Z.of_nat (length (Spec.allErrors results)) ∧
    ∀ sev,
      Spec.counter sev (Summary.severityBreakdown s') =
      Spec.counter sev (Summary.severityBreakdown s)
      + Spec.countOf sev (Spec.allErrors results).
Proof.
  induction results as [|r results IH]; intros s; simpl.
  - repeat split; try lia. intros sev. rewrite countOf_nil. lia.
  - destruct (IH (countResult s r)) as (-> & -> & -> & -> & Hsev).
    destruct (countResult_fields s r) as (-> & -> & -> & -> & Hsev').
    unfold Spec.allErrors in *. simpl. rewrite !filter_cons, length_app.
    repeat split.
    + destruct (isValid r); repeat case_decide; try congruence; simpl; lia.
    + destruct (isValid r); repeat case_decide; try congruence; simpl; lia.
    + lia.
    + intros sev. rewrite Hsev, Hsev', countOf_app. lia.
Qed.

End SummaryFacts.


Lemma valid_invalid_partition (results : list W3C.ValidationResult) :
  (length (filter (λ r, W3C.isValid r = true) results)
   + length (filter (λ r, W3C.isValid r = false) results))%nat = length results.
Proof.
  induction results as [|r results IH]; [done|].
  rewrite !filter_cons. destruct (W3C.isValid r);
    repeat case_decide; try congruence; simpl; lia.
Qed.

Lemma allErrors_withoutWarnings results :
  Spec.allErrors (map Spec.withoutWarnings results) = Spec.allErrors results.
Proof.
  unfold Spec.allErrors. induction results as [|r results IH]; [done|].
  simpl. by rewrite IH.
Qed.

Lemma breakdown_ext (b1 b2 : W3C.Breakdown.t) :
  (∀ sev, Spec.counter sev b1 = Spec.counter sev b2) → b1 = b2.
Proof.
  intros H. destruct b1, b2.
  pose proof (H W3C.critical). pose proof (H W3C.high).
  pose proof (H W3C.medium). pose proof (H W3C.low). simpl in *. congruence.
Qed.

Lemma summary_breakdown results sev :
  Spec.counter sev (W3C.Summary.severityBreakdown (W3C.generateValidationSummary results))
  = Spec.countOf sev (Spec.allErrors results).
Proof.
  unfold W3C.generateValidationSummary. simpl.
  match goal with |- context [foldl W3C.countResult ?s0 results] =>
    destruct (countResults_fields results s0) as (_ & _ & _ & _ & Hsev) end.
  rewrite Hsev. by destruct sev.
Qed.

(** C10 (as the code has it).  For every result list the summary has
    [total] equal to the length of the list and [valid + invalid = total];
    [validPercentage] is [0] for the empty list and otherwise [Math.round]
    of the binary64 product [(valid / total) * 100]; each counter of
    [severityBreakdown] is the number of error entries of that severity (an
    entry without severity counting as medium), so the four counters sum to
    [totalErrors], and the warnings of the results have no part in them. *)
Theorem generateValidationSummary_tallies (results : list W3C.ValidationResult) :
  let s := W3C.generateValidationSummary results in
  let b := W3C.Summary.severityBreakdown s in
  W3C.Summary.total s = Z.of_nat (length results) ∧
  W3C.Summary.valid s
    = Z.of_nat (length (filter (λ r, W3C.isValid r = true) results)) ∧
  W3C.Summary.valid s + W3C.Summary.invalid s = W3C.Summary.total s ∧
  W3C.Summary.validPercentage s =
    (if bool_decide (results = []) then Js.Int 0
     else Js.Math_round
            (Js.fmul (Js.fdiv (Js.ofInt (W3C.Summary.valid s))
                              (Js.ofInt (W3C.Summary.total s)))
                     (Js.ofInt 100))) ∧
  W3C.Summary.totalErrors s = Z.of_nat (length (Spec.allErrors results)) ∧
  (∀ sev, Spec.counter sev b = Spec.countOf sev (Spec.allErrors results)) ∧
  W3C.Breakdown.critical b + W3C.Breakdown.high b
    + W3C.Breakdown.medium b + W3C.Breakdown.low b = W3C.Summary.totalErrors s ∧
  W3C.Summary.severityBreakdown
    (W3C.generateValidationSummary (map Spec.withoutWarnings results)) = b.
Proof.
  intros s b.
  assert (Hsev : ∀ sev, Spec.counter sev b = Spec.countOf sev (Spec.allErrors results))
    by (intros sev; apply summary_breakdown).
  pose proof (valid_invalid_partition results) as Hpart.
  subst b s. unfold W3C.generateValidationSummary in *.
  match goal with |- context [foldl W3C.countResult ?s0 results] =>
    destruct (countResults_fields results s0) as (Ht & Hv & Hi & He & _);
    set (f := foldl W3C.countResult s0 results) in *
  end.
  cbn [W3C.Summary.total W3C.Summary.valid W3C.Summary.invalid
       W3C.Summary.totalErrors W3C.Summary.validPercentage
       W3C.Summary.severityBreakdown] in *.
  split; [exact Ht|]. split; [lia|]. split; [lia|]. split.
  { rewrite Ht. destruct results as [|r rest]; [done|].
    rewrite bool_decide_eq_true_2 by (cbn [length]; lia).
    by rewrite bool_decide_eq_false_2. }
  split; [lia|]. split; [exact Hsev|]. split.
  { pose proof (Hsev W3C.critical). pose proof (Hsev W3C.high).
    pose proof (Hsev W3C.medium). pose proof (Hsev W3C.low).
    pose proof (countOf_total (Spec.allErrors results)).
    cbn [Spec.counter] in *. lia. }
  apply breakdown_ext. intros sev. rewrite Hsev.
  pose proof (summary_breakdown (map Spec.withoutWarnings results) sev) as H.
  unfold W3C.generateValidationSummary in H.
  cbn [W3C.Summary.severityBreakdown] in H.
  rewrite H. by rewrite allErrors_withoutWarnings.
Qed.

(** C10, where the claim fails: of forty results twenty-three are valid,
    that is 57.5 percent.  The quotient [23 / 40] is not a binary64 number;
    the product of its nearest double by 100 is the double
    [8092405580431359 * 2^-47], about 57.49999999999999, which is below
    57.5 (twice the mantissa is less than [115 * 2^47]).  [validPercentage]
    is therefore 57, not the rounded percentage 58. *)
Lemma validPercentage_not_rounded_percentage :
  let s := W3C.generateValidationSummary Scenario.forty in
  W3C.Summary.total s = 40 ∧
  W3C.Summary.valid s = 23 ∧
  Js.fmul (Js.fdiv (Js.ofInt 23) (Js.ofInt 40)) (Js.ofInt 100)
    = SpecFloat.S754_finite false 8092405580431359 (-47) ∧
  2 * 8092405580431359 < 115 * 2 ^ 47 ∧
  W3C.Summary.validPercentage s = Js.Int 57 ∧
  Spec.roundedPercentage 23 40 = 58.
Proof. vm_compute. done. Qed.

(* ===================================================================== *)
(** * The credit ledger                                                   *)
(* ===================================================================== *)

Section Ledger.
Import Prisma CreditService.

(** Unfolds the monad, then decides the guards. *)
Ltac run_ledger :=
  unfold getCreditBalance, addCredits, deductCredits, checkSufficientCredits,
    refundCredits, transaction, tryCatch, throw, mbind, M_bind, mret, M_ret,
    credit_findUnique, credit_create, credit_increment, credit_decrement,
    credit_write, gets, record, Spec.balance in *.

Lemma getCreditBalance_run db u :
  getCreditBalance u db =
    (Ok (Spec.balance db u),
     match credit db !! u with
     | Some _ => db
     | None => Spec.withNewAccount u db
     end).
Proof. run_ledger. by destruct (credit db !! u) eqn:E; simpl; rewrite ?E. Qed.

Lemma checkSufficientCredits_run db u required :
  checkSufficientCredits u required db =
    (Ok {| hasSufficient := bool_decide (Spec.balance db u >= required);
           currentAmount := Spec.balance db u;
           requiredAmount := required;
           deficit := if bool_decide (Spec.balance db u >= required) then 0
                      else required - Spec.balance db u |},
     match credit db !! u with
     | Some _ => db
     | None => Spec.withNewAccount u db
     end).
Proof.
  unfold checkSufficientCredits, tryCatch, mbind, M_bind.
  by rewrite getCreditBalance_run.
Qed.

Lemma addCredits_accepted db u a reason :
  0 < a → a ≤ 10000 →
  addCredits u a reason db =
    (Ok {| Added.amount := Spec.balance db u + a; Added.added := a |},
     {| scan := scan db;
        credit := <[u := Spec.balance db u + a]> (credit db);
        scanResult := scanResult db;
        nextScanId := nextScanId db;
        writes := writes db
                  ++ match credit db !! u with
                     | Some _ => []
                     | None => [CreditCreated u]
                     end
                  ++ [CreditIncremented u a] |}).
Proof.
  intros Hpos Hmax. run_ledger.
  rewrite bool_decide_eq_false_2 by lia. rewrite bool_decide_eq_false_2 by lia.
  destruct (credit db !! u) as [b|] eqn:E; simpl; rewrite ?E; simpl.
  - done.
  - rewrite lookup_insert_eq. simpl. rewrite insert_insert_eq.
    by rewrite <- app_assoc.
Qed.

Lemma addCredits_rejected db u a reason :
  a ≤ 0 ∨ 10000 < a →
  ∃ e, addCredits u a reason db = (Throw e, db).
Proof.
  intros Hbad. run_ledger. case_bool_decide; [by eexists|].
  rewrite bool_decide_eq_true_2 by lia. by eexists.
Qed.

Lemma refundCredits_accepted db u a reason related :
  0 < a → a ≤ 10000 →
  refundCredits u a reason related db =
    (Ok {| Added.amount := Spec.balance db u + a; Added.added := a |},
     {| scan := scan db;
        credit := <[u := Spec.balance db u + a]> (credit db);
        scanResult := scanResult db;
        nextScanId := nextScanId db;
        writes := writes db
                  ++ match credit db !! u with
                     | Some _ => []
                     | None => [CreditCreated u]
                     end
                  ++ [CreditIncremented u a] |}).
Proof.
  intros Hpos Hmax. unfold refundCredits, tryCatch.
  by rewrite addCredits_accepted.
Qed.

Lemma refundCredits_rejected db u a reason related :
  a ≤ 0 ∨ 10000 < a →
  refundCredits u a reason related db =
    (Throw (newError "Failed to refund credits"), db).
Proof.
  intros Hbad. unfold refundCredits, tryCatch.
  by destruct (addCredits_rejected db u a ("refund: " +:+ reason) Hbad) as [e ->].
Qed.

Lemma deductCredits_sufficient db u a reason :
  0 < a → a ≤ Spec.balance db u →
  deductCredits u a reason db =
    (Ok {| Deducted.amount := Spec.balance db u - a; Deducted.deducted := a |},
     {| scan := scan db;
        credit := <[u := Spec.balance db u - a]> (credit db);
        scanResult := scanResult db;
        nextScanId := nextScanId db;
        writes := writes db ++ [CreditDecremented u a] |}).
Proof.
  intros Hpos Hle. run_ledger. rewrite bool_decide_eq_false_2 by lia.
  destruct (credit db !! u) as [b|] eqn:E; simpl in *; [|lia].
  rewrite bool_decide_eq_false_2 by lia. simpl. by rewrite E.
Qed.

Lemma deductCredits_insufficient db u a reason :
  0 < a → Spec.balance db u < a →
  ∃ msg,
    deductCredits u a reason db =
      (Throw (mkError (InsufficientCreditsError a (Spec.balance db u)) msg), db).
Proof.
  intros Hpos Hlt. run_ledger. rewrite bool_decide_eq_false_2 by lia.
  destruct (credit db !! u) as [b|] eqn:E; simpl in *.
  - rewrite bool_decide_eq_true_2 by lia. simpl. by eexists.
  - by eexists.
Qed.

Lemma deductCredits_not_positive db u a reason :
  a ≤ 0 →
  deductCredits u a reason db =
    (Throw (newError "Deduction amount must be positive"), db).
Proof. intros Hle. run_ledger. by rewrite bool_decide_eq_true_2 by lia. Qed.

Lemma nonNegative_insert db db' u a :
  Spec.nonNegative db → 0 ≤ a → credit db' = <[u := a]> (credit db) →
  Spec.nonNegative db'.
Proof.
  intros Hdb Ha Hc v b. rewrite Hc, lookup_insert.
  case_decide; [by intros [= <-] | apply Hdb].
Qed.

Lemma balance_nonNegative db u : Spec.nonNegative db → 0 ≤ Spec.balance db u.
Proof.
  intros Hdb. unfold Spec.balance.
  destruct (credit db !! u) as [b|] eqn:E; simpl; [by eapply Hdb | lia].
Qed.

Lemma getCreditBalance_nonNegative db u :
  Spec.nonNegative db → Spec.nonNegative (getCreditBalance u db).2.
Proof.
  intros Hdb. rewrite getCreditBalance_run. simpl.
  destruct (credit db !! u); [done|].
  by apply (nonNegative_insert db _ u 0).
Qed.

Lemma step_nonNegative db op :
  Spec.nonNegative db → Spec.nonNegative (Spec.step db op).
Proof.
  intros Hdb. pose proof (λ u, balance_nonNegative db u Hdb) as Hb.
  destruct op as [u a reason | u a reason related | u a reason | u required | u]; simpl.
  - destruct (decide (a ≤ 0)).
    { by rewrite deductCredits_not_positive. }
    destruct (decide (a ≤ Spec.balance db u)).
    + rewrite deductCredits_sufficient by lia.
      apply (nonNegative_insert db _ u (Spec.balance db u - a)); [done|lia|done].
    + by destruct (deductCredits_insufficient db u a reason) as [msg ->]; [lia..|].
  - destruct (decide (0 < a ∧ a ≤ 10000)) as [[]|].
    + rewrite refundCredits_accepted by lia. specialize (Hb u).
      apply (nonNegative_insert db _ u (Spec.balance db u + a)); [done|lia|done].
    + by rewrite refundCredits_rejected by lia.
  - destruct (decide (0 < a ∧ a ≤ 10000)) as [[]|].
    + rewrite addCredits_accepted by lia. specialize (Hb u).
      apply (nonNegative_insert db _ u (Spec.balance db u + a)); [done|lia|done].
    + by destruct (addCredits_rejected db u a reason) as [e ->]; [lia|].
  - rewrite checkSufficientCredits_run. simpl.
    destruct (credit db !! u); [done|].
    by apply (nonNegative_insert db _ u 0).
  - by apply getCreditBalance_nonNegative.
Qed.

Lemma run_nonNegative ops :
  ∀ db, Spec.nonNegative db → Spec.nonNegative (Spec.run ops db).
Proof.
  unfold Spec.run. induction ops as [|op ops IH]; intros db Hdb; simpl; [done|].
  apply IH. by apply step_nonNegative.
Qed.

(** A call that runs its two statements without another call in between is
    [deductCredits]. *)
Lemma deductSteps_alone db u a reason :
  (stage ← deductStep u a Called; deductStep u a stage) db =
    let '(r, db') := deductCredits u a reason db in (Ok (Settled r), db').
Proof.
  unfold deductStep. run_ledger.
  destruct (bool_decide (a ≤ 0)); [done|]. simpl.
  destruct (credit db !! u) as [available|] eqn:E; simpl; [|done].
  destruct (bool_decide (available < a)); simpl; [done|]. by rewrite E.
Qed.

Lemma advance_called db u a b :
  credit db !! u = Some b → 0 < a ≤ b →
  advance (called u a) db =
    (Ok {| Pending.userId := u; Pending.amount := a; Pending.stage := Checked |}, db).
Proof.
  intros Hb Ha. unfold advance, called, deductStep. run_ledger. simpl.
  rewrite bool_decide_eq_false_2 by lia. rewrite Hb.
  by rewrite bool_decide_eq_false_2 by lia.
Qed.

Lemma advance_checked db u a b :
  credit db !! u = Some b →
  advance {| Pending.userId := u; Pending.amount := a; Pending.stage := Checked |} db =
    (Ok {| Pending.userId := u; Pending.amount := a;
           Pending.stage :=
             Settled (Ok {| Deducted.amount := b - a; Deducted.deducted := a |}) |},
     credit_write u (b - a) (CreditDecremented u a) db).
Proof.
  intros Hb. unfold advance, deductStep. run_ledger. simpl. by rewrite Hb.
Qed.

(** Two deductions for one user, each covered by the balance but not both:
    when both read the balance before either writes, both go through and the
    balance ends below zero. *)
Lemma overlap_overdraws db u a1 a2 b :
  credit db !! u = Some b →
  0 < a1 ≤ b → 0 < a2 ≤ b → b < a1 + a2 →
  ∃ db',
    interleave [true; false; true; false] (called u a1) (called u a2) db =
      (Ok ({| Pending.userId := u; Pending.amount := a1;
              Pending.stage :=
                Settled (Ok {| Deducted.amount := b - a1; Deducted.deducted := a1 |}) |},
           {| Pending.userId := u; Pending.amount := a2;
              Pending.stage :=
                Settled (Ok {| Deducted.amount := b - a1 - a2;
                               Deducted.deducted := a2 |}) |}),
       db') ∧
    credit db' !! u = Some (b - a1 - a2) ∧
    b - a1 - a2 < 0 ∧
    writes db' = writes db ++ [CreditDecremented u a1; CreditDecremented u a2].
Proof.
  intros Hb H1 H2 Hboth.
  set (db1 := credit_write u (b - a1) (CreditDecremented u a1) db).
  assert (Hb1 : credit db1 !! u = Some (b - a1)) by apply lookup_insert_eq.
  exists (credit_write u (b - a1 - a2) (CreditDecremented u a2) db1).
  split.
  { cbn [interleave]. unfold mbind, M_bind, mret, M_ret.
    rewrite (advance_called db u a1 b) by done.
    rewrite (advance_called db u a2 b) by done.
    rewrite (advance_checked db u a1 b) by done. fold db1.
    by rewrite (advance_checked db1 u a2 (b - a1)) by done. }
  split; [apply lookup_insert_eq|]. split; [lia|].
  unfold db1, credit_write, record. simpl. by rewrite <- app_assoc.
Qed.

End Ledger.

Section LedgerClaims.
Import Prisma CreditService.

(** C4 (as the code has it).  A refund goes through [addCredits] and so
    through its guards: for an amount from 1 to 10000 it succeeds and, in one
    transaction, raises the user's balance by the amount (creating the credit
    row first when the user has none) and changes no other balance; for an
    amount above 10000 it fails with "Failed to refund credits" and changes
    nothing. *)
Theorem refundCredits_up_to_ceiling db u a reason related :
  (0 < a → a ≤ 10000 →
   ∃ r db',
     refundCredits u a reason related db = (Ok r, db') ∧
     Added.amount r = Spec.balance db u + a ∧
     Added.added r = a ∧
     Spec.balance db' u = Spec.balance db u + a ∧
     credit db' = <[u := Spec.balance db u + a]> (credit db)) ∧
  (10000 < a →
   refundCredits u a reason related db
     = (Throw (newError "Failed to refund credits"), db)).
Proof.
  split.
  - intros Hpos Hmax. eexists _, _.
    split; [by apply refundCredits_accepted|].
    repeat split. unfold Spec.balance at 1. simpl. by rewrite lookup_insert_eq.
  - intros Hbig. apply refundCredits_rejected. lia.
Qed.

Lemma refundCredits_up_to_ceiling_witness :
  0 < 5 ∧ 5 ≤ 10000 ∧ 10000 < 20000 ∧
  (∃ r db',
     refundCredits 7 5 "scan_failure_1" (Some 1) (Scenario.ledger (Some 2)) = (Ok r, db') ∧
     Spec.balance db' 7 = 7) ∧
  refundCredits 7 20000 "scan_failure_1" (Some 1) (Scenario.ledger (Some 2))
    = (Throw (newError "Failed to refund credits"), Scenario.ledger (Some 2)).
Proof.
  assert (Hpos : 0 < 5) by lia. assert (Hmax : 5 ≤ 10000) by lia.
  assert (Hbig : 10000 < 20000) by lia.
  split; [exact Hpos|]. split; [exact Hmax|]. split; [exact Hbig|]. split.
  - destruct (refundCredits_up_to_ceiling (Scenario.ledger (Some 2)) 7 5
                "scan_failure_1" (Some 1)) as [Hok _].
    destruct (Hok Hpos Hmax) as (r & db' & Hrun & _ & _ & Hbal & _).
    exists r, db'. split; [exact Hrun|]. rewrite Hbal. reflexivity.
  - destruct (refundCredits_up_to_ceiling (Scenario.ledger (Some 2)) 7 20000
                "scan_failure_1" (Some 1)) as [_ Hrefused].
    exact (Hrefused Hbig).
Defined.

(** C4, where the claim fails: a refund of 10001 credits is refused because
    of its size, and the balance stays as it was. *)
Lemma refundCredits_too_large :
  refundCredits 7 10001 "scan_failure_1" (Some 1) (Scenario.ledger (Some 0))
    = (Throw (newError "Failed to refund credits"), Scenario.ledger (Some 0)).
Proof. reflexivity. Qed.

(** C5 (as the code has it).  The check always returns
    [{hasSufficient, currentAmount, requiredAmount, deficit}], where
    [currentAmount] is the balance, [hasSufficient] says that it covers the
    required amount and [deficit] is the shortfall or zero.  It leaves the
    database as it is when the user has a credit row; when the user has
    none, it creates the row with amount zero (the check reads the balance
    through [getCreditBalance]).  It changes no existing amount. *)
Theorem checkSufficientCredits_reads_or_creates db u required :
  ∃ c db',
    checkSufficientCredits u required db = (Ok c, db') ∧
    currentAmount c = Spec.balance db u ∧
    requiredAmount c = required ∧
    hasSufficient c = bool_decide (required ≤ currentAmount c) ∧
    deficit c = (if hasSufficient c then 0 else required - currentAmount c) ∧
    db' = match credit db !! u with
          | Some _ => db
          | None => Spec.withNewAccount u db
          end ∧
    Spec.balance db' u = Spec.balance db u.
Proof.
  eexists _, _. split; [apply checkSufficientCredits_run|]. simpl.
  repeat split.
  - apply bool_decide_ext. lia.
  - unfold Spec.balance. destruct (credit db !! u) as [b|] eqn:E; simpl.
    + by rewrite E.
    + by rewrite lookup_insert_eq.
Qed.

(** C5, where the claim fails: the check for a user without a credit row
    writes that row. *)
Lemma checkSufficientCredits_creates_account :
  let db := Scenario.ledger None in
  let db' := (checkSufficientCredits 7 3 db).2 in
  credit db = ∅ ∧
  credit db' = {[ 7 := 0 ]} ∧
  writes db' = [CreditCreated 7] ∧
  db' ≠ db.
Proof. repeat split; try reflexivity. intros H. discriminate H. Qed.

(** C6, at the failing input.  User 7 holds five credits and two deductions
    of five credits each are under way, as for two scans of five URLs that
    the worker, which runs two jobs at a time, processes together.  Each
    transaction reads the balance, five, and finds it sufficient, before the
    other transaction decrements it: both deductions return, ten credits are
    taken and the balance ends at minus five.  The same two calls one after
    the other take five credits, and the second is refused with
    [InsufficientCreditsError]. *)
Theorem overlapping_deductions_overdraw :
  let db := Scenario.ledger (Some 5) in
  let overlapped :=
    interleave [true; false; true; false] (called 7 5) (called 7 5) db in
  let one := deductCredits 7 5 "sitemap_scan_1" db in
  let two := deductCredits 7 5 "sitemap_scan_2" one.2 in
  Spec.nonNegative db ∧
  overlapped.1 =
    Ok ({| Pending.userId := 7; Pending.amount := 5;
           Pending.stage :=
             Settled (Ok {| Deducted.amount := 0; Deducted.deducted := 5 |}) |},
        {| Pending.userId := 7; Pending.amount := 5;
           Pending.stage :=
             Settled (Ok {| Deducted.amount := -5; Deducted.deducted := 5 |}) |}) ∧
  credit overlapped.2 !! 7 = Some (-5) ∧
  decrements 7 (writes overlapped.2) = [5; 5] ∧
  ¬ Spec.nonNegative overlapped.2 ∧
  one.1 = Ok {| Deducted.amount := 0; Deducted.deducted := 5 |} ∧
  two.1 = Throw (mkError (InsufficientCreditsError 5 0)
                   "Insufficient credits. Required: 5, Available: 0") ∧
  credit two.2 !! 7 = Some 0.
Proof.
  cbv zeta. split.
  { intros u a. unfold Scenario.ledger. simpl. rewrite lookup_singleton.
    case_decide; [|done]. intros [= <-]. lia. }
  split; [reflexivity|]. split; [reflexivity|]. split; [reflexivity|].
  split; [|by repeat split].
  intros Hnn. assert (0 ≤ -5); [|lia]. by apply (Hnn 7).
Qed.

End LedgerClaims.

(* ===================================================================== *)
(** * The sitemap resolver                                                *)
(* ===================================================================== *)

Section Resolver.
Import Sitemap.

Lemma uniqueFrom_elem xs :
  ∀ seen x, x ∈ uniqueFrom seen xs ↔ x ∈ xs ∧ x ∉ seen.
Proof.
  induction xs as [|y xs IH]; intros seen x; simpl.
  - split; [by intros ?%elem_of_nil | by intros [?%elem_of_nil _]].
  - destruct (decide (y ∈ seen)) as [Hy|Hy].
    + rewrite IH, elem_of_cons. split; [tauto|].
      intros [[->|Hx] Hseen]; [done | by split].
    + rewrite !elem_of_cons, IH, elem_of_union, elem_of_singleton.
      destruct (decide (x = y)) as [->|Hne]; tauto.
Qed.

Lemma uniqueFrom_NoDup xs : ∀ seen, NoDup (uniqueFrom seen xs).
Proof.
  induction xs as [|y xs IH]; intros seen; simpl; [constructor|].
  destruct (decide (y ∈ seen)); [apply IH|].
  constructor; [|apply IH].
  rewrite uniqueFrom_elem, elem_of_union, elem_of_singleton. tauto.
Qed.

Lemma unique_elem xs x : x ∈ unique xs ↔ x ∈ xs.
Proof.
  unfold unique. rewrite uniqueFrom_elem.
  split; [tauto|]. intros Hx. split; [done|]. apply not_elem_of_empty.
Qed.

Lemma unique_NoDup xs : NoDup (unique xs).
Proof. apply uniqueFrom_NoDup. Qed.

Lemma filter_all {A} (P : A → Prop) `{∀ x, Decision (P x)} (l : list A) :
  Forall P l → filter P l = l.
Proof.
  induction 1 as [|x l Hx _ IH]; [done|].
  by rewrite filter_cons_True, IH.
Qed.

Lemma filter_none {A} (P : A → Prop) `{∀ x, Decision (P x)} (l : list A) :
  Forall (λ x, ¬ P x) l → filter P l = [].
Proof.
  induction 1 as [|x l Hx _ IH]; [done|].
  by rewrite filter_cons_False.
Qed.

(** The array of a [Set] lists each element where it comes first. *)
Lemma uniqueFrom_firstOccurrences xs :
  ∀ seen, uniqueFrom seen xs = filter (λ y, y ∉ seen) (Spec.firstOccurrences xs).
Proof.
  induction xs as [|x xs IH]; intros seen; simpl; [done|].
  destruct (decide (x ∈ seen)) as [Hx|Hx].
  - rewrite filter_cons_False by tauto. rewrite list_filter_filter, IH.
    apply list_filter_iff. intros y. split; [|tauto].
    intros Hy. split; [done|]. by intros ->.
  - rewrite filter_cons_True by done. f_equal.
    rewrite list_filter_filter, IH. apply list_filter_iff. intros y.
    rewrite elem_of_union, elem_of_singleton. tauto.
Qed.

Lemma unique_firstOccurrences xs : unique xs = Spec.firstOccurrences xs.
Proof.
  unfold unique. rewrite uniqueFrom_firstOccurrences.
  apply filter_all, Forall_forall. intros y _. apply not_elem_of_empty.
Qed.

Lemma firstOccurrences_sublist xs : Spec.firstOccurrences xs `sublist_of` xs.
Proof.
  induction xs as [|x xs IH]; simpl; [done|].
  apply sublist_skip. etransitivity; [apply sublist_filter | exact IH].
Qed.

Lemma firstOccurrences_elem xs x : x ∈ Spec.firstOccurrences xs ↔ x ∈ xs.
Proof. rewrite <- unique_firstOccurrences. apply unique_elem. Qed.

Lemma firstOccurrences_NoDup xs : NoDup (Spec.firstOccurrences xs).
Proof. rewrite <- unique_firstOccurrences. apply unique_NoDup. Qed.

Variable parseURL : string → option Validation.URL.

Lemma isValidHttpUrl_spec s :
  isValidHttpUrl parseURL s = true ↔ Spec.httpUrl parseURL s.
Proof.
  unfold isValidHttpUrl, Spec.httpUrl. destruct (parseURL s) as [u|].
  - rewrite orb_true_iff, !bool_decide_eq_true. split.
    + intros H. by exists u.
    + by intros (u' & [= <-] & H).
  - split; [done | by intros (u & ? & _)].
Qed.

Lemma validateUrl_spec s :
  isOk (Validation.validateUrl parseURL s) = true ↔ Spec.httpUrl parseURL s.
Proof.
  unfold Validation.validateUrl, Spec.httpUrl. destruct (parseURL s) as [u|].
  - case_bool_decide as Hp; simpl.
    + split; [|done]. intros _. exists u. split; [done|].
      apply elem_of_cons in Hp as [Hp|Hp]; [by left|].
      apply list_elem_of_singleton in Hp. by right.
    + split; [done|]. intros (u' & [= <-] & H). destruct Hp.
      rewrite elem_of_cons, list_elem_of_singleton. tauto.
  - split; [done | by intros (u & ? & _)].
Qed.

Lemma truthy_spec s : Js.truthy (Some s) = true ↔ s ≠ "".
Proof. unfold Js.truthy. by rewrite bool_decide_eq_true. Qed.

Lemma trim_empty : Js.trim "" = "".
Proof. reflexivity. Qed.

(** What the body of a loop does with an entry. *)
Lemma entryUrl_run name entry :
  entryUrl parseURL name entry =
    if decide (Spec.structured entry)
    then Throw (newError (name +:+ ".loc[0].trim is not a function"))
    else Ok (match Spec.firstLoc entry with
             | Some u => if decide (u ≠ "" ∧ Spec.httpUrl parseURL u)
                         then Some u else None
             | None => None
             end).
Proof.
  unfold entryUrl, Spec.firstLoc.
  destruct (decide (Spec.structured entry)) as [[rest Hs]|Hs].
  { by rewrite Hs. }
  destruct (loc entry) as [[|[first|] rest]|] eqn:Hloc; [done| |by destruct Hs; eexists|done].
  destruct (Js.truthy (Some first)) eqn:Hfirst.
  - destruct (Js.truthy (Some (Js.trim first))) eqn:Htrim; simpl.
    + apply truthy_spec in Htrim.
      destruct (isValidHttpUrl parseURL (Js.trim first)) eqn:Hvalid.
      * apply isValidHttpUrl_spec in Hvalid. by rewrite decide_True.
      * rewrite decide_False; [done|]. intros [_ H].
        apply isValidHttpUrl_spec in H. congruence.
    + rewrite decide_False; [done|]. intros [H _].
      apply truthy_spec in H. congruence.
  - rewrite decide_False; [done|]. intros [H _].
    destruct (decide (first = "")) as [->|Hne]; [by rewrite trim_empty in H|].
    apply truthy_spec in Hne. congruence.
Qed.

(** The locations of some entries that are URLs to scan. *)
Let kept (es : list Entry) : list string :=
  filter (λ u, u ≠ "" ∧ Spec.httpUrl parseURL u) (omap Spec.firstLoc es).

Lemma pushAll_run name es :
  ∀ urls,
    pushAll parseURL name es urls =
      if decide (Exists Spec.structured es)
      then Throw (newError (name +:+ ".loc[0].trim is not a function"))
      else Ok (urls ++ kept es).
Proof.
  unfold kept.
  induction es as [|entry es IH]; intros urls; cbn [pushAll omap list_omap].
  - destruct (decide (Exists Spec.structured [])) as [H|_]; [by apply Exists_nil in H|].
    by rewrite filter_nil, app_nil_r.
  - rewrite entryUrl_run.
    assert (Hiff : Exists Spec.structured (entry :: es)
                   ↔ Spec.structured entry ∨ Exists Spec.structured es)
      by apply Exists_cons.
    destruct (decide (Spec.structured entry)) as [Hs|Hs].
    { destruct (decide (Exists Spec.structured (entry :: es))); tauto. }
    destruct (Spec.firstLoc entry) as [u|].
    + destruct (decide (u ≠ "" ∧ Spec.httpUrl parseURL u)) as [Hu|Hu].
      * rewrite IH, filter_cons_True by done.
        destruct (decide (Exists Spec.structured es)),
          (decide (Exists Spec.structured (entry :: es))); try tauto.
        by rewrite <- app_assoc.
      * rewrite IH, filter_cons_False by done.
        destruct (decide (Exists Spec.structured es)),
          (decide (Exists Spec.structured (entry :: es))); tauto.
    + rewrite IH.
      destruct (decide (Exists Spec.structured es)),
        (decide (Exists Spec.structured (entry :: es))); tauto.
Qed.

Lemma pushEntries_run name (x : option (OneOrMany Entry)) urls :
  pushEntries parseURL name x urls =
    if decide (Exists Spec.structured (Spec.children x))
    then Throw (newError (name +:+ ".loc[0].trim is not a function"))
    else Ok (urls ++ kept (Spec.children x)).
Proof.
  destruct x as [[entry|es]|]; cbn [pushEntries toArray Spec.children].
  - apply (pushAll_run name [entry]).
  - apply pushAll_run.
  - destruct (decide (Exists Spec.structured [])) as [H|_]; [by apply Exists_nil in H|].
    unfold kept. cbn [omap list_omap]. by rewrite filter_nil, app_nil_r.
Qed.

Lemma candidates_valid p :
  Forall (λ u, isOk (Validation.validateUrl parseURL u) = true)
    (Spec.firstOccurrences (Spec.candidates parseURL p)).
Proof.
  apply Forall_forall. intros u Hu. apply validateUrl_spec.
  pose proof (firstOccurrences_sublist (Spec.candidates parseURL p)) as Hsub.
  apply (elem_of_sublist _ _ _ Hu) in Hsub as Hin. clear Hu. rename Hin into Hu.
  by apply list_elem_of_filter in Hu as [[_ Hu] _].
Qed.

(** The extraction, outcome by outcome: it fails when the first location
    of some entry is an element and not a text, and gives the candidates at
    their first occurrences otherwise. *)
Lemma extractUrls_run (p : ParsedXml) :
  extractUrlsFromParsedXml parseURL (Some p) =
    if decide (Exists Spec.structured (Spec.entries p))
    then Throw (newError "Failed to extract URLs from sitemap")
    else Ok (Spec.firstOccurrences (Spec.candidates parseURL p)).
Proof.
  pose proof (candidates_valid p) as Hvalid.
  unfold Spec.candidates, Spec.locations, Spec.entries in *.
  unfold extractUrlsFromParsedXml.
  set (first := match urlset p with Some u => Spec.children (url u) | None => [] end) in *.
  set (second :=
         match sitemapindex p with Some i => Spec.children (sitemap i) | None => [] end)
    in *.
  assert (Hfirst :
    match urlset p with
    | Some u => pushEntries parseURL "urlEntry" (url u) []
    | None => Ok []
    end = if decide (Exists Spec.structured first)
          then Throw (newError ("urlEntry" +:+ ".loc[0].trim is not a function"))
          else Ok (kept first)).
  { subst first. destruct (urlset p) as [u|].
    - by rewrite pushEntries_run.
    - by destruct (decide (Exists Spec.structured [])) as [H|_];
        [apply Exists_nil in H|]. }
  rewrite Hfirst. clear Hfirst.
  destruct (decide (Exists Spec.structured first)) as [H1|H1].
  { rewrite decide_True; [done|]. apply Exists_app. by left. }
  assert (Hsecond :
    match sitemapindex p with
    | Some i => pushEntries parseURL "sitemapEntry" (sitemap i) (kept first)
    | None => Ok (kept first)
    end = if decide (Exists Spec.structured second)
          then Throw (newError ("sitemapEntry" +:+ ".loc[0].trim is not a function"))
          else Ok (kept first ++ kept second)).
  { subst second. destruct (sitemapindex p) as [i|].
    - by rewrite pushEntries_run.
    - destruct (decide (Exists Spec.structured [])) as [H|_];
        [by apply Exists_nil in H|].
      unfold kept at 3. cbn [omap list_omap]. by rewrite filter_nil, app_nil_r. }
  rewrite Hsecond. clear Hsecond.
  destruct (decide (Exists Spec.structured second)) as [H2|H2].
  { rewrite decide_True; [done|]. apply Exists_app. by right. }
  rewrite decide_False by (rewrite Exists_app; tauto).
  assert (Hkept : kept first ++ kept second
                  = filter (λ u, u ≠ "" ∧ Spec.httpUrl parseURL u)
                      (omap Spec.firstLoc (first ++ second))).
  { unfold kept. by rewrite omap_app, filter_app. }
  rewrite Hkept, unique_firstOccurrences in *. f_equal.
  by apply filter_all.
Qed.

Lemma candidates_elem p u :
  u ∈ Spec.firstOccurrences (Spec.candidates parseURL p) ↔
  u ∈ Spec.locations p ∧ u ≠ "" ∧ Spec.httpUrl parseURL u.
Proof.
  rewrite firstOccurrences_elem. unfold Spec.candidates.
  rewrite list_elem_of_filter. tauto.
Qed.

Lemma hostnames_total urls :
  Forall (Spec.httpUrl parseURL) urls → isOk (hostnames parseURL urls) = true.
Proof.
  induction 1 as [|u urls (parsed & Hparsed & _) _ IH]; simpl; [done|].
  rewrite Hparsed. by destruct (hostnames parseURL urls).
Qed.

End Resolver.

(** Whatever makes the extraction fail, its error is the same. *)
Lemma extractUrls_message parseURL parsed e :
  Sitemap.extractUrlsFromParsedXml parseURL parsed = Throw e →
  e = newError "Failed to extract URLs from sitemap".
Proof.
  unfold Sitemap.extractUrlsFromParsedXml.
  repeat case_match; by intros [= <-].
Qed.

(** A sitemap that is parsed lists at least one URL and no more than the
    maximum. *)
Lemma parseSitemap_bounds parseURL maxSitemapUrls parseString content urls :
  Sitemap.parseSitemap parseURL maxSitemapUrls parseString content = Ok urls →
  0 < Z.of_nat (length urls) ≤ maxSitemapUrls.
Proof.
  unfold Sitemap.parseSitemap.
  assert (Hextracted : ∀ parsed,
    match Sitemap.extractUrlsFromParsedXml parseURL parsed with
    | Throw extractError => Throw extractError
    | Ok found =>
        if bool_decide (Z.of_nat (length found) = 0)
        then Throw (newError "No URLs found in sitemap")
        else if bool_decide (Z.of_nat (length found) > maxSitemapUrls) then
          Throw (newError ("Sitemap contains " +:+ pretty (Z.of_nat (length found))
                           +:+ " URLs, maximum allowed is " +:+ pretty maxSitemapUrls))
        else Ok found
    end = Ok urls →
    0 < Z.of_nat (length urls) ≤ maxSitemapUrls).
  { intros parsed.
    destruct (Sitemap.extractUrlsFromParsedXml parseURL parsed) as [found|e]; [|done].
    repeat case_bool_decide; [done..|]. intros [= <-]. lia. }
  destruct (parseString content) as [reason| |p]; [done|apply Hextracted..].
Qed.

(** X7.  For a sitemap that was fetched and parsed, the extraction either
    fails or gives URLs.  It fails, and with it the whole resolution, exactly
    when the first location of some entry is not a text but an element with
    attributes or children; the error is "Failed to extract URLs from
    sitemap", whatever the other entries are.  Otherwise the URLs are the
    candidates of the sitemap (its non-empty trimmed locations that the
    platform parses as absolute HTTP or HTTPS URLs) in the order of the
    document, each where it comes first: they are without repetition, the
    other entries are left out without an error, and the last pass of the
    extraction, which filters the URLs through [validateUrl], removes none.
    The resolution then fails, with a message of its own, when no URL is left
    or when there are more than [maxSitemapUrls], and otherwise gives these
    URLs. *)
Theorem resolver_unique_valid_bounded
    (parseURL : string → option Validation.URL) (maxSitemapUrls : Z)
    (fetch : string → Sitemap.Fetched) (parseString : string → Sitemap.XmlParse)
    (sitemapUrl content : string) (p : Sitemap.ParsedXml) :
  Sitemap.fetchSitemap parseURL fetch sitemapUrl = Ok content →
  parseString content = Sitemap.Xml p →
  let validation :=
    Sitemap.validateAndParseSitemap parseURL maxSitemapUrls fetch parseString sitemapUrl in
  match Sitemap.extractUrlsFromParsedXml parseURL (Some p) with
  | Ok urls =>
      let n := Z.of_nat (length urls) in
      Forall (λ entry, ¬ Spec.structured entry) (Spec.entries p) ∧
      urls = Spec.firstOccurrences (Spec.candidates parseURL p) ∧
      urls `sublist_of` Spec.locations p ∧
      filter (λ url, isOk (Validation.validateUrl parseURL url) = true) urls = urls ∧
      NoDup urls ∧
      (∀ u, u ∈ urls ↔ u ∈ Spec.locations p ∧ u ≠ "" ∧ Spec.httpUrl parseURL u) ∧
      Sitemap.parseSitemap parseURL maxSitemapUrls parseString content =
        (if bool_decide (n = 0) then Throw (newError "No URLs found in sitemap")
         else if bool_decide (n > maxSitemapUrls) then
           Throw (newError ("Sitemap contains " +:+ pretty n
                            +:+ " URLs, maximum allowed is " +:+ pretty maxSitemapUrls))
         else Ok urls) ∧
      (if bool_decide (n = 0) || bool_decide (n > maxSitemapUrls)
       then Sitemap.isValid validation = false ∧ Sitemap.urls validation = []
       else Sitemap.isValid validation = true ∧ Sitemap.urls validation = urls)
  | Throw e =>
      Exists Spec.structured (Spec.entries p) ∧
      e = newError "Failed to extract URLs from sitemap" ∧
      Sitemap.parseSitemap parseURL maxSitemapUrls parseString content = Throw e ∧
      Sitemap.isValid validation = false ∧
      Sitemap.urls validation = [] ∧
      Sitemap.error validation = Some "Failed to extract URLs from sitemap"
  end.
Proof.
  intros Hfetch Hparse validation.
  assert (Hparsed :
    Sitemap.parseSitemap parseURL maxSitemapUrls parseString content =
      match Sitemap.extractUrlsFromParsedXml parseURL (Some p) with
      | Throw e => Throw e
      | Ok urls =>
          if bool_decide (Z.of_nat (length urls) = 0)
          then Throw (newError "No URLs found in sitemap")
          else if bool_decide (Z.of_nat (length urls) > maxSitemapUrls) then
            Throw (newError ("Sitemap contains " +:+ pretty (Z.of_nat (length urls))
                             +:+ " URLs, maximum allowed is " +:+ pretty maxSitemapUrls))
          else Ok urls
      end).
  { unfold Sitemap.parseSitemap. by rewrite Hparse. }
  subst validation. unfold Sitemap.validateAndParseSitemap.
  rewrite Hfetch, Hparsed, extractUrls_run. clear Hparsed.
  destruct (decide (Exists Spec.structured (Spec.entries p))) as [Hs|Hs].
  { by repeat split. }
  set (urls := Spec.firstOccurrences (Spec.candidates parseURL p)).
  split; [by apply Forall_Exists_neg|]. split; [done|].
  split.
  { etransitivity; [apply firstOccurrences_sublist|].
    unfold Spec.candidates. apply sublist_filter. }
  split; [apply filter_all, candidates_valid|].
  split; [apply firstOccurrences_NoDup|]. split; [apply candidates_elem|].
  split; [done|].
  destruct (bool_decide (Z.of_nat (length urls) = 0)); [done|].
  destruct (bool_decide (Z.of_nat (length urls) > maxSitemapUrls)); [done|]. simpl.
  assert (Hhosts : isOk (Sitemap.hostnames parseURL urls) = true).
  { apply hostnames_total, Forall_forall. intros u Hu.
    by apply candidates_elem in Hu as (_ & _ & Hu). }
  by destruct (Sitemap.hostnames parseURL urls).
Qed.

Lemma resolver_unique_valid_bounded_witness :
  let fetch := λ _ : string, Sitemap.Response true 200 "OK" "<urlset/>" in
  let parseString := λ _ : string, Sitemap.Xml Scenario.untidy in
  Sitemap.fetchSitemap Scenario.sampleURL fetch "https://example.com/sitemap.xml"
    = Ok "<urlset/>" ∧
  parseString "<urlset/>" = Sitemap.Xml Scenario.untidy ∧
  Spec.locations Scenario.untidy =
    ["https://example.com/a"; "https://example.com/a"; "/relative/path";
     "http://example.com/b"; "ftp://example.com/c"; "https://example.com/a"] ∧
  Sitemap.parseSitemap Scenario.sampleURL 10000 parseString "<urlset/>"
    = Ok ["https://example.com/a"; "http://example.com/b"] ∧
  ∃ urls,
    Sitemap.extractUrlsFromParsedXml Scenario.sampleURL (Some Scenario.untidy) = Ok urls ∧
    NoDup urls.
Proof.
  intros fetch parseString.
  assert (Hfetch :
    Sitemap.fetchSitemap Scenario.sampleURL fetch "https://example.com/sitemap.xml"
      = Ok "<urlset/>") by reflexivity.
  assert (Hparse : parseString "<urlset/>" = Sitemap.Xml Scenario.untidy) by reflexivity.
  pose proof (resolver_unique_valid_bounded Scenario.sampleURL 10000 fetch parseString
                "https://example.com/sitemap.xml" "<urlset/>" Scenario.untidy Hfetch Hparse)
    as Hresolved.
  split; [exact Hfetch|]. split; [exact Hparse|]. split; [reflexivity|].
  destruct (Sitemap.extractUrlsFromParsedXml Scenario.sampleURL (Some Scenario.untidy))
    as [urls|e] eqn:Hurls; [|discriminate Hurls].
  destruct Hresolved as (_ & _ & _ & _ & Hnodup & _ & Hparsed & _).
  split; [|by exists urls].
  rewrite Hparsed. vm_compute in Hurls. injection Hurls as <-. reflexivity.
Defined.

(** C9, at the failing input.  A sitemap lists two good locations and,
    between them, one location that carries an attribute, for which [xml2js]
    gives an object.  The entry is not skipped and its neighbours are not
    returned: [trim] is called on the object, and the resolution fails as a
    whole with "Failed to extract URLs from sitemap", though two URLs are
    there to scan, which is neither none nor more than the maximum.  Without
    that entry the same sitemap resolves to the two URLs. *)
Theorem structured_loc_fails_the_sitemap :
  let fetch := λ _ : string, Sitemap.Response true 200 "OK" "<urlset/>" in
  let resolve (p : Sitemap.ParsedXml) :=
    Sitemap.validateAndParseSitemap Scenario.sampleURL 10000 fetch
      (λ _, Sitemap.Xml p) "https://example.com/sitemap.xml" in
  Spec.candidates Scenario.sampleURL Scenario.attributed
    = ["https://example.com/a"; "https://example.com/b"] ∧
  Sitemap.parseSitemap Scenario.sampleURL 10000 (λ _, Sitemap.Xml Scenario.attributed)
    "<urlset/>"
    = Throw (newError "Failed to extract URLs from sitemap") ∧
  Sitemap.isValid (resolve Scenario.attributed) = false ∧
  Sitemap.error (resolve Scenario.attributed)
    = Some "Failed to extract URLs from sitemap" ∧
  Sitemap.urls (resolve Scenario.attributed) = [] ∧
  Sitemap.isValid
    (resolve (Scenario.xml ["https://example.com/a"; "https://example.com/b"])) = true ∧
  Sitemap.urls
    (resolve (Scenario.xml ["https://example.com/a"; "https://example.com/b"]))
    = ["https://example.com/a"; "https://example.com/b"].
Proof. repeat split; reflexivity. Qed.

(* ===================================================================== *)
(** * Rules for triples                                                   *)
(* ===================================================================== *)

Section Triples.
Context {S : Type}.
Implicit Types (P : S → Prop) (e : Error).

Lemma triple_ret {A} P (a : A) (Q : A → S → Prop) E :
  (∀ s, P s → Q a s) → Spec.triple P (mret a) Q E.
Proof. intros H s Hs. by apply H. Qed.

Lemma triple_throw {A} P e (Q : A → S → Prop) E :
  (∀ s, P s → E e s) → Spec.triple P (throw e) Q E.
Proof. intros H s Hs. by apply H. Qed.

Lemma triple_bind {A B} P (m : M S A) (f : A → M S B) (R : A → S → Prop)
    (Q : B → S → Prop) E :
  Spec.triple P m R E →
  (∀ a, Spec.triple (R a) (f a) Q E) →
  Spec.triple P (m ≫= f) Q E.
Proof.
  intros Hm Hf s Hs. specialize (Hm s Hs). unfold mbind, M_bind.
  destruct (m s) as [[a|e] s']; [by apply Hf | done].
Qed.

Lemma triple_tryCatch {A} P (m : M S A) (h : Error → M S A)
    (Q : A → S → Prop) (R E : Error → S → Prop) :
  Spec.triple P m Q R →
  (∀ e, Spec.triple (R e) (h e) Q E) →
  Spec.triple P (tryCatch m h) Q E.
Proof.
  intros Hm Hh s Hs. specialize (Hm s Hs). unfold tryCatch.
  destruct (m s) as [[a|e] s']; [done | by apply Hh].
Qed.

Lemma triple_modify P (f : S → S) (Q : unit → S → Prop) E :
  (∀ s, P s → Q tt (f s)) → Spec.triple P (modify f) Q E.
Proof. intros H s Hs. by apply H. Qed.

Lemma triple_pre {A} P P' (m : M S A) (Q : A → S → Prop) E :
  (∀ s, P s → P' s) → Spec.triple P' m Q E → Spec.triple P m Q E.
Proof. intros HP Hm s Hs. by apply Hm, HP. Qed.

End Triples.

Section WorkerRules.
Import Prisma ScanQueue.

Variable env : Env.
Variable job : Job.data.

(** A call that may fail keeps an invariant that its failure keeps. *)
Lemma triple_await {A} P (c : Call) (m : M World A) Q E :
  (∀ reason s, P s → E (newError reason) s) →
  Spec.triple P m Q E →
  Spec.triple P (await env c m) Q E.
Proof.
  intros Hfail Hm. unfold await. destruct (faults env c) as [reason|]; [|done].
  apply triple_throw. auto.
Qed.

(** A call that does not fail in this run. *)
Lemma triple_await_ok {A} P (c : Call) (m : M World A) Q E :
  faults env c = None →
  Spec.triple P m Q E →
  Spec.triple P (await env c m) Q E.
Proof. intros Hc Hm. unfold await. by rewrite Hc. Qed.

Lemma triple_liftDb {A} P (m : M Db A) Q E :
  (∀ w, P w →
     match m (db w) with
     | (Ok a, d) => Q a {| db := d; queue := queue w; progress := progress w |}
     | (Throw e, d) => E e {| db := d; queue := queue w; progress := progress w |}
     end) →
  Spec.triple P (liftDb m) Q E.
Proof.
  intros H w Hw. specialize (H w Hw). unfold liftDb.
  by destruct (m (db w)) as [[a|e] d].
Qed.

Lemma validate_run urls w :
  validate env job urls w =
    (Ok (map (Spec.resultFor (w3cFetch env)) urls),
     {| db := db w; queue := queue w;
        progress := progress w ++
          map (λ p, (Job.scanId job,
                     overallProgress (W3C.completed p) (Z.of_nat (length urls))))
              (Spec.progressFrom (w3cFetch env) (Z.of_nat (length urls)) 0 urls) |}).
Proof.
  unfold validate.
  rewrite (validateUrls_returns (w3cFetch env) (Some (λ _, Ok tt))).
  - reflexivity.
  - by intros f p [= <-].
Qed.

(** The batch never throws in the worker, touches no row of the database
    and gives consistent results. *)
Lemma triple_validate (P : World → Prop) urls E :
  (∀ w pr, P w → P {| db := db w; queue := queue w; progress := pr |}) →
  Spec.triple P (validate env job urls)
    (λ rs w, P w ∧ rs = map (Spec.resultFor (w3cFetch env)) urls) E.
Proof. intros HP w Hw. rewrite validate_run. split; [by apply HP | done]. Qed.

Lemma triple_validate_inv (P : World → Prop) urls E :
  (∀ w pr, P w → P {| db := db w; queue := queue w; progress := pr |}) →
  Spec.triple P (validate env job urls) (λ _, P) E.
Proof. intros HP w Hw. rewrite validate_run. by apply HP. Qed.

Lemma triple_updateProgress (P : World → Prop) v E :
  (∀ w pr, P w → P {| db := db w; queue := queue w; progress := pr |}) →
  Spec.triple P (updateProgress job v) (λ _, P) E.
Proof. intros HP. apply triple_modify. intros w Hw. by apply HP. Qed.

End WorkerRules.

(* ===================================================================== *)
(** * What the ledger leaves alone                                        *)
(* ===================================================================== *)

Section Frames.
Import Prisma CreditService.

Lemma statusHistory_app id db ws :
  omap (statusWritten id) (writes db ++ ws)
  = statusHistory id db ++ omap (statusWritten id) ws.
Proof. unfold statusHistory. by rewrite omap_app. Qed.

Lemma sameScans_refl db : Spec.sameScans db db.
Proof. done. Qed.

Lemma sameScans_withNewAccount u db : Spec.sameScans db (Spec.withNewAccount u db).
Proof.
  repeat split. intros id. unfold statusHistory at 1. simpl.
  rewrite statusHistory_app. simpl. by rewrite app_nil_r.
Qed.

Lemma checkSufficientCredits_sameScans db u required :
  Spec.sameScans db (checkSufficientCredits u required db).2.
Proof.
  rewrite checkSufficientCredits_run. simpl.
  destruct (credit db !! u); [apply sameScans_refl | apply sameScans_withNewAccount].
Qed.

Lemma deductCredits_sameScans db u a reason :
  Spec.sameScans db (deductCredits u a reason db).2.
Proof.
  destruct (decide (a ≤ 0)); [by rewrite deductCredits_not_positive|].
  destruct (decide (a ≤ Spec.balance db u)).
  - rewrite deductCredits_sufficient by lia. repeat split. intros id.
    unfold statusHistory at 1. simpl. rewrite statusHistory_app. simpl.
    by rewrite app_nil_r.
  - by destruct (deductCredits_insufficient db u a reason) as [msg ->]; [lia..|].
Qed.

Lemma refundCredits_sameScans db u a reason related :
  Spec.sameScans db (refundCredits u a reason related db).2.
Proof.
  destruct (decide (0 < a ∧ a ≤ 10000)) as [[]|].
  - rewrite refundCredits_accepted by lia. repeat split. intros id.
    unfold statusHistory at 1. simpl. rewrite statusHistory_app, omap_app.
    destruct (credit db !! u); simpl; by rewrite app_nil_r.
  - by rewrite refundCredits_rejected by lia.
Qed.

Lemma decrements_app u ws1 ws2 :
  decrements u (ws1 ++ ws2) = decrements u ws1 ++ decrements u ws2.
Proof. apply omap_app. Qed.

Lemma increments_app u ws1 ws2 :
  increments u (ws1 ++ ws2) = increments u ws1 ++ increments u ws2.
Proof. apply omap_app. Qed.

End Frames.

(* ===================================================================== *)
(** * The worker keeps the persisted results consistent                   *)
(* ===================================================================== *)

Section PersistedResults.
Import Prisma ScanQueue.

Variable env : Env.
Variable job : Job.data.

Lemma rows_progress w pr :
  Spec.consistentRows w → Spec.consistentRows {| db := db w; queue := queue w; progress := pr |}.
Proof. done. Qed.

(** Any step of the database that leaves the scan results alone. *)
Lemma rows_liftDb {A} (m : M Db A) :
  (∀ d, scanResult (m d).2 = scanResult d) →
  Spec.triple Spec.consistentRows (liftDb m)
    (λ _, Spec.consistentRows) (λ _, Spec.consistentRows).
Proof.
  intros Hm. apply triple_liftDb. intros w Hw. specialize (Hm (db w)).
  destruct (m (db w)) as [[a|e] d]; unfold Spec.consistentRows; simpl in *;
    by rewrite Hm.
Qed.

Lemma scan_update_rows id data d : scanResult (scan_update id data d).2 = scanResult d.
Proof. unfold scan_update. by destruct (scan d !! id). Qed.

Lemma rows_createMany results :
  Spec.triple Spec.consistentRows
    (liftDb (scanResult_createMany
               (map (toScanResult job) (map (Spec.resultFor (w3cFetch env)) results))))
    (λ _, Spec.consistentRows) (λ _, Spec.consistentRows).
Proof.
  apply triple_liftDb. intros w Hw. unfold Spec.consistentRows. simpl.
  apply Forall_app. split; [done|].
  apply Forall_forall. intros row Hrow.
  apply list_elem_of_fmap in Hrow as (r & -> & Hr).
  apply list_elem_of_fmap in Hr as (u & -> & _).
  apply toScanResult_consistent. unfold Spec.resultFor.
  destruct (W3C.validateUrl (w3cFetch env) u) as [r|e] eqn:Hu.
  - by eapply validateUrl_consistent.
  - done.
Qed.

Lemma rows_process :
  Spec.triple Spec.consistentRows (process env job)
    (λ _, Spec.consistentRows) (λ _, Spec.consistentRows).
Proof.
  unfold process.
  eapply triple_bind;
    [apply triple_await; [done | apply rows_liftDb; intros; apply scan_update_rows]|].
  intros []; cbv beta. eapply triple_bind;
    [apply triple_await; [done | apply triple_updateProgress, rows_progress]|].
  intros []; cbv beta zeta. case_match; [by apply triple_throw|].
  eapply triple_bind;
    [apply triple_await; [done | apply rows_liftDb; intros; apply scan_update_rows]|].
  intros []; cbv beta. eapply triple_bind;
    [apply triple_await; [done | apply triple_updateProgress, rows_progress]|].
  intros []; cbv beta. eapply triple_bind;
    [apply triple_await;
       [done | apply rows_liftDb; intros; apply checkSufficientCredits_sameScans]|].
  intros creditCheck. case_match; [by apply triple_throw|].
  eapply triple_bind;
    [apply triple_await;
       [done | apply rows_liftDb; intros; apply deductCredits_sameScans]|].
  intros []; cbv beta. eapply triple_bind;
    [apply triple_await; [done | apply triple_updateProgress, rows_progress]|].
  intros []; cbv beta. eapply triple_bind; [apply triple_validate, rows_progress|].
  intros results; cbv beta. eapply triple_bind.
  { apply triple_await; [by intros reason w [Hw _]|].
    apply triple_updateProgress. intros w pr [Hw ->]. by split. }
  intros []; cbv beta. eapply triple_bind with (R := λ _, Spec.consistentRows).
  { apply triple_await; [by intros reason w [Hw _]|].
    intros w [Hw ->]. by apply rows_createMany. }
  intros []; cbv beta. eapply triple_bind;
    [apply triple_await; [done | apply rows_liftDb; intros; apply scan_update_rows]|].
  intros []; cbv beta. eapply triple_bind;
    [apply triple_await; [done | apply triple_updateProgress, rows_progress]|].
  intros []; cbv beta. by apply triple_ret.
Qed.

Lemma rows_refundAfterFailure :
  Spec.triple Spec.consistentRows (refundAfterFailure env job)
    (λ _, Spec.consistentRows) (λ _, Spec.consistentRows).
Proof.
  unfold refundAfterFailure.
  eapply triple_tryCatch with (R := λ _, Spec.consistentRows); [|intros ?; by apply triple_ret].
  eapply triple_bind;
    [apply triple_await; [done | by apply rows_liftDb]|].
  intros [s|]; [|by apply triple_ret].
  destruct (Scan.totalUrls s) as [totalUrls|]; [|by apply triple_ret].
  case_match; [|by apply triple_ret].
  eapply triple_bind;
    [apply triple_await;
       [done | apply rows_liftDb; intros; apply refundCredits_sameScans]|].
  intros []; cbv beta. by apply triple_ret.
Qed.

Lemma rows_scanWorker :
  Spec.triple Spec.consistentRows (scanWorker env job)
    (λ _, Spec.consistentRows) (λ _, Spec.consistentRows).
Proof.
  unfold scanWorker.
  eapply triple_tryCatch; [apply rows_process|]. intros error.
  eapply triple_bind;
    [apply triple_await; [done | apply rows_liftDb; intros; apply scan_update_rows]|].
  intros []; cbv beta. eapply triple_bind; [apply rows_refundAfterFailure|].
  intros []; cbv beta. by apply triple_throw.
Qed.

End PersistedResults.

(** C8.  Every result the validation client produces, every result the batch
    validator returns (the synthetic failed result included) and, from there,
    every row the worker persists has [isValid] equal to "the list of errors
    is empty". *)
Theorem isValid_iff_no_errors :
  (∀ w3cResult url, Spec.consistent (W3C.processW3CResult w3cResult url)) ∧
  (∀ fetch url,
     match W3C.validateUrl fetch url with
     | Ok r => Spec.consistent r
     | Throw e => Spec.consistent (W3C.failedResult url e)
     end) ∧
  (∀ fetch progressCallback urls,
     match W3C.validateUrls fetch progressCallback urls with
     | (Ok results, _) => Forall Spec.consistent results
     | (Throw _, _) => True
     end) ∧
  (∀ env job w,
     Spec.consistentRows w →
     Spec.consistentRows (ScanQueue.scanWorker env job w).2).
Proof.
  split; [exact processW3CResult_consistent|]. split.
  { intros fetch url. destruct (W3C.validateUrl fetch url) as [r|e] eqn:Hr; [|done].
    by eapply validateUrl_consistent. }
  split.
  { intros fetch cb urls.
    destruct (W3C.validateUrls fetch cb urls) as [[results|e] calls] eqn:Hrun; [|done].
    by eapply validateUrls_consistent. }
  intros env job w Hw. pose proof (rows_scanWorker env job w Hw) as H.
  by destruct (ScanQueue.scanWorker env job w) as [[a|e] w'].
Qed.

Lemma isValid_iff_no_errors_witness :
  let env :=
    {| ScanQueue.parseURL := Scenario.sampleURL;
       ScanQueue.maxSitemapUrls := 10000;
       ScanQueue.sitemapFetch := λ _, Sitemap.Response true 200 "OK" "<urlset/>";
       ScanQueue.parseString := λ _, Sitemap.Xml (Scenario.xml Scenario.five);
       ScanQueue.w3cFetch := Scenario.flaky;
       ScanQueue.now := 1000;
       ScanQueue.faults := Scenario.noFaults |} in
  let w' := (ScanQueue.scanWorker env Scenario.job (Scenario.start 9)).2 in
  Spec.consistentRows (Scenario.start 9) ∧
  Spec.consistentRows w' ∧
  (Prisma.ScanResult.isValid <$> Prisma.scanResult (ScanQueue.db w'))
    = [true; true; false; true; true].
Proof.
  intros env w'.
  assert (Hstart : Spec.consistentRows (Scenario.start 9)) by apply Forall_nil_2.
  destruct isValid_iff_no_errors as (_ & _ & _ & Hworker).
  split; [exact Hstart|]. split; [exact (Hworker env Scenario.job _ Hstart)|].
  reflexivity.
Defined.

(* ===================================================================== *)
(** * An attempt of the worker that meets no failure of the infrastructure *)
(* ===================================================================== *)

Lemma validateAndParseSitemap_valid parseURL maxSitemapUrls fetch parseString sitemapUrl :
  let validation :=
    Sitemap.validateAndParseSitemap parseURL maxSitemapUrls fetch parseString sitemapUrl in
  Sitemap.isValid validation = true →
  0 < Z.of_nat (length (Sitemap.urls validation)) ≤ maxSitemapUrls.
Proof.
  unfold Sitemap.validateAndParseSitemap.
  destruct (Sitemap.fetchSitemap parseURL fetch sitemapUrl) as [content|e]; [|done].
  destruct (Sitemap.parseSitemap parseURL maxSitemapUrls parseString content)
    as [urls|e] eqn:Hparsed; [|done].
  apply parseSitemap_bounds in Hparsed.
  destruct (Sitemap.hostnames parseURL _); [|done].
  simpl. lia.
Qed.

Section FaultFree.
Import Prisma ScanQueue.

Variable env : Env.
Variable job : Job.data.
Hypothesis no_faults : ∀ c, faults env c = None.

(** ** The statuses written *)

Lemma tracked_progress h cur w pr :
  Spec.tracked job h cur w →
  Spec.tracked job h cur {| db := db w; queue := queue w; progress := pr |}.
Proof. done. Qed.

(** An update of the job's scan succeeds and records the status it sets. *)
Lemma tracked_scan_update h cur data E :
  Spec.triple (Spec.tracked job h cur)
    (liftDb (scan_update (Job.scanId job) data))
    (λ _, Spec.tracked job
            (h ++ from_option (λ s, [s]) [] (Scan.setStatus data))
            (from_option Some cur (Scan.setStatus data))) E.
Proof.
  apply triple_liftDb. intros w (s & Hs & Hcur & Hh). unfold scan_update. rewrite Hs.
  exists (Scan.apply data s). simpl. split; [by rewrite lookup_insert_eq|]. split.
  - intros st. destruct (Scan.setStatus data) as [st'|]; simpl; [by intros [= <-]|].
    apply Hcur.
  - unfold statusHistory, record. simpl. rewrite statusHistory_app, Hh. simpl.
    rewrite decide_True by done. by destruct (Scan.setStatus data).
Qed.

(** A step of the ledger keeps the scans, whether it returns or throws. *)
Lemma tracked_sameScans {A} h cur (m : M Db A) :
  (∀ d, Spec.sameScans d (m d).2) →
  Spec.triple (Spec.tracked job h cur) (liftDb m)
    (λ _, Spec.tracked job h cur) (λ _, Spec.tracked job h cur).
Proof.
  intros Hm. apply triple_liftDb. intros w (s & Hs & Hcur & Hh).
  destruct (Hm (db w)) as (Hscan & _ & Hhist).
  destruct (m (db w)) as [[a|e] d]; simpl in *;
    (exists s; simpl; split; [by rewrite Hscan | by rewrite Hhist]).
Qed.

Lemma tracked_createMany h cur rows E :
  Spec.triple (Spec.tracked job h cur) (liftDb (scanResult_createMany rows))
    (λ _, Spec.tracked job h cur) E.
Proof.
  apply triple_liftDb. intros w (s & Hs & Hcur & Hh).
  exists s. split; [done|]. split; [done|]. simpl.
  unfold statusHistory, record. simpl. rewrite statusHistory_app, Hh. simpl.
  by rewrite app_nil_r.
Qed.

Lemma tracked_refundAfterFailure h cur :
  Spec.triple (Spec.tracked job h cur) (refundAfterFailure env job)
    (λ _, Spec.tracked job h cur) (λ _, Spec.tracked job h cur).
Proof.
  unfold refundAfterFailure.
  eapply triple_tryCatch with (R := λ _, Spec.tracked job h cur);
    [|intros ?; by apply triple_ret].
  eapply triple_bind with (R := λ _, Spec.tracked job h cur).
  { apply triple_await_ok; [done|]. by apply tracked_sameScans. }
  intros [s|]; [|by apply triple_ret].
  destruct (Scan.totalUrls s) as [totalUrls|]; [|by apply triple_ret].
  case_match; [|by apply triple_ret].
  eapply triple_bind with (R := λ _, Spec.tracked job h cur).
  { apply triple_await_ok; [done|].
    apply tracked_sameScans. intros. apply refundCredits_sameScans. }
  intros []; cbv beta. by apply triple_ret.
Qed.

Lemma tracked_process h cur :
  Spec.triple (Spec.tracked job h cur) (process env job)
    (λ _, Spec.tracked job (h ++ [processing; success]) (Some success))
    (λ _, Spec.tracked job (h ++ [processing]) (Some processing)).
Proof.
  unfold process.
  eapply triple_bind;
    [apply triple_await_ok; [done | apply tracked_scan_update]|].
  intros []; cbv beta. simpl from_option.
  eapply triple_bind;
    [apply triple_await_ok; [done | apply triple_updateProgress, tracked_progress]|].
  intros []; cbv beta zeta. case_match; [by apply triple_throw|].
  eapply triple_bind;
    [apply triple_await_ok; [done | apply tracked_scan_update]|].
  intros []; cbv beta. simpl from_option. rewrite app_nil_r.
  eapply triple_bind;
    [apply triple_await_ok; [done | apply triple_updateProgress, tracked_progress]|].
  intros []; cbv beta. eapply triple_bind.
  { apply triple_await_ok; [done|].
    apply tracked_sameScans. intros. apply checkSufficientCredits_sameScans. }
  intros creditCheck; cbv beta. case_match; [by apply triple_throw|].
  eapply triple_bind.
  { apply triple_await_ok; [done|].
    apply tracked_sameScans. intros. apply deductCredits_sameScans. }
  intros ?; cbv beta. eapply triple_bind;
    [apply triple_await_ok; [done | apply triple_updateProgress, tracked_progress]|].
  intros []; cbv beta.
  eapply triple_bind; [apply triple_validate_inv, tracked_progress|].
  intros results; cbv beta. eapply triple_bind;
    [apply triple_await_ok; [done | apply triple_updateProgress, tracked_progress]|].
  intros []; cbv beta. eapply triple_bind;
    [apply triple_await_ok; [done | apply tracked_createMany]|].
  intros []; cbv beta zeta. eapply triple_bind;
    [apply triple_await_ok; [done | apply tracked_scan_update]|].
  intros []; cbv beta. simpl from_option. rewrite <- app_assoc.
  eapply triple_bind;
    [apply triple_await_ok; [done | apply triple_updateProgress, tracked_progress]|].
  intros []; cbv beta. by apply triple_ret.
Qed.

Lemma tracked_scanWorker h cur :
  Spec.triple (Spec.tracked job h cur) (scanWorker env job)
    (λ _, Spec.tracked job (h ++ [processing; success]) (Some success))
    (λ _, Spec.tracked job (h ++ [processing; failed]) (Some failed)).
Proof.
  unfold scanWorker.
  eapply triple_tryCatch; [apply tracked_process|]. intros error.
  eapply triple_bind;
    [apply triple_await_ok; [done | apply tracked_scan_update]|].
  intros []; cbv beta. simpl from_option. rewrite <- app_assoc.
  eapply triple_bind; [apply tracked_refundAfterFailure|].
  intros []; cbv beta. by apply triple_throw.
Qed.

(** ** The credits taken and given *)

Lemma charged_progress d i b t w pr :
  Spec.charged job d i b t w →
  Spec.charged job d i b t {| db := db w; queue := queue w; progress := pr |}.
Proof. done. Qed.

Lemma charged_scan_update d i b t data E :
  Spec.triple (Spec.charged job d i b t)
    (liftDb (scan_update (Job.scanId job) data))
    (λ _, Spec.charged job d i b (from_option Some t (Scan.setTotalUrls data))) E.
Proof.
  apply triple_liftDb. intros w (s & Hs & Ht & Hb & Hd & Hi).
  unfold scan_update. rewrite Hs.
  exists (Scan.apply data s). simpl. split; [by rewrite lookup_insert_eq|]. split.
  { intros n. destruct (Scan.setTotalUrls data) as [n'|]; simpl; [done | apply Ht]. }
  split; [done|]. unfold record.
  rewrite decrements_app, increments_app, Hd, Hi. simpl. by rewrite !app_nil_r.
Qed.

Lemma charged_createMany d i b t rows E :
  Spec.triple (Spec.charged job d i b t) (liftDb (scanResult_createMany rows))
    (λ _, Spec.charged job d i b t) E.
Proof.
  apply triple_liftDb. intros w (s & Hs & Ht & Hb & Hd & Hi).
  exists s. split; [done|]. split; [done|]. split; [done|]. simpl. unfold record.
  rewrite decrements_app, increments_app, Hd, Hi. simpl. by rewrite !app_nil_r.
Qed.

(** With a credit row in place the check reads and changes nothing. *)
Lemma charged_check d i b t required E :
  Spec.triple (Spec.charged job d i b t)
    (liftDb (CreditService.checkSufficientCredits (Job.userId job) required))
    (λ c w, Spec.charged job d i b t w ∧
            CreditService.hasSufficient c = bool_decide (b >= required) ∧
            CreditService.currentAmount c = b) E.
Proof.
  apply triple_liftDb. intros w (s & Hs & Ht & Hb & Hd & Hi).
  rewrite checkSufficientCredits_run. unfold Spec.balance. rewrite Hb.
  destruct w as [d0 q pr]. split; [by exists s | done].
Qed.

Lemma charged_deduct d i b t amount reason E :
  0 < amount → amount ≤ b →
  Spec.triple (Spec.charged job d i b t)
    (liftDb (CreditService.deductCredits (Job.userId job) amount reason))
    (λ _, Spec.charged job (d ++ [amount]) i (b - amount) t) E.
Proof.
  intros Hpos Hle. apply triple_liftDb. intros w (s & Hs & Ht & Hb & Hd & Hi).
  assert (Hbal : Spec.balance (db w) (Job.userId job) = b)
    by (unfold Spec.balance; by rewrite Hb).
  rewrite deductCredits_sufficient by lia. rewrite Hbal.
  exists s. split; [done|]. split; [done|]. simpl.
  split; [by rewrite lookup_insert_eq|].
  rewrite decrements_app, increments_app, Hd, Hi. simpl.
  rewrite decide_True by done. by rewrite app_nil_r.
Qed.

Lemma charged_refund d i b t amount reason related E :
  0 < amount → amount ≤ 10000 →
  Spec.triple (Spec.charged job d i b t)
    (liftDb (CreditService.refundCredits (Job.userId job) amount reason related))
    (λ _, Spec.charged job d (i ++ [amount]) (b + amount) t) E.
Proof.
  intros Hpos Hmax. apply triple_liftDb. intros w (s & Hs & Ht & Hb & Hd & Hi).
  assert (Hbal : Spec.balance (db w) (Job.userId job) = b)
    by (unfold Spec.balance; by rewrite Hb).
  rewrite refundCredits_accepted by lia. rewrite Hbal, Hb.
  exists s. split; [done|]. split; [done|]. simpl.
  split; [by rewrite lookup_insert_eq|].
  rewrite decrements_app, increments_app, Hd, Hi. simpl.
  rewrite decide_True by done. by rewrite app_nil_r.
Qed.

(** An attempt that can pay: it returns and takes [n] credits. *)
Lemma charged_scanWorker d i b t :
  let validation :=
    Sitemap.validateAndParseSitemap (parseURL env) (maxSitemapUrls env)
      (sitemapFetch env) (parseString env) (Job.sitemapUrl job) in
  let n := Z.of_nat (length (Sitemap.urls validation)) in
  Sitemap.isValid validation = true →
  n ≤ b →
  Spec.triple (Spec.charged job d i b t) (scanWorker env job)
    (λ _, Spec.charged job (d ++ [n]) i (b - n) (Some n)) (λ _ _, False).
Proof.
  intros validation n Hvalid Hle.
  pose proof (validateAndParseSitemap_valid _ _ _ _ _ Hvalid) as [Hpos _].
  unfold scanWorker.
  eapply triple_tryCatch with (R := λ _ _, False); [|by intros e w []].
  unfold process. fold validation. rewrite Hvalid. cbv zeta. fold n. simpl negb. cbv iota.
  eapply triple_bind;
    [apply triple_await_ok; [done | apply charged_scan_update]|].
  intros []; cbv beta. simpl from_option. eapply triple_bind;
    [apply triple_await_ok; [done | apply triple_updateProgress, charged_progress]|].
  intros []; cbv beta. eapply triple_bind;
    [apply triple_await_ok; [done | apply charged_scan_update]|].
  intros []; cbv beta. simpl from_option. eapply triple_bind;
    [apply triple_await_ok; [done | apply triple_updateProgress, charged_progress]|].
  intros []; cbv beta. eapply triple_bind;
    [apply triple_await_ok; [done | apply charged_check]|].
  intros creditCheck; cbv beta.
  destruct (CreditService.hasSufficient creditCheck); simpl negb; cbv iota.
  2: { intros w (_ & Hc & _). rewrite bool_decide_eq_true_2 in Hc by lia. done. }
  apply triple_pre with (P' := Spec.charged job d i b (Some n)); [by intros w [Hw _]|].
  eapply triple_bind;
    [apply triple_await_ok; [done | by apply charged_deduct]|].
  intros ?; cbv beta. eapply triple_bind;
    [apply triple_await_ok; [done | apply triple_updateProgress, charged_progress]|].
  intros []; cbv beta.
  eapply triple_bind; [apply triple_validate_inv, charged_progress|].
  intros results; cbv beta. eapply triple_bind;
    [apply triple_await_ok; [done | apply triple_updateProgress, charged_progress]|].
  intros []; cbv beta. eapply triple_bind;
    [apply triple_await_ok; [done | apply charged_createMany]|].
  intros []; cbv beta zeta. eapply triple_bind;
    [apply triple_await_ok; [done | apply charged_scan_update]|].
  intros []; cbv beta. simpl from_option. eapply triple_bind;
    [apply triple_await_ok; [done | apply triple_updateProgress, charged_progress]|].
  intros []; cbv beta. by apply triple_ret.
Qed.

(** The refund of the failure handler once the URL count [n] is persisted. *)
Lemma charged_refundAfterFailure d i b n :
  0 < n → n ≤ 10000 →
  Spec.triple (Spec.charged job d i b (Some n)) (refundAfterFailure env job)
    (λ _, Spec.charged job d (i ++ [n]) (b + n) (Some n)) (λ _ _, False).
Proof.
  intros Hpos Hmax. unfold refundAfterFailure.
  eapply triple_tryCatch with (R := λ _ _, False); [|by intros e w []].
  eapply triple_bind with
    (R := λ r w, Spec.charged job d i b (Some n) w ∧
                 ∃ s, r = Some s ∧ Scan.totalUrls s = Some n).
  { apply triple_await_ok; [done|]. apply triple_liftDb.
    intros w (s & Hs & Ht & Hrest). unfold scan_findUnique, gets. rewrite Hs.
    destruct w as [d0 q pr]. split; [by exists s|]. exists s. split; [done|].
    by apply Ht. }
  intros r. apply triple_pre with
    (P' := λ w, (∃ s, r = Some s ∧ Scan.totalUrls s = Some n) ∧
                Spec.charged job d i b (Some n) w); [by intros w [? ?]|].
  intros w [(s & -> & Htotal) Hw]. revert w Hw. rewrite Htotal.
  rewrite bool_decide_eq_true_2 by lia. rewrite bool_decide_eq_true_2 by lia.
  simpl andb. cbv iota.
  change (Spec.triple (Spec.charged job d i b (Some n))
            (await env RefundCredits
               (liftDb (CreditService.refundCredits (Job.userId job) n
                          ("scan_failure_" +:+ pretty (Job.scanId job))
                          (Some (Job.scanId job)))) ≫= λ _, mret tt)
            (λ _, Spec.charged job d (i ++ [n]) (b + n) (Some n)) (λ _ _, False)).
  eapply triple_bind;
    [apply triple_await_ok; [done | by apply charged_refund]|].
  intros ?; cbv beta. by apply triple_ret.
Qed.

(** An attempt that cannot pay: it throws, takes nothing and refunds [n]. *)
Lemma charged_scanWorker_insufficient d i b t :
  let validation :=
    Sitemap.validateAndParseSitemap (parseURL env) (maxSitemapUrls env)
      (sitemapFetch env) (parseString env) (Job.sitemapUrl job) in
  let n := Z.of_nat (length (Sitemap.urls validation)) in
  Sitemap.isValid validation = true →
  maxSitemapUrls env ≤ 10000 →
  b < n →
  Spec.triple (Spec.charged job d i b t) (scanWorker env job)
    (λ _ _, False)
    (λ e w, e = newError ("Insufficient credits. Required: " +:+ pretty n
                          +:+ ", Available: " +:+ pretty b) ∧
            Spec.charged job d (i ++ [n]) (b + n) (Some n) w).
Proof.
  intros validation n Hvalid Hmax Hlt.
  pose proof (validateAndParseSitemap_valid _ _ _ _ _ Hvalid) as [Hpos Hn].
  fold validation in Hpos, Hn. fold n in Hpos, Hn.
  unfold scanWorker.
  eapply triple_tryCatch with
    (R := λ e w, e = newError ("Insufficient credits. Required: " +:+ pretty n
                               +:+ ", Available: " +:+ pretty b) ∧
                 Spec.charged job d i b (Some n) w).
  - unfold process. fold validation. rewrite Hvalid. cbv zeta. fold n.
    simpl negb. cbv iota.
    eapply triple_bind;
      [apply triple_await_ok; [done | apply charged_scan_update]|].
    intros []; cbv beta. simpl from_option. eapply triple_bind;
      [apply triple_await_ok; [done | apply triple_updateProgress, charged_progress]|].
    intros []; cbv beta. eapply triple_bind;
      [apply triple_await_ok; [done | apply charged_scan_update]|].
    intros []; cbv beta. simpl from_option. eapply triple_bind;
      [apply triple_await_ok; [done | apply triple_updateProgress, charged_progress]|].
    intros []; cbv beta. eapply triple_bind;
      [apply triple_await_ok; [done | apply charged_check]|].
    intros creditCheck; cbv beta.
    destruct (CreditService.hasSufficient creditCheck); simpl negb; cbv iota.
    { intros w (_ & Hc & _). rewrite bool_decide_eq_false_2 in Hc by lia. done. }
    apply triple_throw. intros w (Hw & _ & ->). by split.
  - intros error.
    apply triple_pre with
      (P' := λ w, error = newError ("Insufficient credits. Required: " +:+ pretty n
                                    +:+ ", Available: " +:+ pretty b) ∧
                  Spec.charged job d i b (Some n) w); [done|].
    eapply triple_bind with
      (R := λ _ w, error = newError ("Insufficient credits. Required: " +:+ pretty n
                                     +:+ ", Available: " +:+ pretty b) ∧
                   Spec.charged job d i b (Some n) w).
    { apply triple_await_ok; [done|].
      intros w [He Hw]. pose proof (charged_scan_update d i b (Some n)
        {| Scan.setStatus := Some failed; Scan.setTotalUrls := None;
           Scan.setFinishedAt := Some (now env);
           Scan.setErrorMsg := Some (errMessage error) |} (λ _ _, False) w Hw) as H.
      destruct (liftDb _ w) as [[[]|e] w']; [by split | done]. }
    intros []; cbv beta.
    eapply triple_bind with
      (R := λ _ w, error = newError ("Insufficient credits. Required: " +:+ pretty n
                                     +:+ ", Available: " +:+ pretty b) ∧
                   Spec.charged job d (i ++ [n]) (b + n) (Some n) w).
    { intros w [He Hw].
      pose proof (charged_refundAfterFailure d i b n Hpos ltac:(lia) w Hw) as H.
      destruct (refundAfterFailure env job w) as [[[]|e] w']; [by split | done]. }
    intros []; cbv beta. by apply triple_throw.
Qed.

End FaultFree.

(* ===================================================================== *)
(** * Cancellation                                                        *)
(* ===================================================================== *)

Section Cancellation.
Import Prisma ScanService.

Lemma cancelScan_terminal now db id u s :
  scan db !! id = Some s → Scan.userId s = u →
  Spec.terminal (Scan.status s) = true →
  cancelScan now id u db =
    (Throw (mkError ConflictError
              ("Cannot cancel scan with status: " +:+ statusName (Scan.status s))),
     db).
Proof.
  intros Hs Hu Hterm.
  unfold cancelScan, tryCatch, mbind, M_bind, scan_findFirst, gets, throw.
  rewrite Hs, decide_True by done.
  by destruct (Scan.status s).
Qed.

Lemma cancelScan_running now db id u s :
  scan db !! id = Some s → Scan.userId s = u →
  Spec.terminal (Scan.status s) = false →
  ∃ db',
    cancelScan now id u db = (Ok true, db') ∧
    Scan.status <$> scan db' !! id = Some failed ∧
    statusHistory id db' = statusHistory id db ++ [failed].
Proof.
  intros Hs Hu Hterm.
  unfold cancelScan, tryCatch, mbind, M_bind, scan_findFirst, gets, throw, scan_update.
  rewrite Hs, decide_True by done.
  destruct (Scan.status s) eqn:Hst; try done; simpl; rewrite Hs; simpl;
    (eexists; split; [reflexivity|]; simpl; split;
     [by rewrite lookup_insert_eq
     |unfold statusHistory, record; simpl; rewrite statusHistory_app; simpl;
      by rewrite decide_True]).
Qed.

End Cancellation.

(* ===================================================================== *)
(** * The life of a scan                                                  *)
(* ===================================================================== *)

Section Lifecycle.
Import Prisma ScanQueue.

(** [createScan] persists the scan as pending with a URL count of zero and
    queues its job. *)
Lemma createScan_pending :
  ScanService.createScan Scenario.sampleURL
    (λ _, Sitemap.Response true 200 "OK" "") (λ _, None)
    7 "https://example.com/sitemap.xml" (Scenario.signedUp 9)
  = (Ok (1, 0), Scenario.start 9).
Proof. reflexivity. Qed.

(** Whenever an attempt that meets no failure of the infrastructure resolves
    the sitemap to more URLs than the user has credits, it throws the
    insufficient-credits error, deducts nothing and refunds the URL count. *)
Lemma refund_without_deduction env job w b :
  let validation :=
    Sitemap.validateAndParseSitemap (parseURL env) (maxSitemapUrls env)
      (sitemapFetch env) (parseString env) (Job.sitemapUrl job) in
  let n := Z.of_nat (length (Sitemap.urls validation)) in
  (∀ c, faults env c = None) →
  Sitemap.isValid validation = true →
  maxSitemapUrls env ≤ 10000 →
  is_Some (scan (db w) !! Job.scanId job) →
  credit (db w) !! Job.userId job = Some b →
  b < n →
  ∃ w',
    scanWorker env job w =
      (Throw (newError ("Insufficient credits. Required: " +:+ pretty n
                        +:+ ", Available: " +:+ pretty b)), w') ∧
    decrements (Job.userId job) (writes (db w'))
      = decrements (Job.userId job) (writes (db w)) ∧
    increments (Job.userId job) (writes (db w'))
      = increments (Job.userId job) (writes (db w)) ++ [n] ∧
    credit (db w') !! Job.userId job = Some (b + n).
Proof.
  intros validation n Hnf Hvalid Hmax [s Hs] Hb Hlt.
  assert (Hw : Spec.charged job (decrements (Job.userId job) (writes (db w)))
                 (increments (Job.userId job) (writes (db w))) b None w)
    by (by exists s).
  pose proof (charged_scanWorker_insufficient env job Hnf _ _ b None
                Hvalid Hmax Hlt w Hw) as H.
  destruct (scanWorker env job w) as [[completed|e] w']; [done|].
  destruct H as (-> & s' & _ & _ & Hb' & Hd' & Hi'). by exists w'.
Qed.

(** C1, at the failing input.  The sitemap resolves to five URLs and the
    user holds two credits: the scan ends failed with the message naming
    the required and the available amount and no credit was deducted, yet
    the failure handler, which goes by the persisted URL count, refunds five
    credits: the balance ends at seven. *)
Theorem insufficient_credits_are_refunded :
  let '(r, w') :=
    scanWorker (Scenario.env Scenario.five Scenario.noFaults) Scenario.job
      (Scenario.start 2) in
  r = Throw (newError "Insufficient credits. Required: 5, Available: 2") ∧
  Scan.status <$> scan (db w') !! 1 = Some failed ∧
  scan (db w') !! 1 ≫= Scan.errorMsg
    = Some "Insufficient credits. Required: 5, Available: 2" ∧
  scan (db w') !! 1 ≫= Scan.totalUrls = Some 5 ∧
  decrements 7 (writes (db w')) = [] ∧
  increments 7 (writes (db w')) = [5] ∧
  credit (db w') !! 7 = Some 7.
Proof. vm_compute. repeat split. Qed.

(** C2 (as the code has it).  [cancelScan] by the owner refuses a scan whose
    status is terminal and changes nothing, and it takes a pending or
    processing scan to failed.  One attempt of the worker that meets no
    failure of the infrastructure writes processing and then one terminal
    status, success when it returns and failed when it throws, whatever the
    status of the scan was before. *)
Theorem status_steps_of_one_operation :
  (∀ now db id u s,
     scan db !! id = Some s → Scan.userId s = u →
     if Spec.terminal (Scan.status s)
     then ∃ e, ScanService.cancelScan now id u db = (Throw e, db) ∧
               errClass e = ConflictError
     else ∃ db', ScanService.cancelScan now id u db = (Ok true, db') ∧
                 Scan.status <$> scan db' !! id = Some failed ∧
                 statusHistory id db' = statusHistory id db ++ [failed]) ∧
  (∀ env job w,
     (∀ c, faults env c = None) →
     is_Some (scan (db w) !! Job.scanId job) →
     let '(r, w') := scanWorker env job w in
     let final := if isOk r then success else failed in
     statusHistory (Job.scanId job) (db w')
       = statusHistory (Job.scanId job) (db w) ++ [processing; final] ∧
     Scan.status <$> scan (db w') !! Job.scanId job = Some final).
Proof.
  split.
  - intros now db id u s Hs Hu.
    destruct (Spec.terminal (Scan.status s)) eqn:Hterm.
    + eexists. split; [by apply cancelScan_terminal|]. done.
    + by apply cancelScan_running with (s := s).
  - intros env job w Hnf [s Hs].
    assert (Hw : Spec.tracked job (statusHistory (Job.scanId job) (db w)) None w).
    { exists s. by repeat split. }
    pose proof (tracked_scanWorker env job Hnf _ _ w Hw) as H.
    destruct (scanWorker env job w) as [[a|e] w']; simpl;
      destruct H as (s' & Hs' & Hcur & Hh); (split; [done|]);
      rewrite Hs'; simpl; f_equal; by apply Hcur.
Qed.

Lemma status_steps_of_one_operation_witness :
  let w := Scenario.start 9 in
  let env := Scenario.env Scenario.five Scenario.noFaults in
  (∀ c, faults env c = None) ∧
  is_Some (scan (db w) !! Job.scanId Scenario.job) ∧
  (let '(r, w') := scanWorker env Scenario.job w in
   let final := if isOk r then success else failed in
   statusHistory (Job.scanId Scenario.job) (db w')
     = statusHistory (Job.scanId Scenario.job) (db w) ++ [processing; final] ∧
   Scan.status <$> scan (db w') !! Job.scanId Scenario.job = Some final) ∧
  (∃ db', ScanService.cancelScan 500 1 7 (db w) = (Ok true, db') ∧
          Scan.status <$> scan db' !! 1 = Some failed ∧
          statusHistory 1 db' = statusHistory 1 (db w) ++ [failed]).
Proof.
  intros w env.
  assert (Hnf : ∀ c, faults env c = None) by reflexivity.
  assert (Hs : is_Some (scan (db w) !! Job.scanId Scenario.job)) by (eexists; reflexivity).
  destruct status_steps_of_one_operation as [Hcancel Hworker].
  split; [exact Hnf|]. split; [exact Hs|].
  split; [exact (Hworker env Scenario.job w Hnf Hs)|].
  exact (Hcancel 500 (db w) 1 7
           {| Scan.userId := 7; Scan.sitemapUrl := "https://example.com/sitemap.xml";
              Scan.status := pending; Scan.totalUrls := Some 0;
              Scan.finishedAt := None; Scan.errorMsg := None |} eq_refl eq_refl).
Defined.

(** C2, where the claim fails: a pending scan is cancelled, which makes it
    failed, and the job that was queued for it then runs: the worker takes
    the failed scan back to processing and on to success. *)
Lemma cancelled_scan_is_processed :
  let w0 := Scenario.start 9 in
  let w1 := (liftDb (ScanService.cancelScan 500 1 7) w0).2 in
  let w2 :=
    (scanWorker (Scenario.env Scenario.five Scenario.noFaults) Scenario.job w1).2 in
  statusHistory 1 (db w1) = [pending; failed] ∧
  statusHistory 1 (db w2) = [pending; failed; processing; success] ∧
  ¬ (statusHistory 1 (db w2) `prefix_of` [pending; processing; success]) ∧
  ¬ (statusHistory 1 (db w2) `prefix_of` [pending; processing; failed]).
Proof.
  intros w0 w1 w2.
  assert (H2 : statusHistory 1 (db w2) = [pending; failed; processing; success])
    by (vm_compute; reflexivity).
  split; [vm_compute; reflexivity|]. split; [exact H2|].
  rewrite H2. split; intros [k Hk]; discriminate Hk.
Qed.

(** The same with a retry and no cancellation: the first attempt cannot
    fetch the sitemap and fails the scan, the second attempt takes it from
    failed to processing and success. *)
Lemma retried_scan_leaves_failed :
  let w' :=
    (runJob Scenario.unreachable [Scenario.env Scenario.five Scenario.noFaults]
       Scenario.job (Scenario.start 9)).2 in
  statusHistory 1 (db w') = [pending; processing; failed; processing; success].
Proof. vm_compute. reflexivity. Qed.

(** Within one attempt: when the last progress update fails after the scan
    was marked success, the handler marks it failed and refunds. *)
Lemma success_then_failed :
  let w' :=
    (scanWorker
       (Scenario.env Scenario.five (Scenario.faultAt Progress100 "Connection is closed."))
       Scenario.job (Scenario.start 9)).2 in
  statusHistory 1 (db w') = [pending; processing; success; failed] ∧
  length (scanResult (db w')) = 5%nat ∧
  credit (db w') !! 7 = Some 9.
Proof. vm_compute. repeat split. Qed.

(** C3 (as the code has it).  An attempt does not look at what earlier
    attempts did: whatever has been taken from the user before, an attempt
    that meets no failure of the infrastructure, resolves the sitemap to [n]
    URLs and finds a balance of at least [n] returns and takes [n] credits,
    once. *)
Theorem every_attempt_deducts env job w b :
  let validation :=
    Sitemap.validateAndParseSitemap (parseURL env) (maxSitemapUrls env)
      (sitemapFetch env) (parseString env) (Job.sitemapUrl job) in
  let n := Z.of_nat (length (Sitemap.urls validation)) in
  (∀ c, faults env c = None) →
  Sitemap.isValid validation = true →
  is_Some (scan (db w) !! Job.scanId job) →
  credit (db w) !! Job.userId job = Some b →
  n ≤ b →
  ∃ completed w',
    scanWorker env job w = (Ok completed, w') ∧
    decrements (Job.userId job) (writes (db w'))
      = decrements (Job.userId job) (writes (db w)) ++ [n] ∧
    credit (db w') !! Job.userId job = Some (b - n).
Proof.
  intros validation n Hnf Hvalid Hs Hb Hle.
  destruct Hs as [s Hs].
  assert (Hw : Spec.charged job (decrements (Job.userId job) (writes (db w)))
                 (increments (Job.userId job) (writes (db w))) b None w)
    by (by exists s).
  pose proof (charged_scanWorker env job Hnf _ _ b None Hvalid Hle w Hw) as H.
  destruct (scanWorker env job w) as [[completed|e] w']; [|done].
  destruct H as (s' & _ & _ & Hb' & Hd' & _). by exists completed, w'.
Qed.

Lemma every_attempt_deducts_witness :
  let env := Scenario.env Scenario.five Scenario.noFaults in
  let failing :=
    Scenario.env Scenario.five
      (Scenario.faultAt CreateResults "Connection terminated unexpectedly") in
  let w := (scanWorker failing Scenario.job (Scenario.start 9)).2 in
  (∀ c, faults env c = None) ∧
  decrements 7 (writes (db w)) = [5] ∧
  credit (db w) !! 7 = Some 9 ∧
  5 ≤ 9 ∧
  ∃ completed w',
    scanWorker env Scenario.job w = (Ok completed, w') ∧
    decrements 7 (writes (db w')) = [5; 5] ∧
    credit (db w') !! 7 = Some 4.
Proof.
  intros env failing w.
  assert (Hnf : ∀ c, faults env c = None) by reflexivity.
  assert (Hvalid :
    Sitemap.isValid
      (Sitemap.validateAndParseSitemap (parseURL env) (maxSitemapUrls env)
         (sitemapFetch env) (parseString env) (Job.sitemapUrl Scenario.job)) = true)
    by reflexivity.
  assert (Hs : is_Some (scan (db w) !! Job.scanId Scenario.job))
    by (eexists; vm_compute; reflexivity).
  assert (Hb : credit (db w) !! Job.userId Scenario.job = Some 9)
    by (vm_compute; reflexivity).
  assert (Hd : decrements 7 (writes (db w)) = [5]) by (vm_compute; reflexivity).
  assert (Hle : Z.of_nat (length (Sitemap.urls
            (Sitemap.validateAndParseSitemap (parseURL env) (maxSitemapUrls env)
               (sitemapFetch env) (parseString env) (Job.sitemapUrl Scenario.job)))) ≤ 9)
    by (vm_compute; discriminate).
  destruct (every_attempt_deducts env Scenario.job w 9 Hnf Hvalid Hs Hb Hle)
    as (completed & w' & Hrun & Hdec & Hcredit).
  split; [exact Hnf|]. split; [exact Hd|]. split; [exact Hb|]. split; [lia|].
  exists completed, w'. split; [exact Hrun|]. split; [|exact Hcredit].
  etrans; [exact Hdec|]. simpl Job.userId. rewrite Hd. reflexivity.
Defined.

(** C3, where the claim fails.  The first attempt deducts five credits for
    the five URLs and then fails to store the results; the queue runs the job
    again and the second attempt deducts five credits once more.  In the first
    run below the failed attempt refunds its five credits in between; in the
    second the refund fails as well (the handler swallows that), and the user
    has paid ten credits for a scan of five URLs. *)
Lemma retry_deducts_twice :
  let retried := [Scenario.env Scenario.five Scenario.noFaults] in
  let refunded :=
    runJob
      (Scenario.env Scenario.five
         (Scenario.faultAt CreateResults "Connection terminated unexpectedly"))
      retried Scenario.job (Scenario.start 9) in
  let unrefunded :=
    runJob (Scenario.env Scenario.five Scenario.databaseDown)
      retried Scenario.job (Scenario.start 12) in
  Z.of_nat (length Scenario.five) = 5 ∧
  (isOk refunded.1 = true ∧
   decrements 7 (writes (db refunded.2)) = [5; 5] ∧
   sum (decrements 7 (writes (db refunded.2))) = 10 ∧
   increments 7 (writes (db refunded.2)) = [5] ∧
   credit (db refunded.2) !! 7 = Some 4) ∧
  (isOk unrefunded.1 = true ∧
   decrements 7 (writes (db unrefunded.2)) = [5; 5] ∧
   increments 7 (writes (db unrefunded.2)) = [] ∧
   credit (db unrefunded.2) !! 7 = Some 2).
Proof. vm_compute. repeat split. Qed.

End Lifecycle.

(* ===================================================================== *)
(** * The messages of one result                                          *)
(* ===================================================================== *)

Section Messages.
Import W3C.

Lemma sortMessages_filter msgs :
  ∀ errors warnings,
    sortMessages msgs errors warnings =
      (errors ++ map processMessage (filter (λ m, Spec.isErrorMessage m = true) msgs),
       warnings ++ map processMessage (filter (λ m, Spec.isWarningMessage m = true) msgs)).
Proof.
  induction msgs as [|m msgs IH]; intros es ws; simpl.
  - by rewrite !app_nil_r.
  - destruct (decide (Nu.type m = Some "error")) as [Herr|Herr].
    + rewrite bool_decide_eq_true_2 by done.
      rewrite filter_cons_True
        by (unfold Spec.isErrorMessage; by rewrite bool_decide_eq_true_2).
      rewrite filter_cons_False
        by (unfold Spec.isWarningMessage; by rewrite Herr).
      rewrite IH. simpl. by rewrite <- app_assoc.
    + rewrite bool_decide_eq_false_2 by done.
      rewrite (filter_cons_False (λ m, Spec.isErrorMessage m = true))
        by (unfold Spec.isErrorMessage; by rewrite bool_decide_eq_false_2).
      destruct (bool_decide (Nu.type m = Some "info")
                && bool_decide (Nu.subType m = Some "warning")) eqn:Hwarn.
      * rewrite filter_cons_True by done.
        rewrite IH. simpl. by rewrite <- app_assoc.
      * rewrite filter_cons_False by (unfold Spec.isWarningMessage; by rewrite Hwarn).
        by rewrite IH.
Qed.

Lemma error_or_warning msgs :
  (length (filter (λ m, Spec.isErrorMessage m = true) msgs)
   + length (filter (λ m, Spec.isWarningMessage m = true) msgs) ≤ length msgs)%nat.
Proof.
  induction msgs as [|m msgs IH]; [done|].
  destruct (decide (Nu.type m = Some "error")) as [Herr|Herr].
  - rewrite filter_cons_True
      by (unfold Spec.isErrorMessage; by rewrite bool_decide_eq_true_2).
    rewrite filter_cons_False
      by (unfold Spec.isWarningMessage; by rewrite Herr).
    simpl. lia.
  - rewrite (filter_cons_False (λ m, Spec.isErrorMessage m = true))
      by (unfold Spec.isErrorMessage; by rewrite bool_decide_eq_false_2).
    rewrite filter_cons. case_decide; simpl; lia.
Qed.

Lemma processW3CResult_messages w3cResult url :
  errors (processW3CResult w3cResult url)
    = map processMessage
        (filter (λ m, Spec.isErrorMessage m = true) (default [] (Nu.messages w3cResult))) ∧
  warnings (processW3CResult w3cResult url)
    = map processMessage
        (filter (λ m, Spec.isWarningMessage m = true) (default [] (Nu.messages w3cResult))).
Proof.
  unfold processW3CResult. destruct (Nu.messages w3cResult) as [msgs|]; simpl; [|done].
  by rewrite sortMessages_filter.
Qed.

(** X1.  The errors of a processed result are the checker's messages of type
    [error], in the order of the response, and its warnings the messages of
    type [info] with subtype [warning]; every other message is dropped, and
    the two counts of the [summary] are the lengths of the two lists. *)
Theorem processW3CResult_sorts_messages w3cResult url :
  let msgs := default [] (Nu.messages w3cResult) in
  let r := processW3CResult w3cResult url in
  errors r = map processMessage (filter (λ m, Spec.isErrorMessage m = true) msgs) ∧
  warnings r = map processMessage (filter (λ m, Spec.isWarningMessage m = true) msgs) ∧
  errorCount (summary r) = Z.of_nat (length (errors r)) ∧
  warningCount (summary r) = Z.of_nat (length (warnings r)) ∧
  (length (errors r) + length (warnings r) ≤ length msgs)%nat.
Proof.
  intros msgs r. destruct (processW3CResult_messages w3cResult url) as [He Hw].
  subst r. split; [exact He|]. split; [exact Hw|]. rewrite He, Hw.
  split; [|split].
  - unfold processW3CResult.
    by destruct (Nu.messages w3cResult) as [l|]; [rewrite sortMessages_filter|].
  - unfold processW3CResult.
    by destruct (Nu.messages w3cResult) as [l|]; [rewrite sortMessages_filter|].
  - rewrite !length_map. apply error_or_warning.
Qed.

(** X2.  Every error of a processed result has type [error] and carries a
    severity; every warning has type [info] and severity medium, whatever
    the checker sent. *)
Theorem processW3CResult_severities w3cResult url :
  let r := processW3CResult w3cResult url in
  Forall (λ m, type m = "error" ∧ is_Some (severity m)) (errors r) ∧
  Forall (λ m, type m = "info" ∧ severity m = Some medium) (warnings r).
Proof.
  destruct (processW3CResult_messages w3cResult url) as [He Hw].
  cbv zeta. rewrite He, Hw.
  split; apply Forall_forall; intros m Hm;
    apply list_elem_of_fmap in Hm as (nu & -> & Hnu);
    apply list_elem_of_filter in Hnu as [Hnu _].
  - unfold Spec.isErrorMessage in Hnu. apply bool_decide_eq_true in Hnu.
    unfold processMessage. simpl. rewrite Hnu. by split.
  - unfold Spec.isWarningMessage in Hnu. apply andb_true_iff in Hnu as [Ht Hs].
    apply bool_decide_eq_true in Ht, Hs.
    unfold processMessage. simpl. by rewrite Ht, Hs.
Qed.

End Messages.

(* ===================================================================== *)
(** * The tallies by type of message                                      *)
(* ===================================================================== *)

Section TypeTallies.
Import W3C.

Lemma tallyOf_snoc key ms m :
  Spec.tallyOf key (ms ++ [m])
  = Spec.tallyOf key ms + (if decide (Spec.typeKey m = key) then 1 else 0).
Proof.
  unfold Spec.tallyOf. rewrite filter_app, length_app, filter_cons, filter_nil.
  case_decide; simpl; lia.
Qed.

Lemma tallyOf_nonneg key ms : 0 ≤ Spec.tallyOf key ms.
Proof. unfold Spec.tallyOf. lia. Qed.

(** One more message under its key. *)
Lemma countType_tallied types ms m :
  (∀ key, types !! key = Spec.tallied key ms) →
  ∀ key, countType (Spec.typeKey m) types !! key = Spec.tallied key (ms ++ [m]).
Proof.
  intros Htypes key. unfold countType.
  pose proof (tallyOf_nonneg key ms) as Hpos.
  pose proof (tallyOf_snoc key ms m) as Hsnoc.
  destruct (decide (Spec.typeKey m = key)) as [Hkey|Hne].
  2: { assert (Hsame : Spec.tallied key (ms ++ [m]) = Spec.tallied key ms).
       { unfold Spec.tallied. rewrite Hsnoc. by rewrite Z.add_0_r. }
       rewrite Hsame. case_decide; [apply Htypes|].
       by rewrite lookup_insert_ne. }
  rewrite Hkey. clear Hkey. specialize (Htypes key).
  unfold Spec.tallied in *. rewrite Hsnoc. clear Hsnoc.
  rewrite (decide_False (P := Spec.tallyOf key ms + 1 = 0)) by lia.
  set (n := Spec.tallyOf key ms) in *.
  destruct (decide (key = "__proto__")) as [->|Hproto].
  { rewrite Htypes. by case_decide. }
  rewrite lookup_insert_eq, Htypes.
  destruct (Js.inherited key) as [rendered|].
  - case_decide as Hzero.
    + by rewrite Hzero.
    + replace (Z.to_nat (n + 1)) with (S (Z.to_nat n)) by lia.
      rewrite decide_False; [done|].
      destruct (Z.to_nat n) as [|k] eqn:Hk; [lia|]. simpl.
      by destruct (Spec.followedByOnes rendered k).
  - case_decide as Hzero; [by rewrite Hzero|].
    by rewrite decide_False.
Qed.

Lemma types_countErrors errs :
  ∀ s ms,
    (∀ key, Summary.errorTypes s !! key = Spec.tallied key ms) →
    let s' := foldl countError s errs in
    (∀ key, Summary.errorTypes s' !! key = Spec.tallied key (ms ++ errs)) ∧
    Summary.warningTypes s' = Summary.warningTypes s ∧
    Summary.totalWarnings s' = Summary.totalWarnings s.
Proof.
  induction errs as [|m errs IH]; intros s ms Hs; simpl.
  - by rewrite app_nil_r.
  - destruct (IH (countError s m) (ms ++ [m])) as (He & -> & ->).
    { simpl. by apply countType_tallied. }
    split; [|done]. intros key. by rewrite He, <- app_assoc.
Qed.

Lemma types_countWarnings ws :
  ∀ s ms,
    (∀ key, Summary.warningTypes s !! key = Spec.tallied key ms) →
    let s' := foldl countWarning s ws in
    (∀ key, Summary.warningTypes s' !! key = Spec.tallied key (ms ++ ws)) ∧
    Summary.errorTypes s' = Summary.errorTypes s ∧
    Summary.totalWarnings s' = Summary.totalWarnings s.
Proof.
  induction ws as [|m ws IH]; intros s ms Hs; simpl.
  - by rewrite app_nil_r.
  - destruct (IH (countWarning s m) (ms ++ [m])) as (Hw & -> & ->).
    { simpl. by apply countType_tallied. }
    split; [|done]. intros key. by rewrite Hw, <- app_assoc.
Qed.

Lemma types_countResult s r es ws :
  (∀ key, Summary.errorTypes s !! key = Spec.tallied key es) →
  (∀ key, Summary.warningTypes s !! key = Spec.tallied key ws) →
  let s' := countResult s r in
  (∀ key, Summary.errorTypes s' !! key = Spec.tallied key (es ++ errors r)) ∧
  (∀ key, Summary.warningTypes s' !! key = Spec.tallied key (ws ++ warnings r)) ∧
  Summary.totalWarnings s'
    = Summary.totalWarnings s + Z.of_nat (length (warnings r)).
Proof.
  intros He Hw. unfold countResult.
  destruct (types_countErrors (errors r) (countValidity s r) es He)
    as (He1 & Hw1 & Ht1).
  destruct (types_countWarnings (warnings r)
              (foldl countError (countValidity s r) (errors r)) ws)
    as (Hw2 & He2 & Ht2).
  { intros key. by rewrite Hw1. }
  cbv zeta. split; [intros key; by rewrite He2|]. split; [done|].
  by rewrite Ht2, Ht1.
Qed.

Lemma types_countResults results :
  ∀ s es ws,
    (∀ key, Summary.errorTypes s !! key = Spec.tallied key es) →
    (∀ key, Summary.warningTypes s !! key = Spec.tallied key ws) →
    let s' := foldl countResult s results in
    (∀ key, Summary.errorTypes s' !! key
            = Spec.tallied key (es ++ Spec.allErrors results)) ∧
    (∀ key, Summary.warningTypes s' !! key
            = Spec.tallied key (ws ++ Spec.allWarnings results)) ∧
    Summary.totalWarnings s'
      = Summary.totalWarnings s + Z.of_nat (length (Spec.allWarnings results)).
Proof.
  induction results as [|r results IH]; intros s es ws He Hw.
  - simpl. rewrite !app_nil_r. repeat split; [done..|]. unfold Spec.allWarnings. simpl. lia.
  - destruct (types_countResult s r es ws He Hw) as (He1 & Hw1 & Ht1).
    destruct (IH (countResult s r) (es ++ errors r) (ws ++ warnings r) He1 Hw1)
      as (He2 & Hw2 & Ht2).
    cbn [foldl]. cbv zeta in *.
    unfold Spec.allErrors, Spec.allWarnings in *. cbn [map concat].
    rewrite !app_assoc. split; [done|]. split; [done|].
    rewrite Ht2, Ht1. rewrite length_app. lia.
Qed.

Lemma summary_errorTypes (results : list ValidationResult) key :
  Summary.errorTypes (generateValidationSummary results) !! key
  = Spec.tallied key (Spec.allErrors results).
Proof.
  unfold generateValidationSummary. cbn [Summary.errorTypes].
  match goal with |- context [foldl countResult ?s0 results] =>
    destruct (types_countResults results s0 [] []) as (He & _)
  end; [done..|].
  apply He.
Qed.

(** X3.  In the aggregate summary there is no entry of [errorTypes] for a
    type without error.  For a type with errors that is not the name of a
    property of [Object.prototype], the entry is the number of the errors of
    that type in all the results (an empty type counting as [unknown]).  For
    a type that is such a name the tally is lost: under [__proto__] there is
    no entry, and under the other names ([constructor], [toString], ...) the
    entry is a string, the inherited value followed by a [1] for every
    error.  [warningTypes] tallies the warnings in the same way, and
    [totalWarnings] is the number of warnings. *)
Theorem summary_tallies_by_type (results : list ValidationResult) :
  let s := generateValidationSummary results in
  (∀ key, Summary.errorTypes s !! key = Spec.tallied key (Spec.allErrors results)) ∧
  (∀ key, Summary.warningTypes s !! key = Spec.tallied key (Spec.allWarnings results)) ∧
  (∀ key n, Summary.errorTypes s !! key = Some (Js.Num n) →
            Js.inherited key = None ∧ 0 < n ∧
            n = Spec.tallyOf key (Spec.allErrors results)) ∧
  Summary.errorTypes s !! "__proto__" = None ∧
  Summary.totalWarnings s = Z.of_nat (length (Spec.allWarnings results)).
Proof.
  intros s. subst s. unfold generateValidationSummary.
  cbn [Summary.errorTypes Summary.warningTypes Summary.totalWarnings].
  match goal with |- context [foldl countResult ?s0 results] =>
    destruct (types_countResults results s0 [] []) as (He & Hw & Ht)
  end; [done..|].
  simpl in He, Hw, Ht. split; [exact He|]. split; [exact Hw|].
  split; [|split; [|exact Ht]].
  - intros key n. rewrite He. unfold Spec.tallied.
    pose proof (tallyOf_nonneg key (Spec.allErrors results)).
    case_decide; [done|]. destruct (Js.inherited key); [by case_decide|].
    intros [= <-]. split; [done|]. lia.
  - rewrite He. unfold Spec.tallied. by case_decide.
Qed.

End TypeTallies.

(* ===================================================================== *)
(** * Invalid pages and errors                                            *)
(* ===================================================================== *)

Lemma invalid_and_errors (results : list W3C.ValidationResult) :
  Forall Spec.consistent results →
  (length (filter (λ r, W3C.isValid r = false) results)
   ≤ length (Spec.allErrors results))%nat ∧
  (length (filter (λ r, W3C.isValid r = false) results) = 0%nat
   ↔ length (Spec.allErrors results) = 0%nat).
Proof.
  induction 1 as [|r results Hr _ [IH1 IH2]]; [done|].
  unfold Spec.allErrors in *. simpl. rewrite length_app.
  unfold Spec.consistent in Hr. destruct (W3C.errors r) as [|m errs] eqn:Herrs.
  - by rewrite filter_cons_False by (by rewrite Hr).
  - rewrite filter_cons_True by (by rewrite Hr). simpl. split; lia.
Qed.

(** X4.  When every result is consistent ([isValid] says that there is no
    error, as the validator's results are), the summary counts at least one
    error for every invalid page: [invalid ≤ totalErrors], no page is invalid
    exactly when there is no error at all, and then every page is valid. *)
Theorem invalid_pages_have_errors (results : list W3C.ValidationResult) :
  Forall Spec.consistent results →
  let s := W3C.generateValidationSummary results in
  W3C.Summary.invalid s ≤ W3C.Summary.totalErrors s ∧
  (W3C.Summary.invalid s = 0 ↔ W3C.Summary.totalErrors s = 0) ∧
  (W3C.Summary.valid s = W3C.Summary.total s ↔ W3C.Summary.totalErrors s = 0).
Proof.
  intros Hc s. destruct (invalid_and_errors results Hc) as [Hle Hzero].
  pose proof (valid_invalid_partition results) as Hpart.
  subst s. unfold W3C.generateValidationSummary.
  match goal with |- context [foldl W3C.countResult ?s0 results] =>
    destruct (countResults_fields results s0) as (Ht & Hv & Hi & He & _);
    set (f := foldl W3C.countResult s0 results) in *
  end.
  cbn [W3C.Summary.total W3C.Summary.valid W3C.Summary.invalid
       W3C.Summary.totalErrors] in *.
  lia.
Qed.

Lemma invalid_pages_have_errors_witness :
  Forall Spec.consistent [Scenario.validPage; Scenario.invalidPage] ∧
  let s := W3C.generateValidationSummary [Scenario.validPage; Scenario.invalidPage] in
  W3C.Summary.invalid s ≤ W3C.Summary.totalErrors s ∧
  (W3C.Summary.invalid s = 0 ↔ W3C.Summary.totalErrors s = 0) ∧
  (W3C.Summary.valid s = W3C.Summary.total s ↔ W3C.Summary.totalErrors s = 0).
Proof.
  assert (H : Forall Spec.consistent [Scenario.validPage; Scenario.invalidPage])
    by (repeat constructor).
  split; [exact H|].
  exact (invalid_pages_have_errors [Scenario.validPage; Scenario.invalidPage] H).
Defined.

(* ===================================================================== *)
(** * A progress callback that throws                                     *)
(* ===================================================================== *)

Section ThrowingCallback.

Variable fetch : string → W3C.Fetched.
Variable callback : W3C.Progress → Result unit.
Variable e : Error.

(** The callback throws at the notification of a success and returns at the
    notification of a failure. *)
Hypothesis rejects_success : ∀ p, W3C.error p = None → callback p = Throw e.
Hypothesis accepts_failure : ∀ p, W3C.error p ≠ None → callback p = Ok tt.

Lemma iteration_recorded n i url st :
  ∃ ps,
    W3C.iteration fetch (Some callback) n i url st =
      (Ok tt, {| W3C.results := W3C.results st ++ Spec.recordedWith fetch e url;
                 W3C.calls := W3C.calls st ++ ps |}) ∧
    length ps = length (Spec.recordedWith fetch e url).
Proof.
  unfold W3C.iteration, tryCatch, mbind, M_bind, liftResult, W3C.pushResult,
    W3C.notify, modify, Spec.recordedWith.
  destruct (W3C.validateUrl fetch url) as [r|e']; simpl.
  - rewrite rejects_success by done. simpl. rewrite accepts_failure by done.
    unfold mbind, M_bind, liftResult. simpl.
    eexists [_; _]. by rewrite <- !app_assoc.
  - rewrite accepts_failure by done. unfold mbind, M_bind, liftResult. simpl.
    by eexists [_].
Qed.

Lemma iterations_recorded n urls :
  ∀ i st,
    ∃ ps,
      W3C.iterations fetch (Some callback) n i urls st =
        (Ok tt, {| W3C.results := W3C.results st ++ (urls ≫= Spec.recordedWith fetch e);
                   W3C.calls := W3C.calls st ++ ps |}) ∧
      length ps = length (urls ≫= Spec.recordedWith fetch e).
Proof.
  induction urls as [|url rest IH]; intros i st; simpl.
  - exists []. destruct st. by rewrite !app_nil_r.
  - unfold mbind at 1, M_bind at 1.
    destruct (iteration_recorded n i url st) as (ps1 & -> & Hlen1).
    destruct (IH (i + 1) {| W3C.results := W3C.results st ++ Spec.recordedWith fetch e url;
                            W3C.calls := W3C.calls st ++ ps1 |}) as (ps2 & -> & Hlen2).
    exists (ps1 ++ ps2). simpl. rewrite <- !app_assoc. split; [done|].
    rewrite !length_app, Hlen1, Hlen2. done.
Qed.

End ThrowingCallback.

(** X5.  When the progress callback throws [e] at the notification of a
    successful validation (and returns at the notification of a failure), the
    exception is caught as if the validation had failed: the batch still
    returns, but with two results for every URL whose validation succeeded,
    the real result followed by a synthetic failed result carrying the
    callback's message, and the callback is called once per result. *)
Theorem validateUrls_records_callback_errors
    (fetch : string → W3C.Fetched) (callback : W3C.Progress → Result unit)
    (e : Error) (urls : list string) :
  (∀ p, W3C.error p = None → callback p = Throw e) →
  (∀ p, W3C.error p ≠ None → callback p = Ok tt) →
  ∃ calls,
    W3C.validateUrls fetch (Some callback) urls
      = (Ok (urls ≫= Spec.recordedWith fetch e), calls) ∧
    length calls = length (urls ≫= Spec.recordedWith fetch e) ∧
    (length urls ≤ length (urls ≫= Spec.recordedWith fetch e))%nat ∧
    (∀ url r, url ∈ urls → W3C.validateUrl fetch url = Ok r →
       W3C.failedResult url e ∈ urls ≫= Spec.recordedWith fetch e).
Proof.
  intros Hrej Hacc. unfold W3C.validateUrls.
  destruct (iterations_recorded fetch callback e Hrej Hacc (Z.of_nat (length urls))
              urls 0 {| W3C.results := []; W3C.calls := [] |}) as (ps & -> & Hlen).
  exists ps. simpl. split; [done|]. split; [done|]. split.
  - clear. induction urls as [|url rest IH]; [done|].
    rewrite bind_cons, length_app. cbn [length]. unfold Spec.recordedWith at 1.
    destruct (W3C.validateUrl fetch url); simpl; lia.
  - intros url r Hurl Hr. apply list_elem_of_bind. exists url. split; [|done].
    unfold Spec.recordedWith. rewrite Hr. apply elem_of_cons. right.
    apply elem_of_cons. by left.
Qed.

Lemma validateUrls_records_callback_errors_witness :
  let callback (p : W3C.Progress) : Result unit :=
    match W3C.error p with
    | None => Throw (newError "progress store is down")
    | Some _ => Ok tt
    end in
  ∃ calls,
    W3C.validateUrls Scenario.flaky (Some callback) Scenario.five
      = (Ok (Scenario.five
             ≫= Spec.recordedWith Scenario.flaky (newError "progress store is down")),
         calls) ∧
    length calls = 9%nat ∧
    length (Scenario.five
            ≫= Spec.recordedWith Scenario.flaky (newError "progress store is down"))
      = 9%nat.
Proof.
  intros callback.
  destruct (validateUrls_records_callback_errors Scenario.flaky callback
              (newError "progress store is down") Scenario.five)
    as (calls & Hrun & Hlen & _).
  - intros p Hp. unfold callback. by rewrite Hp.
  - intros p Hp. unfold callback. by destruct (W3C.error p).
  - exists calls. split; [exact Hrun|]. split; [|reflexivity].
    rewrite Hlen. reflexivity.
Defined.

(* ===================================================================== *)
(** * The summary of the persisted results                                *)
(* ===================================================================== *)

Section PersistedSummary.
Import W3C.

Lemma countErrors_totalWarnings errs :
  ∀ s, Summary.totalWarnings (foldl countError s errs) = Summary.totalWarnings s.
Proof. induction errs as [|m errs IH]; intros s; simpl; [done | by rewrite IH]. Qed.

Lemma countWarnings_totalWarnings ws :
  ∀ s, Summary.totalWarnings (foldl countWarning s ws) = Summary.totalWarnings s.
Proof. induction ws as [|m ws IH]; intros s; simpl; [done | by rewrite IH]. Qed.

Lemma countResult_totalWarnings s r :
  Summary.totalWarnings (countResult s r)
  = Summary.totalWarnings s + Z.of_nat (length (warnings r)).
Proof.
  unfold countResult. by rewrite countWarnings_totalWarnings, countErrors_totalWarnings.
Qed.

(** The two loops keep the same counters. *)
Lemma countRows_agree job results :
  ∀ s t,
    Summary.total s = ScanService.ScanSummary.total t →
    Summary.valid s = ScanService.ScanSummary.valid t →
    Summary.invalid s = ScanService.ScanSummary.invalid t →
    Summary.totalErrors s = ScanService.ScanSummary.totalErrors t →
    Summary.totalWarnings s = ScanService.ScanSummary.totalWarnings t →
    let s' := foldl countResult s results in
    let t' := foldl ScanService.countRow t (map (ScanQueue.toScanResult job) results) in
    Summary.total s' = ScanService.ScanSummary.total t' ∧
    Summary.valid s' = ScanService.ScanSummary.valid t' ∧
    Summary.invalid s' = ScanService.ScanSummary.invalid t' ∧
    Summary.totalErrors s' = ScanService.ScanSummary.totalErrors t' ∧
    Summary.totalWarnings s' = ScanService.ScanSummary.totalWarnings t'.
Proof.
  induction results as [|r results IH]; intros s t Ht Hv Hi He Hw; [done|].
  cbn [foldl map]. apply IH.
  - destruct (countResult_fields s r) as (-> & _). by rewrite Ht.
  - destruct (countResult_fields s r) as (_ & -> & _). rewrite Hv. simpl.
    destruct (isValid r); lia.
  - destruct (countResult_fields s r) as (_ & _ & -> & _). rewrite Hi. simpl.
    destruct (isValid r); lia.
  - destruct (countResult_fields s r) as (_ & _ & _ & -> & _). by rewrite He.
  - rewrite countResult_totalWarnings. by rewrite Hw.
Qed.

Lemma summaries_agree (job : ScanQueue.Job.data) (results : list ValidationResult) :
  let a := generateValidationSummary results in
  let b := ScanService.calculateScanSummary (map (ScanQueue.toScanResult job) results) in
  ScanService.ScanSummary.total b = Summary.total a ∧
  ScanService.ScanSummary.valid b = Summary.valid a ∧
  ScanService.ScanSummary.invalid b = Summary.invalid a ∧
  ScanService.ScanSummary.totalErrors b = Summary.totalErrors a ∧
  ScanService.ScanSummary.totalWarnings b = Summary.totalWarnings a ∧
  ScanService.ScanSummary.validPercentage b = Summary.validPercentage a.
Proof.
  intros a b. subst a b.
  unfold generateValidationSummary, ScanService.calculateScanSummary.
  rewrite length_map.
  match goal with |- context [foldl countResult ?s0 results] =>
    match goal with |- context [foldl ScanService.countRow ?t0 _] =>
      destruct (countRows_agree job results s0 t0) as (Ht & Hv & Hi & He & Hw);
        [done..|];
      destruct (countResults_fields results s0) as (Htotal & _);
      set (s := foldl countResult s0 results) in *;
      set (t := foldl ScanService.countRow t0 _) in *
    end
  end.
  cbv zeta in Ht, Hv, Hi, He, Hw, Htotal. simpl in Htotal.
  destruct results as [|r results].
  - by vm_compute.
  - rewrite bool_decide_eq_false_2 by (cbn [length]; lia).
    cbn [ScanService.ScanSummary.total ScanService.ScanSummary.valid
         ScanService.ScanSummary.invalid ScanService.ScanSummary.totalErrors
         ScanService.ScanSummary.totalWarnings ScanService.ScanSummary.validPercentage
         Summary.total Summary.valid Summary.invalid Summary.totalErrors
         Summary.totalWarnings Summary.validPercentage].
    rewrite bool_decide_eq_true_2 by (rewrite Htotal; cbn [length]; lia).
    by rewrite Ht, Hv, Hi, He, Hw.
Qed.

(** X6.  The summary that the scan service computes from the rows the worker
    stored for a list of validation results has the same [total], [valid],
    [invalid], [totalErrors], [totalWarnings] and [validPercentage] as the
    summary the worker computed from the results themselves. *)
Theorem calculateScanSummary_agrees_with_worker
    (job : ScanQueue.Job.data) (results : list ValidationResult) :
  let a := generateValidationSummary results in
  let b := ScanService.calculateScanSummary (map (ScanQueue.toScanResult job) results) in
  ScanService.ScanSummary.total b = Summary.total a ∧
  ScanService.ScanSummary.valid b = Summary.valid a ∧
  ScanService.ScanSummary.invalid b = Summary.invalid a ∧
  ScanService.ScanSummary.totalErrors b = Summary.totalErrors a ∧
  ScanService.ScanSummary.totalWarnings b = Summary.totalWarnings a ∧
  ScanService.ScanSummary.validPercentage b = Summary.validPercentage a.
Proof. apply summaries_agree. Qed.

End PersistedSummary.

(* ===================================================================== *)
(** * The order of the resolved URLs and the outcome of a resolution      *)
(* ===================================================================== *)

Section ResolvedUrls.
Import Sitemap.

Variable parseURL : string → option Validation.URL.

Variable maxSitemapUrls : Z.
Variable fetch : string → Fetched.
Variable parseString : string → XmlParse.

Lemma fetchSitemap_message sitemapUrl e :
  fetchSitemap parseURL fetch sitemapUrl = Throw e → errMessage e ≠ "".
Proof.
  unfold fetchSitemap.
  destruct (match Validation.validateUrl parseURL sitemapUrl with
            | Ok _ => _ | Throw _ => _ end); [done|].
  by intros [= <-].
Qed.

Lemma parseSitemap_message content e :
  parseSitemap parseURL maxSitemapUrls parseString content = Throw e →
  errMessage e ≠ "".
Proof.
  unfold parseSitemap.
  assert (Hextracted : ∀ parsed,
    match extractUrlsFromParsedXml parseURL parsed with
    | Throw extractError => Throw extractError
    | Ok found =>
        if bool_decide (Z.of_nat (length found) = 0)
        then Throw (newError "No URLs found in sitemap")
        else if bool_decide (Z.of_nat (length found) > maxSitemapUrls) then
          Throw (newError ("Sitemap contains " +:+ pretty (Z.of_nat (length found))
                           +:+ " URLs, maximum allowed is " +:+ pretty maxSitemapUrls))
        else Ok found
    end = Throw e → errMessage e ≠ "").
  { intros parsed.
    destruct (extractUrlsFromParsedXml parseURL parsed) as [found|e'] eqn:Hfound.
    - repeat case_bool_decide; [by intros [= <-]..|done].
    - apply extractUrls_message in Hfound as ->. by intros [= <-]. }
  destruct (parseString content) as [reason| |result]; [|apply Hextracted..].
  by intros [= <-].
Qed.

Lemma hostnames_message urls e :
  hostnames parseURL urls = Throw e → errMessage e ≠ "".
Proof.
  induction urls as [|u urls IH]; simpl; [done|].
  destruct (parseURL u); [|by intros [= <-]].
  destruct (hostnames parseURL urls); [done|]. intros [= <-]. by apply IH.
Qed.

Lemma resolution_outcome (sitemapUrl : string) :
  let validation :=
    validateAndParseSitemap parseURL maxSitemapUrls fetch parseString sitemapUrl in
  if Sitemap.isValid validation then
    error validation = None ∧
    urlCount validation = Z.of_nat (length (urls validation)) ∧
    0 < urlCount validation ≤ maxSitemapUrls
  else
    urls validation = [] ∧ urlCount validation = 0 ∧
    Sitemap.warnings validation = [] ∧ domains validation = None ∧
    ∃ msg, error validation = Some msg ∧ msg ≠ "" ∧
           Js.orString (error validation) "Invalid sitemap" = msg.
Proof.
  assert (Hinvalid : ∀ e, errMessage e ≠ "" →
    let v := invalidSitemap e in
    urls v = [] ∧ urlCount v = 0 ∧ Sitemap.warnings v = [] ∧ domains v = None ∧
    ∃ msg, error v = Some msg ∧ msg ≠ "" ∧
           Js.orString (error v) "Invalid sitemap" = msg).
  { intros e He. repeat split. exists (errMessage e). simpl.
    by rewrite decide_False. }
  unfold validateAndParseSitemap.
  destruct (fetchSitemap parseURL fetch sitemapUrl) as [content|e] eqn:Hfetch.
  2: { by apply Hinvalid, (fetchSitemap_message sitemapUrl). }
  destruct (parseSitemap parseURL maxSitemapUrls parseString content)
    as [found|e] eqn:Hparse.
  2: { by apply Hinvalid, (parseSitemap_message content). }
  destruct (hostnames parseURL found) as [hs|e] eqn:Hhosts.
  2: { by apply Hinvalid, (hostnames_message found). }
  simpl. split; [done|]. split; [done|].
  apply parseSitemap_bounds in Hparse. lia.
Qed.

(** X8.  A resolution that is not valid carries a message that is not
    empty, and no URL, no warning and no domain; the fallback message of the
    worker is never the one thrown.  A valid resolution carries no message,
    and its [urlCount] is the number of its URLs, which lies between one and
    [maxSitemapUrls]. *)
Theorem validateAndParseSitemap_outcome (sitemapUrl : string) :
  let validation :=
    validateAndParseSitemap parseURL maxSitemapUrls fetch parseString sitemapUrl in
  if Sitemap.isValid validation then
    error validation = None ∧
    urlCount validation = Z.of_nat (length (urls validation)) ∧
    0 < urlCount validation ≤ maxSitemapUrls
  else
    urls validation = [] ∧ urlCount validation = 0 ∧
    Sitemap.warnings validation = [] ∧ domains validation = None ∧
    ∃ msg, error validation = Some msg ∧ msg ≠ "" ∧
           Js.orString (error validation) "Invalid sitemap" = msg.
Proof. apply resolution_outcome. Qed.

End ResolvedUrls.

(* ===================================================================== *)
(** * Operations of the ledger, one after the other                       *)
(* ===================================================================== *)

Section LedgerSequences.
Import Prisma CreditService.

Lemma balance_insert db db' u a :
  credit db' = <[u := a]> (credit db) → Spec.balance db' u = a.
Proof. intros H. unfold Spec.balance. by rewrite H, lookup_insert_eq. Qed.

Lemma addCredits_sameScans db u a reason :
  Spec.sameScans db (addCredits u a reason db).2.
Proof.
  destruct (decide (0 < a ∧ a ≤ 10000)) as [[]|].
  - rewrite addCredits_accepted by lia. repeat split. intros id.
    unfold statusHistory at 1. simpl. rewrite statusHistory_app, omap_app.
    destruct (credit db !! u); simpl; by rewrite app_nil_r.
  - by destruct (addCredits_rejected db u a reason) as [e ->]; [lia|].
Qed.

Lemma getCreditBalance_sameScans db u :
  Spec.sameScans db (getCreditBalance u db).2.
Proof.
  rewrite getCreditBalance_run. simpl.
  destruct (credit db !! u); [apply sameScans_refl | apply sameScans_withNewAccount].
Qed.

(** The credit rows after a step: the row of the user may change. *)
Lemma step_credit db op :
  credit (Spec.step db op) = credit db ∨
  ∃ a, credit (Spec.step db op) = <[Spec.userOf op := a]> (credit db).
Proof.
  destruct op as [u a reason | u a reason related | u a reason | u required | u]; simpl.
  - destruct (decide (a ≤ 0)); [left; by rewrite deductCredits_not_positive|].
    destruct (decide (a ≤ Spec.balance db u)).
    + right. rewrite deductCredits_sufficient by lia. by eexists.
    + left. by destruct (deductCredits_insufficient db u a reason) as [msg ->]; [lia..|].
  - destruct (decide (0 < a ∧ a ≤ 10000)) as [[]|].
    + right. rewrite refundCredits_accepted by lia. by eexists.
    + left. by rewrite refundCredits_rejected by lia.
  - destruct (decide (0 < a ∧ a ≤ 10000)) as [[]|].
    + right. rewrite addCredits_accepted by lia. by eexists.
    + left. by destruct (addCredits_rejected db u a reason) as [e ->]; [lia|].
  - rewrite checkSufficientCredits_run. simpl.
    destruct (credit db !! u); [by left | right; by eexists].
  - rewrite getCreditBalance_run. simpl.
    destruct (credit db !! u); [by left | right; by eexists].
Qed.

Lemma step_nextScanId db op : nextScanId (Spec.step db op) = nextScanId db.
Proof.
  destruct op as [u a reason | u a reason related | u a reason | u required | u]; simpl.
  - destruct (decide (a ≤ 0)); [by rewrite deductCredits_not_positive|].
    destruct (decide (a ≤ Spec.balance db u)).
    + by rewrite deductCredits_sufficient by lia.
    + by destruct (deductCredits_insufficient db u a reason) as [msg ->]; [lia..|].
  - destruct (decide (0 < a ∧ a ≤ 10000)) as [[]|].
    + by rewrite refundCredits_accepted by lia.
    + by rewrite refundCredits_rejected by lia.
  - destruct (decide (0 < a ∧ a ≤ 10000)) as [[]|].
    + by rewrite addCredits_accepted by lia.
    + by destruct (addCredits_rejected db u a reason) as [e ->]; [lia|].
  - rewrite checkSufficientCredits_run. simpl. by destruct (credit db !! u).
  - rewrite getCreditBalance_run. simpl. by destruct (credit db !! u).
Qed.

Lemma step_sameScans db op : Spec.sameScans db (Spec.step db op).
Proof.
  destruct op; simpl.
  - apply deductCredits_sameScans.
  - apply refundCredits_sameScans.
  - apply addCredits_sameScans.
  - apply checkSufficientCredits_sameScans.
  - apply getCreditBalance_sameScans.
Qed.

Lemma step_others db op v :
  v ≠ Spec.userOf op → credit (Spec.step db op) !! v = credit db !! v.
Proof.
  intros Hv. destruct (step_credit db op) as [->|[a ->]]; [done|].
  by rewrite lookup_insert_ne.
Qed.

(** X9.  An operation of the ledger touches nothing but the credit row of
    its own user: the row of every other user stays as it was, and so do the
    scans, their results and the statuses written. *)
Theorem ledger_operation_is_local db op :
  (∀ v, v ≠ Spec.userOf op → credit (Spec.step db op) !! v = credit db !! v) ∧
  Spec.sameScans db (Spec.step db op) ∧
  nextScanId (Spec.step db op) = nextScanId db.
Proof.
  split; [|split].
  - intros v. apply step_others.
  - apply step_sameScans.
  - apply step_nextScanId.
Qed.

(** X10.  Which operations of the ledger fail: a deduction, when its amount
    is not positive or exceeds the balance; an addition or a refund, when its
    amount is not between 1 and 10000; a check or a read of the balance,
    never.  An operation that fails leaves the database exactly as it
    was. *)
Theorem ledger_failures_change_nothing db op :
  Spec.succeeds db op =
    match op with
    | Spec.Deduct u a _ => bool_decide (0 < a ≤ Spec.balance db u)
    | Spec.Refund _ a _ _ | Spec.Add _ a _ => bool_decide (0 < a ≤ 10000)
    | Spec.CheckSufficient _ _ | Spec.GetBalance _ => true
    end ∧
  (Spec.succeeds db op = false → Spec.step db op = db).
Proof.
  destruct op as [u a reason | u a reason related | u a reason | u required | u]; simpl.
  - destruct (decide (a ≤ 0)).
    { rewrite deductCredits_not_positive by done. simpl.
      by rewrite bool_decide_eq_false_2 by lia. }
    destruct (decide (a ≤ Spec.balance db u)).
    + rewrite deductCredits_sufficient by lia. simpl.
      by rewrite bool_decide_eq_true_2 by lia.
    + destruct (deductCredits_insufficient db u a reason) as [msg ->]; [lia..|]. simpl.
      by rewrite bool_decide_eq_false_2 by lia.
  - destruct (decide (0 < a ∧ a ≤ 10000)) as [[]|].
    + rewrite refundCredits_accepted by lia. simpl.
      by rewrite bool_decide_eq_true_2 by lia.
    + rewrite refundCredits_rejected by lia. simpl.
      by rewrite bool_decide_eq_false_2 by lia.
  - destruct (decide (0 < a ∧ a ≤ 10000)) as [[]|].
    + rewrite addCredits_accepted by lia. simpl.
      by rewrite bool_decide_eq_true_2 by lia.
    + destruct (addCredits_rejected db u a reason) as [e ->]; [lia|]. simpl.
      by rewrite bool_decide_eq_false_2 by lia.
  - by rewrite checkSufficientCredits_run.
  - by rewrite getCreditBalance_run.
Qed.

(** X11.  A deduction followed by the refund of the same amount gives the
    balance back: when the amount is positive, at most 10000 and covered by
    the balance, both operations succeed and the balance ends where it
    started, with one decrement and one increment of that amount on
    record. *)
Theorem deduct_then_refund_restores db u a reason reason' related :
  0 < a → a ≤ 10000 → a ≤ Spec.balance db u →
  let db1 := Spec.step db (Spec.Deduct u a reason) in
  let db2 := Spec.step db1 (Spec.Refund u a reason' related) in
  Spec.succeeds db (Spec.Deduct u a reason) = true ∧
  Spec.succeeds db1 (Spec.Refund u a reason' related) = true ∧
  Spec.balance db1 u = Spec.balance db u - a ∧
  Spec.balance db2 u = Spec.balance db u ∧
  writes db2 = writes db ++ [CreditDecremented u a; CreditIncremented u a].
Proof.
  intros Hpos Hmax Hle db1 db2. subst db2 db1. simpl.
  rewrite deductCredits_sufficient by lia. simpl.
  match goal with |- context [refundCredits u a reason' related ?d] =>
    set (db1 := d) end.
  assert (Hb1 : Spec.balance db1 u = Spec.balance db u - a)
    by (by apply (balance_insert db)).
  assert (Hrow : credit db1 !! u = Some (Spec.balance db u - a))
    by (subst db1; simpl; by rewrite lookup_insert_eq).
  rewrite refundCredits_accepted by lia. cbn [fst snd isOk writes].
  rewrite Hrow, Hb1. repeat split.
  - unfold Spec.balance. cbn [credit]. rewrite lookup_insert_eq. simpl. lia.
  - subst db1. cbn [writes]. by rewrite <- app_assoc.
Qed.

Lemma deduct_then_refund_restores_witness :
  0 < 3 ∧ 3 ≤ 10000 ∧ 3 ≤ Spec.balance (Scenario.ledger (Some 5)) 7 ∧
  Spec.balance
    (Spec.run [Spec.Deduct 7 3 "sitemap_scan_1"; Spec.Refund 7 3 "scan_failure_1" (Some 1)]
       (Scenario.ledger (Some 5))) 7 = 5.
Proof.
  assert (Hpos : 0 < 3) by lia. assert (Hmax : 3 ≤ 10000) by lia.
  assert (Hle : 3 ≤ Spec.balance (Scenario.ledger (Some 5)) 7) by (vm_compute; discriminate).
  split; [exact Hpos|]. split; [exact Hmax|]. split; [exact Hle|].
  destruct (deduct_then_refund_restores (Scenario.ledger (Some 5)) 7 3
              "sitemap_scan_1" "scan_failure_1" (Some 1) Hpos Hmax Hle)
    as (_ & _ & _ & Hback & _).
  exact Hback.
Defined.

(** X12.  The check and the deduction agree: right after a check for a
    positive amount, the deduction of that amount succeeds exactly when the
    check said that the credits suffice, and when it fails it throws the
    insufficient-credits error with the balance the check reported. *)
Theorem check_then_deduct_agree db u a reason :
  0 < a →
  let '(checked, db1) := checkSufficientCredits u a db in
  match checked with
  | Throw _ => False
  | Ok c =>
      match deductCredits u a reason db1 with
      | (Ok r, db2) =>
          hasSufficient c = true ∧
          Deducted.amount r = currentAmount c - a ∧
          Spec.balance db2 u = currentAmount c - a
      | (Throw e, db2) =>
          hasSufficient c = false ∧
          errClass e = InsufficientCreditsError a (currentAmount c) ∧
          deficit c = a - currentAmount c ∧
          db2 = db1
      end
  end.
Proof.
  intros Hpos. rewrite checkSufficientCredits_run.
  set (db1 := match credit db !! u with
              | Some _ => db
              | None => Spec.withNewAccount u db
              end).
  assert (Hb : Spec.balance db1 u = Spec.balance db u).
  { subst db1. unfold Spec.balance. destruct (credit db !! u) as [b|] eqn:E; simpl.
    - by rewrite E.
    - by rewrite lookup_insert_eq. }
  destruct (decide (a ≤ Spec.balance db u)).
  - rewrite deductCredits_sufficient by lia. simpl.
    rewrite bool_decide_eq_true_2 by lia. rewrite Hb. repeat split.
    unfold Spec.balance. simpl. by rewrite lookup_insert_eq.
  - destruct (deductCredits_insufficient db1 u a reason) as [msg ->]; [lia..|]. simpl.
    rewrite bool_decide_eq_false_2 by lia. by rewrite Hb.
Qed.

Lemma check_then_deduct_agree_witness :
  0 < 9 ∧
  let '(checked, db1) := checkSufficientCredits 7 9 (Scenario.ledger (Some 5)) in
  match checked with
  | Throw _ => False
  | Ok c =>
      match deductCredits 7 9 "usage" db1 with
      | (Ok r, db2) =>
          hasSufficient c = true ∧
          Deducted.amount r = currentAmount c - 9 ∧
          Spec.balance db2 7 = currentAmount c - 9
      | (Throw e, db2) =>
          hasSufficient c = false ∧
          errClass e = InsufficientCreditsError 9 (currentAmount c) ∧
          deficit c = 9 - currentAmount c ∧
          db2 = db1
      end
  end.
Proof.
  assert (Hpos : 0 < 9) by lia.
  split; [exact Hpos|].
  exact (check_then_deduct_agree (Scenario.ledger (Some 5)) 7 9 "usage" Hpos).
Defined.

(** X13.  Reading the balance twice is reading it once: the first read
    creates the credit row with amount zero when the user has none, the second
    read returns the same amount and leaves the database as the first left
    it. *)
Theorem getCreditBalance_twice db u :
  let '(first, db1) := getCreditBalance u db in
  let '(second, db2) := getCreditBalance u db1 in
  first = Ok (Spec.balance db u) ∧ second = first ∧ db2 = db1 ∧
  is_Some (credit db1 !! u).
Proof.
  rewrite getCreditBalance_run.
  destruct (credit db !! u) as [b|] eqn:E.
  - rewrite getCreditBalance_run, E. done.
  - rewrite getCreditBalance_run. cbn [Spec.withNewAccount credit].
    rewrite lookup_insert_eq.
    unfold Spec.balance, Spec.withNewAccount. cbn [credit].
    rewrite E, lookup_insert_eq. done.
Qed.

End LedgerSequences.

Section LedgerOneByOne.
Import Prisma CreditService.

(** X30.  Calls of the ledger that run one after the other, each to its end
    before the next begins, never make a balance negative, whatever the
    operations and the amounts.  Run alone, a deduction of a positive amount
    fails with [InsufficientCreditsError] (carrying the amount and the
    balance) and changes nothing when the balance is below the amount, and
    otherwise lowers the balance by the amount.  A deduction of an amount
    that is not positive is refused with a plain error. *)
Theorem deductCredits_never_overdraws :
  (∀ ops db, Spec.nonNegative db → Spec.nonNegative (Spec.run ops db)) ∧
  (∀ db u a reason, 0 < a →
     match deductCredits u a reason db with
     | (Ok r, db') =>
         a ≤ Spec.balance db u ∧
         Deducted.amount r = Spec.balance db u - a ∧
         credit db' = <[u := Spec.balance db u - a]> (credit db)
     | (Throw e, db') =>
         Spec.balance db u < a ∧
         errClass e = InsufficientCreditsError a (Spec.balance db u) ∧
         db' = db
     end) ∧
  (∀ db u a reason, a ≤ 0 →
     deductCredits u a reason db
       = (Throw (newError "Deduction amount must be positive"), db)).
Proof.
  split; [exact run_nonNegative|]. split.
  - intros db u a reason Hpos.
    destruct (decide (a ≤ Spec.balance db u)).
    + by rewrite deductCredits_sufficient.
    + destruct (deductCredits_insufficient db u a reason) as [msg ->]; [lia..|].
      repeat split. lia.
  - intros db u a reason. apply deductCredits_not_positive.
Qed.

Lemma deductCredits_never_overdraws_witness :
  let db := Scenario.ledger (Some 5) in
  Spec.nonNegative db ∧
  Spec.nonNegative
    (Spec.run [Spec.Deduct 7 3 "sitemap_scan_1"; Spec.Deduct 7 3 "sitemap_scan_2";
               Spec.Refund 7 3 "scan_failure_1" (Some 1); Spec.Deduct 7 9 "usage"]
       db) ∧
  0 < 3 ∧ 0 < 9 ∧ -1 ≤ 0 ∧
  (3 ≤ Spec.balance db 7 ∧ 2 = Spec.balance db 7 - 3 ∧
   {[ 7 := 2 ]} = <[7 := Spec.balance db 7 - 3]> (credit db)) ∧
  (Spec.balance db 7 < 9 ∧
   InsufficientCreditsError 9 5 = InsufficientCreditsError 9 (Spec.balance db 7) ∧
   db = db) ∧
  deductCredits 7 (-1) "usage" db
    = (Throw (newError "Deduction amount must be positive"), db).
Proof.
  intros db.
  assert (Hstart : Spec.nonNegative db).
  { intros u a. unfold db, Scenario.ledger. simpl. rewrite lookup_singleton.
    case_decide; [|done]. intros [= <-]. lia. }
  assert (H3 : 0 < 3) by lia. assert (H9 : 0 < 9) by lia.
  assert (Hneg : -1 ≤ 0) by lia.
  destruct deductCredits_never_overdraws as (Hinv & Hdeduct & Hrefuse).
  split; [exact Hstart|]. split; [exact (Hinv _ _ Hstart)|].
  split; [exact H3|]. split; [exact H9|]. split; [exact Hneg|].
  split; [exact (Hdeduct db 7 3 "sitemap_scan_1" H3)|].
  split; [exact (Hdeduct db 7 9 "usage" H9)|].
  exact (Hrefuse db 7 (-1) "usage" Hneg).
Defined.

End LedgerOneByOne.

(* ===================================================================== *)
(** * Ownership, deletion and creation of scans                           *)
(* ===================================================================== *)

Section ScanOwnership.
Import Prisma ScanService.

Lemma scan_findFirst_foreign db id u :
  (∀ s, scan db !! id = Some s → Scan.userId s ≠ u) →
  scan_findFirst id u db = (Ok None, db).
Proof.
  intros Hforeign. unfold scan_findFirst, gets.
  destruct (scan db !! id) as [s|] eqn:Hs; [|done].
  by rewrite decide_False by (by apply Hforeign).
Qed.

(** X14.  A scan that does not exist or belongs to another user is not found:
    [cancelScan] and [deleteScan] both throw the not-found error and leave the
    database as it is. *)
Theorem foreign_scan_is_not_found now db id u :
  (∀ s, scan db !! id = Some s → Scan.userId s ≠ u) →
  cancelScan now id u db
    = (Throw (mkError NotFoundError "Scan not found or not accessible"), db) ∧
  deleteScan id u db
    = (Throw (mkError NotFoundError "Scan not found or not accessible"), db).
Proof.
  intros Hforeign. unfold cancelScan, deleteScan, tryCatch, mbind, M_bind.
  by rewrite scan_findFirst_foreign.
Qed.

Lemma foreign_scan_is_not_found_witness :
  let db := ScanQueue.db (Scenario.start 9) in
  (∀ s, scan db !! 1 = Some s → Scan.userId s ≠ 8) ∧
  cancelScan 1000 1 8 db
    = (Throw (mkError NotFoundError "Scan not found or not accessible"), db) ∧
  deleteScan 1 8 db
    = (Throw (mkError NotFoundError "Scan not found or not accessible"), db).
Proof.
  intros db.
  assert (H : ∀ s, scan db !! 1 = Some s → Scan.userId s ≠ 8).
  { intros s Hs. vm_compute in Hs. injection Hs as <-. simpl. lia. }
  split; [exact H|]. exact (foreign_scan_is_not_found 1000 db 1 8 H).
Defined.

(** X15.  The owner's [deleteScan] succeeds whatever the status of the scan:
    the scan is gone, with its results (the schema's cascade); every other
    scan and the results of the other scans stay, and no credit moves: a
    deletion refunds nothing. *)
Theorem deleteScan_removes_one_scan db id u s :
  scan db !! id = Some s → Scan.userId s = u →
  ∃ db',
    deleteScan id u db = (Ok true, db') ∧
    scan db' !! id = None ∧
    (∀ id', id' ≠ id → scan db' !! id' = scan db !! id') ∧
    (∀ r, r ∈ scanResult db' ↔ r ∈ scanResult db ∧ ScanResult.scanId r ≠ id) ∧
    credit db' = credit db.
Proof.
  intros Hs Hu. unfold deleteScan, tryCatch, mbind, M_bind, scan_findFirst, gets,
    scan_delete.
  rewrite Hs, decide_True by done. rewrite Hs. eexists. split; [reflexivity|]. simpl.
  split; [by rewrite lookup_delete_eq|]. split.
  { intros id' Hne. by rewrite lookup_delete_ne. }
  split; [|done]. intros r. rewrite list_elem_of_filter. tauto.
Qed.

Lemma deleteScan_removes_one_scan_witness :
  let w := (ScanQueue.scanWorker (Scenario.env Scenario.five Scenario.noFaults)
              Scenario.job (Scenario.start 9)).2 in
  (Scan.userId <$> scan (ScanQueue.db w) !! 1) = Some 7 ∧
  length (scanResult (ScanQueue.db w)) = 5%nat ∧
  ∃ db',
    deleteScan 1 7 (ScanQueue.db w) = (Ok true, db') ∧
    scan db' !! 1 = None ∧
    scanResult db' = [] ∧
    credit db' !! 7 = Some 4.
Proof.
  intros w.
  destruct (scan (ScanQueue.db w) !! 1) as [s|] eqn:Hs; [|by vm_compute in Hs].
  assert (Hu : Scan.userId s = 7).
  { vm_compute in Hs. by injection Hs as <-. }
  split; [simpl; by rewrite Hu|]. split; [reflexivity|].
  destruct (deleteScan_removes_one_scan (ScanQueue.db w) 1 7 s Hs Hu)
    as (db' & Hrun & Hgone & _ & _ & Hcredit).
  exists db'. split; [exact Hrun|]. split; [exact Hgone|].
  vm_compute in Hrun. injection Hrun as <-. split; reflexivity.
Defined.

End ScanOwnership.

Section ScanCreation.
Import Prisma ScanQueue.

Variable parseURL : string → option Validation.URL.
Variable head : string → Sitemap.Fetched.
Variable faults : ScanService.Call → option string.

(** X16.  [createScan] queues no job unless it returns, and it never changes
    a balance or a result.  When it returns, the sitemap was accessible, the
    balance was not zero and no call failed; exactly one scan was created,
    pending, with a URL count of zero, under the next id, and exactly one
    job carrying that id was queued.  When it throws, either no scan was
    created (the sitemap was not accessible, the balance could not be read
    or was zero, or the scan could not be stored), or the queue could not be
    reached: then the scan has been stored and stays, pending and without a
    job, and the error is "Failed to create scan: " followed by the reason of
    the queue. *)
Theorem createScan_outcome userId sitemapUrl w :
  let accessible :=
    Sitemap.accessible (Sitemap.getSitemapInfo parseURL head sitemapUrl) in
  let stored :=
    <[nextScanId (db w) := Spec.newScan userId sitemapUrl]> (scan (db w)) in
  match ScanService.createScan parseURL head faults userId sitemapUrl w with
  | (Ok (scanId, jobId), w') =>
      accessible = true ∧ Spec.balance (db w) userId ≠ 0 ∧
      (∀ c, faults c = None) ∧
      scanId = nextScanId (db w) ∧
      scan (db w') = stored ∧
      queue w' = queue w ++ [{| Job.scanId := scanId; Job.userId := userId;
                                Job.sitemapUrl := sitemapUrl |}] ∧
      scanResult (db w') = scanResult (db w) ∧
      (∀ v, Spec.balance (db w') v = Spec.balance (db w) v)
  | (Throw e, w') =>
      queue w' = queue w ∧
      scanResult (db w') = scanResult (db w) ∧
      (∀ v, Spec.balance (db w') v = Spec.balance (db w) v) ∧
      ((scan (db w') = scan (db w) ∧
        (accessible = false ∨ is_Some (faults ScanService.ReadBalance)
         ∨ Spec.balance (db w) userId = 0 ∨ is_Some (faults ScanService.CreateScan)))
       ∨ (∃ reason,
            faults ScanService.AddJob = Some reason ∧
            e = newError ("Failed to create scan: " +:+ reason) ∧
            accessible = true ∧ Spec.balance (db w) userId ≠ 0 ∧
            scan (db w') = stored ∧
            statusHistory (nextScanId (db w)) (db w')
              = statusHistory (nextScanId (db w)) (db w) ++ [pending]))
  end.
Proof.
  intros accessible stored. subst accessible stored.
  assert (Hbal : ∀ v,
    Spec.balance match credit (db w) !! userId with
                 | Some _ => db w
                 | None => Spec.withNewAccount userId (db w)
                 end v = Spec.balance (db w) v).
  { intros v. unfold Spec.balance.
    destruct (credit (db w) !! userId) as [b|] eqn:E; [done|]. simpl.
    destruct (decide (v = userId)) as [->|Hne].
    - by rewrite lookup_insert_eq, E.
    - by rewrite lookup_insert_ne. }
  unfold ScanService.createScan, tryCatch.
  destruct (Sitemap.accessible (Sitemap.getSitemapInfo parseURL head sitemapUrl)).
  2: { simpl. unfold throw. simpl. repeat split; auto. }
  unfold mbind, M_bind, liftDb, throw, ScanService.await. cbn [negb]. cbv beta iota.
  destruct (faults ScanService.ReadBalance) as [reason|] eqn:Hread.
  { simpl. split; [done|]. split; [done|]. split; [done|]. left.
    split; [done|]. right. left. by eexists. }
  rewrite getCreditBalance_run.
  case_bool_decide as Hzero.
  { simpl. split; [done|]. split; [by destruct (credit (db w) !! userId)|].
    split; [apply Hbal|]. left.
    split; [by destruct (credit (db w) !! userId)|]. auto. }
  destruct (faults ScanService.CreateScan) as [reason|] eqn:Hcreate.
  { simpl. split; [done|]. split; [by destruct (credit (db w) !! userId)|].
    split; [apply Hbal|]. left.
    split; [by destruct (credit (db w) !! userId)|].
    right. right. right. by eexists. }
  unfold scan_create, addScanJob, tryCatch, throw.
  destruct (faults ScanService.AddJob) as [reason|] eqn:Hadd; simpl.
  - split; [done|]. split; [by destruct (credit (db w) !! userId)|].
    split; [intros v; rewrite <- (Hbal v); by destruct (credit (db w) !! userId)|].
    right. exists reason. split; [done|]. split; [done|]. split; [done|].
    split; [done|]. split; [by destruct (credit (db w) !! userId)|].
    unfold statusHistory, record. destruct (credit (db w) !! userId); simpl;
      rewrite !omap_app; simpl; rewrite decide_True by done;
      by rewrite ?app_nil_r.
  - split; [done|]. split; [done|].
    split; [by intros []|].
    destruct (credit (db w) !! userId) as [b|] eqn:E; simpl; repeat split;
      try done; intros v; specialize (Hbal v); by rewrite E in Hbal.
Qed.

End ScanCreation.

(* ===================================================================== *)
(** * A job whose scan is gone                                            *)
(* ===================================================================== *)

Section MissingScan.
Import Prisma ScanQueue.

Variable env : Env.
Variable job : Job.data.

Lemma await_update_missing c data w :
  scan (db w) !! Job.scanId job = None →
  await env c (liftDb (scan_update (Job.scanId job) data)) w =
    (Throw match faults env c with
           | Some reason => newError reason
           | None => notFound
           end, w).
Proof.
  intros Hs. unfold await. destruct (faults env c) as [reason|]; [done|].
  unfold liftDb, scan_update. rewrite Hs. by destruct w.
Qed.

(** X17.  When the scan of a job is not in the database (it was deleted
    while the job was queued), an attempt of the worker throws at its first
    step, and so does the failure handler at its own first step: the attempt
    changes nothing, neither scans nor results, credits or progress, and
    makes no refund. *)
Theorem worker_without_scan_changes_nothing w :
  scan (db w) !! Job.scanId job = None →
  scanWorker env job w =
    (Throw match faults env UpdateFailed with
           | Some reason => newError reason
           | None => notFound
           end, w).
Proof.
  intros Hs. unfold scanWorker, tryCatch, process.
  unfold mbind at 1, M_bind at 1. rewrite await_update_missing by done.
  unfold mbind at 1, M_bind at 1. by rewrite await_update_missing.
Qed.

End MissingScan.

Lemma worker_without_scan_changes_nothing_witness :
  let deleted :=
    {| ScanQueue.db :=
         (ScanService.deleteScan 1 7 (ScanQueue.db (Scenario.start 9))).2;
       ScanQueue.queue := ScanQueue.queue (Scenario.start 9);
       ScanQueue.progress := [] |} in
  Prisma.scan (ScanQueue.db deleted) !! 1 = None ∧
  ScanQueue.queue deleted = [Scenario.job] ∧
  ScanQueue.scanWorker (Scenario.env Scenario.five Scenario.noFaults) Scenario.job
    deleted
    = (Throw Prisma.notFound, deleted).
Proof.
  intros deleted.
  assert (H : Prisma.scan (ScanQueue.db deleted) !! ScanQueue.Job.scanId Scenario.job
              = None) by reflexivity.
  split; [exact H|]. split; [reflexivity|].
  exact (worker_without_scan_changes_nothing
           (Scenario.env Scenario.five Scenario.noFaults) Scenario.job deleted H).
Defined.

(* ===================================================================== *)
(** * Statistics                                                          *)
(* ===================================================================== *)

Section StatisticsFacts.
Import Prisma.

Lemma status_partition (l : list Scan.t) :
  (length (filter (λ s, Scan.status s = pending) l)
   + length (filter (λ s, Scan.status s = processing) l)
   + length (filter (λ s, Scan.status s = success) l)
   + length (filter (λ s, Scan.status s = failed) l))%nat = length l.
Proof.
  induction l as [|s l IH]; [done|].
  rewrite !filter_cons. destruct (Scan.status s);
    repeat case_decide; try congruence; simpl; lia.
Qed.

Lemma sum_cons x l : sum (x :: l) = x + sum l.
Proof. done. Qed.

Lemma urls_partition (l : list Scan.t) :
  sum (Spec.urlsOf <$> filter (λ s, Scan.status s = pending) l)
  + sum (Spec.urlsOf <$> filter (λ s, Scan.status s = processing) l)
  + sum (Spec.urlsOf <$> filter (λ s, Scan.status s = success) l)
  + sum (Spec.urlsOf <$> filter (λ s, Scan.status s = failed) l)
  = sum (Spec.urlsOf <$> l).
Proof.
  induction l as [|s l IH]; [done|].
  rewrite !filter_cons. destruct (Scan.status s);
    repeat case_decide; try congruence; rewrite !fmap_cons, !sum_cons; lia.
Qed.

Lemma sumOfNonNull_default (g : list Scan.t) :
  default 0 (sumOfNonNull (Scan.totalUrls <$> g)) = sum (Spec.urlsOf <$> g).
Proof.
  unfold sumOfNonNull. induction g as [|s g IH]; [done|].
  rewrite !fmap_cons, sum_cons, <- IH. unfold Spec.urlsOf. cbn [omap list_omap].
  destruct (Scan.totalUrls s) as [n|]; simpl.
  - destruct (omap id (Scan.totalUrls <$> g)); simpl; lia.
  - destruct (omap id (Scan.totalUrls <$> g)); simpl; lia.
Qed.

Lemma groupOf_status st l g : groupOf st l = Some g → StatusGroup.status g = st.
Proof.
  unfold groupOf. destruct (filter _ l); [done|]. by intros [= <-].
Qed.

Lemma groupOf_count st l :
  from_option StatusGroup.count 0 (groupOf st l)
  = Z.of_nat (length (filter (λ s, Scan.status s = st) l)).
Proof. unfold groupOf. by destruct (filter _ l). Qed.

Lemma groupOf_urls st l :
  from_option (λ g, default 0 (StatusGroup.sumTotalUrls g)) 0 (groupOf st l)
  = sum (Spec.urlsOf <$> filter (λ s, Scan.status s = st) l).
Proof.
  unfold groupOf. destruct (filter _ l) as [|s g] eqn:E; [done|].
  cbn [from_option StatusGroup.sumTotalUrls]. apply sumOfNonNull_default.
Qed.

(** A sum over the groups is the sum over the four statuses. *)
Lemma groups_fold (h : StatusGroup.t → Z) l :
  foldl (λ sum stat, sum + h stat) 0
    (omap (λ st, groupOf st l) [pending; processing; success; failed])
  = from_option h 0 (groupOf pending l) + from_option h 0 (groupOf processing l)
    + from_option h 0 (groupOf success l) + from_option h 0 (groupOf failed l).
Proof.
  simpl. destruct (groupOf pending l), (groupOf processing l),
    (groupOf success l), (groupOf failed l); simpl; lia.
Qed.

Lemma statusBreakdown_groups l st :
  default 0
    (ScanService.statusBreakdown
       (omap (λ st, groupOf st l) [pending; processing; success; failed]) st)
  = from_option StatusGroup.count 0 (groupOf st l).
Proof.
  unfold ScanService.statusBreakdown. simpl.
  destruct st;
    destruct (groupOf pending l) as [g1|] eqn:E1,
             (groupOf processing l) as [g2|] eqn:E2,
             (groupOf success l) as [g3|] eqn:E3,
             (groupOf failed l) as [g4|] eqn:E4;
    try apply groupOf_status in E1; try apply groupOf_status in E2;
    try apply groupOf_status in E3; try apply groupOf_status in E4;
    simpl; rewrite ?E1, ?E2, ?E3, ?E4; done.
Qed.

Lemma countWithStatus_groups l st :
  CreditService.countWithStatus st
    (omap (λ st, groupOf st l) [pending; processing; success; failed])
  = from_option StatusGroup.count 0 (groupOf st l).
Proof.
  unfold CreditService.countWithStatus. simpl.
  destruct st;
    destruct (groupOf pending l) as [g1|] eqn:E1,
             (groupOf processing l) as [g2|] eqn:E2,
             (groupOf success l) as [g3|] eqn:E3,
             (groupOf failed l) as [g4|] eqn:E4;
    try apply groupOf_status in E1; try apply groupOf_status in E2;
    try apply groupOf_status in E3; try apply groupOf_status in E4;
    rewrite ?filter_cons, ?filter_nil, ?E1, ?E2, ?E3, ?E4; done.
Qed.

(** X18.  [getUserScanStatistics] returns and changes nothing; [totalScans]
    is the number of scans of the user, each entry of the breakdown is the
    number of those scans with that status, the four entries sum to
    [totalScans], and the success rate of a user without scans is zero (no
    division takes place). *)
Theorem getUserScanStatistics_breakdown db userId :
  ∃ stats,
    ScanService.getUserScanStatistics userId db = (Ok stats, db) ∧
    ScanService.Statistics.totalScans stats
      = Z.of_nat (length (scansOf userId db)) ∧
    ScanService.Statistics.pendingScans stats
      = Z.of_nat (length (Spec.withStatus pending userId db)) ∧
    ScanService.Statistics.processingScans stats
      = Z.of_nat (length (Spec.withStatus processing userId db)) ∧
    ScanService.Statistics.successScans stats
      = Z.of_nat (length (Spec.withStatus success userId db)) ∧
    ScanService.Statistics.failedScans stats
      = Z.of_nat (length (Spec.withStatus failed userId db)) ∧
    ScanService.Statistics.pendingScans stats
      + ScanService.Statistics.processingScans stats
      + ScanService.Statistics.successScans stats
      + ScanService.Statistics.failedScans stats
      = ScanService.Statistics.totalScans stats ∧
    (scansOf userId db = [] → ScanService.Statistics.successRate stats = Js.Int 0).
Proof.
  eexists. split; [reflexivity|].
  cbn [ScanService.Statistics.totalScans ScanService.Statistics.pendingScans
       ScanService.Statistics.processingScans ScanService.Statistics.successScans
       ScanService.Statistics.failedScans ScanService.Statistics.successRate].
  rewrite !statusBreakdown_groups, !groupOf_count. unfold Spec.withStatus.
  pose proof (status_partition (scansOf userId db)) as Hpart.
  repeat split; try lia.
  intros Hnone. by rewrite Hnone.
Qed.

(** X19.  [getCreditStatistics] returns; it reports the balance, the same
    number of scans as [getUserScanStatistics] and the same numbers of
    successful and failed scans; [totalUrlsScanned] adds up the URL counts of
    all the scans of the user, whatever their status, the failed ones
    included.  The only change it makes is the credit row that the read of
    the balance creates for a user without one. *)
Theorem getCreditStatistics_counts db userId :
  ∃ stats,
    CreditService.getCreditStatistics userId db
      = (Ok stats, (CreditService.getCreditBalance userId db).2) ∧
    CreditService.CreditStatistics.currentBalance stats = Spec.balance db userId ∧
    CreditService.CreditStatistics.totalScans stats
      = Z.of_nat (length (scansOf userId db)) ∧
    CreditService.CreditStatistics.successfulScans stats
      = Z.of_nat (length (Spec.withStatus success userId db)) ∧
    CreditService.CreditStatistics.failedScans stats
      = Z.of_nat (length (Spec.withStatus failed userId db)) ∧
    CreditService.CreditStatistics.totalUrlsScanned stats
      = sum (Spec.urlsOf <$> scansOf userId db).
Proof.
  unfold CreditService.getCreditStatistics, tryCatch, mbind, M_bind.
  rewrite getCreditBalance_run. unfold scan_groupBy, gets, mret, M_ret.
  assert (Hscans : scansOf userId
                     match credit db !! userId with
                     | Some _ => db
                     | None => Spec.withNewAccount userId db
                     end = scansOf userId db)
    by (by destruct (credit db !! userId)).
  rewrite Hscans. eexists. split; [reflexivity|].
  cbn [CreditService.CreditStatistics.currentBalance
       CreditService.CreditStatistics.totalScans
       CreditService.CreditStatistics.successfulScans
       CreditService.CreditStatistics.failedScans
       CreditService.CreditStatistics.totalUrlsScanned].
  rewrite !countWithStatus_groups, !groups_fold, !groupOf_count, !groupOf_urls.
  unfold Spec.withStatus.
  pose proof (status_partition (scansOf userId db)) as Hpart.
  pose proof (urls_partition (scansOf userId db)) as Hurls.
  repeat split; lia.
Qed.

End StatisticsFacts.

(* ===================================================================== *)
(** * Sanitised strings                                                   *)
(* ===================================================================== *)

Section Sanitised.

Variable test : Ascii.ascii → bool.

Lemma allChars_trimStart s :
  Spec.allChars test s = true → Spec.allChars test (Js.trimStart s) = true.
Proof.
  induction s as [|c s IH]; simpl; [done|].
  intros [Hc Hs]%andb_true_iff. destruct (Js.isWhiteSpace c); [by apply IH|].
  simpl. by rewrite Hc, Hs.
Qed.

Lemma allChars_trimEnd s :
  Spec.allChars test s = true → Spec.allChars test (Js.trimEnd s) = true.
Proof.
  induction s as [|c s IH]; simpl; [done|].
  intros [Hc Hs]%andb_true_iff. specialize (IH Hs).
  destruct (Js.trimEnd s) as [|c' t].
  - destruct (Js.isWhiteSpace c); simpl; [done | by rewrite Hc].
  - change (Spec.allChars test (String c (String c' t)) = true).
    simpl in *. by rewrite Hc.
Qed.

Lemma allChars_substring n s :
  Spec.allChars test s = true → Spec.allChars test (String.substring 0 n s) = true.
Proof.
  revert s. induction n as [|n IH]; intros s; [by destruct s|].
  destruct s as [|c s]; simpl; [done|].
  intros [Hc Hs]%andb_true_iff. rewrite Hc. by apply IH.
Qed.

Lemma length_substring n s : (String.length (String.substring 0 n s) ≤ n)%nat.
Proof.
  revert s. induction n as [|n IH]; intros s; [by destruct s|].
  destruct s as [|c s]; simpl; [lia|]. specialize (IH s). lia.
Qed.

End Sanitised.

Lemma replaceAngleBrackets_clean s :
  Spec.allChars (λ c, negb (Js.isAngleBracket c)) (Js.replaceAngleBrackets s) = true.
Proof.
  induction s as [|c s IH]; simpl; [done|].
  destruct (Js.isAngleBracket c) eqn:Hc; [done|]. simpl. by rewrite Hc.
Qed.

Lemma startsClean_trimStart s : Spec.startsClean (Js.trimStart s) = true.
Proof.
  induction s as [|c s IH]; simpl; [done|].
  destruct (Js.isWhiteSpace c) eqn:Hc; [done|]. simpl. by rewrite Hc.
Qed.

Lemma startsClean_trimEnd s :
  Spec.startsClean s = true → Spec.startsClean (Js.trimEnd s) = true.
Proof.
  destruct s as [|c s]; simpl; [done|]. intros Hc.
  destruct (Js.trimEnd s); [|done].
  destruct (Js.isWhiteSpace c) eqn:Hws; [done|]. simpl. by rewrite Hws.
Qed.

Lemma startsClean_substring n s :
  Spec.startsClean s = true → Spec.startsClean (String.substring 0 n s) = true.
Proof. destruct n, s; done. Qed.

(** X20.  A sanitised string holds neither [<] nor [>], has at most 1000
    code units and does not begin with a code unit that [trim] removes, white
    space or a line terminator, the no-break space among them.  (The cut to
    1000 code units comes after the trim.)  An input that is not a string is
    not sanitised: it is returned as [String] renders it. *)
Theorem sanitizeString_output (s rendered : string) :
  let out := Validation.sanitizeString (Validation.IsString s) in
  Spec.allChars (λ c, negb (Js.isAngleBracket c)) out = true ∧
  (String.length out ≤ 1000)%nat ∧
  Spec.startsClean out = true ∧
  Validation.sanitizeString (Validation.NotString rendered) = rendered.
Proof.
  simpl. split; [|split; [|split]].
  - apply allChars_substring, allChars_trimEnd, allChars_trimStart,
      replaceAngleBrackets_clean.
  - apply length_substring.
  - apply startsClean_substring, startsClean_trimEnd, startsClean_trimStart.
  - done.
Qed.

(* ===================================================================== *)
(** * What an attempt of the worker touches                               *)
(* ===================================================================== *)

Section Isolation.
Import Prisma ScanQueue.

Lemma keepsIdentity_refl o : Spec.keepsIdentity o o.
Proof. by destruct o. Qed.

Lemma keepsIdentity_trans o1 o2 o3 :
  Spec.keepsIdentity o1 o2 → Spec.keepsIdentity o2 o3 → Spec.keepsIdentity o1 o3.
Proof.
  destruct o1, o2, o3; simpl; try done. intros [-> ->] [-> ->]. done.
Qed.

Lemma dbTouchedOnly_refl sid uid d : Spec.dbTouchedOnly sid uid d d.
Proof.
  split; [done|]. split; [done|]. split; [apply keepsIdentity_refl|].
  split; [done|]. exists []. by rewrite app_nil_r.
Qed.

Lemma dbTouchedOnly_trans sid uid d1 d2 d3 :
  Spec.dbTouchedOnly sid uid d1 d2 → Spec.dbTouchedOnly sid uid d2 d3 →
  Spec.dbTouchedOnly sid uid d1 d3.
Proof.
  intros (Hn1 & Hs1 & Hk1 & Hc1 & rows1 & Hr1 & Hf1)
         (Hn2 & Hs2 & Hk2 & Hc2 & rows2 & Hr2 & Hf2).
  split; [congruence|]. split.
  { intros id Hid. by rewrite Hs2, Hs1. }
  split; [by eapply keepsIdentity_trans|]. split.
  { intros u Hu. by rewrite Hc2, Hc1. }
  exists (rows1 ++ rows2). split.
  - by rewrite Hr2, Hr1, app_assoc.
  - by apply Forall_app.
Qed.

Lemma scan_update_touched sid uid data d :
  Spec.dbTouchedOnly sid uid d (scan_update sid data d).2.
Proof.
  unfold scan_update. destruct (scan d !! sid) as [s|] eqn:Hs;
    [|apply dbTouchedOnly_refl].
  unfold Spec.dbTouchedOnly. simpl. split; [done|]. split.
  { intros id Hid. by rewrite lookup_insert_ne. }
  split.
  { rewrite Hs, lookup_insert_eq. done. }
  split; [done|]. exists []. by rewrite app_nil_r.
Qed.

Lemma scan_findUnique_touched sid uid d :
  Spec.dbTouchedOnly sid uid d (scan_findUnique sid d).2.
Proof. apply dbTouchedOnly_refl. Qed.

Lemma createMany_touched sid uid rows d :
  Forall (λ r, ScanResult.scanId r = sid) rows →
  Spec.dbTouchedOnly sid uid d (scanResult_createMany rows d).2.
Proof.
  intros Hrows. unfold Spec.dbTouchedOnly. simpl. split; [done|]. split; [done|].
  split; [apply keepsIdentity_refl|]. split; [done|]. by exists rows.
Qed.

Lemma step_touched sid d op :
  Spec.dbTouchedOnly sid (Spec.userOf op) d (Spec.step d op).
Proof.
  destruct (step_sameScans d op) as (Hscan & Hrows & _).
  split; [apply step_nextScanId|]. split; [by rewrite Hscan|].
  split; [rewrite Hscan; apply keepsIdentity_refl|].
  split; [intros u; apply step_others|].
  exists []. by rewrite app_nil_r.
Qed.

Variable env : Env.
Variable job : Job.data.
Variable w0 : World.

Lemma touched_liftDb {A} (m : M Db A) :
  (∀ d, Spec.dbTouchedOnly (Job.scanId job) (Job.userId job) d (m d).2) →
  Spec.triple (Spec.touchedOnly job w0) (liftDb m)
    (λ _, Spec.touchedOnly job w0) (λ _, Spec.touchedOnly job w0).
Proof.
  intros Hm. apply triple_liftDb. intros w (Hq & Hd & Hp). specialize (Hm (db w)).
  destruct (m (db w)) as [[a|e] d]; simpl in *;
    (split; [done|]; split; [by eapply dbTouchedOnly_trans | done]).
Qed.

Lemma touched_progress w pr :
  Forall (λ p, p.1 = Job.scanId job) pr →
  Spec.touchedOnly job w0 w →
  Spec.touchedOnly job w0 {| db := db w; queue := queue w; progress := progress w ++ pr |}.
Proof.
  intros Hpr (Hq & Hd & pr0 & Hp & Hf). split; [done|]. split; [done|].
  exists (pr0 ++ pr). simpl. split; [by rewrite Hp, app_assoc | by apply Forall_app].
Qed.

Lemma touched_updateProgress v E :
  Spec.triple (Spec.touchedOnly job w0) (updateProgress job v)
    (λ _, Spec.touchedOnly job w0) E.
Proof.
  apply triple_modify. intros w Hw. apply touched_progress; [|done].
  by repeat constructor.
Qed.

Lemma touched_validate urls E :
  Spec.triple (Spec.touchedOnly job w0) (validate env job urls)
    (λ _, Spec.touchedOnly job w0) E.
Proof.
  intros w Hw. rewrite validate_run.
  apply touched_progress; [|done]. apply Forall_forall. intros p Hp.
  by apply list_elem_of_fmap in Hp as (q & -> & _).
Qed.

Lemma touched_process :
  Spec.triple (Spec.touchedOnly job w0) (process env job)
    (λ _, Spec.touchedOnly job w0) (λ _, Spec.touchedOnly job w0).
Proof.
  unfold process.
  eapply triple_bind;
    [apply triple_await; [done | apply touched_liftDb; intros; apply scan_update_touched]|].
  intros []; cbv beta. eapply triple_bind;
    [apply triple_await; [done | apply touched_updateProgress]|].
  intros []; cbv beta zeta. case_match; [by apply triple_throw|].
  eapply triple_bind;
    [apply triple_await; [done | apply touched_liftDb; intros; apply scan_update_touched]|].
  intros []; cbv beta. eapply triple_bind;
    [apply triple_await; [done | apply touched_updateProgress]|].
  intros []; cbv beta. eapply triple_bind.
  { apply triple_await; [done|]. apply touched_liftDb. intros d.
    apply (step_touched _ d (Spec.CheckSufficient _ _)). }
  intros creditCheck. case_match; [by apply triple_throw|].
  eapply triple_bind.
  { apply triple_await; [done|]. apply touched_liftDb. intros d.
    apply (step_touched _ d (Spec.Deduct _ _ _)). }
  intros ?; cbv beta. eapply triple_bind;
    [apply triple_await; [done | apply touched_updateProgress]|].
  intros []; cbv beta. eapply triple_bind; [apply touched_validate|].
  intros results; cbv beta. eapply triple_bind;
    [apply triple_await; [done | apply touched_updateProgress]|].
  intros []; cbv beta. eapply triple_bind.
  { apply triple_await; [done|]. apply touched_liftDb. intros d.
    apply createMany_touched, Forall_forall. intros row Hrow.
    by apply list_elem_of_fmap in Hrow as (r & -> & _). }
  intros []; cbv beta zeta. eapply triple_bind;
    [apply triple_await; [done | apply touched_liftDb; intros; apply scan_update_touched]|].
  intros []; cbv beta. eapply triple_bind;
    [apply triple_await; [done | apply touched_updateProgress]|].
  intros []; cbv beta. by apply triple_ret.
Qed.

Lemma touched_refundAfterFailure :
  Spec.triple (Spec.touchedOnly job w0) (refundAfterFailure env job)
    (λ _, Spec.touchedOnly job w0) (λ _, Spec.touchedOnly job w0).
Proof.
  unfold refundAfterFailure.
  eapply triple_tryCatch with (R := λ _, Spec.touchedOnly job w0);
    [|intros ?; by apply triple_ret].
  eapply triple_bind.
  { apply triple_await; [done|]. apply touched_liftDb. intros d.
    apply scan_findUnique_touched. }
  intros [s|]; [|by apply triple_ret].
  destruct (Scan.totalUrls s) as [totalUrls|]; [|by apply triple_ret].
  case_match; [|by apply triple_ret].
  eapply triple_bind.
  { apply triple_await; [done|]. apply touched_liftDb. intros d.
    apply (step_touched _ d (Spec.Refund _ _ _ _)). }
  intros ?; cbv beta. by apply triple_ret.
Qed.

Lemma touched_scanWorker :
  Spec.triple (Spec.touchedOnly job w0) (scanWorker env job)
    (λ _, Spec.touchedOnly job w0) (λ _, Spec.touchedOnly job w0).
Proof.
  unfold scanWorker.
  eapply triple_tryCatch; [apply touched_process|]. intros error.
  eapply triple_bind;
    [apply triple_await; [done | apply touched_liftDb; intros; apply scan_update_touched]|].
  intros []; cbv beta. eapply triple_bind; [apply touched_refundAfterFailure|].
  intros []; cbv beta. by apply triple_throw.
Qed.

End Isolation.

(** X21.  Whatever fails, an attempt of the worker touches only what belongs
    to its job: the row of its scan (which it neither creates nor deletes, and
    whose owner and URL it keeps) and the credit row of its user.  Every other
    scan and every other balance is as before, the results stored before are
    kept and those added are results of the job's scan, the progress values
    added are the job's, and nothing is added to the queue. *)
Theorem worker_touches_only_its_job
    (env : ScanQueue.Env) (job : ScanQueue.Job.data) (w : ScanQueue.World) :
  Spec.touchedOnly job w (ScanQueue.scanWorker env job w).2.
Proof.
  assert (Hstart : Spec.touchedOnly job w w).
  { split; [done|]. split; [apply dbTouchedOnly_refl|]. exists []. by rewrite app_nil_r. }
  pose proof (touched_scanWorker env job w w Hstart) as H.
  by destruct (ScanQueue.scanWorker env job w) as [[c|e] w'].
Qed.

(* ===================================================================== *)
(** * What a successful attempt has done                                  *)
(* ===================================================================== *)

Section Success.
Import Prisma ScanQueue.

Variable env : Env.
Variable job : Job.data.

Lemma entered_progress h b d i rows w pr :
  Spec.entered job h b d i rows w →
  Spec.entered job h b d i rows {| db := db w; queue := queue w; progress := pr |}.
Proof. done. Qed.

Lemma reached_progress h cur t fin b d i rows w pr :
  Spec.reached job h cur t fin b d i rows w →
  Spec.reached job h cur t fin b d i rows
    {| db := db w; queue := queue w; progress := pr |}.
Proof. done. Qed.

(** The journal after an update of the job's scan. *)
Lemma entered_scan_updated h b d i rows w s data :
  Spec.entered job h b d i rows w →
  Spec.entered job (h ++ from_option (λ st, [st]) [] (Scan.setStatus data)) b d i rows
    {| db := {| scan := <[Job.scanId job := Scan.apply data s]> (scan (db w));
                credit := credit (db w); scanResult := scanResult (db w);
                nextScanId := nextScanId (db w);
                writes := record (ScanUpdated (Job.scanId job) data) (db w) |};
       queue := queue w; progress := progress w |}.
Proof.
  intros (Hh & Hb & Hd & Hi & Hrows). unfold Spec.entered, record. simpl.
  split.
  { unfold statusHistory. simpl. rewrite statusHistory_app, Hh. simpl.
    rewrite decide_True by done. by destruct (Scan.setStatus data). }
  split; [done|].
  rewrite decrements_app, increments_app, Hd, Hi. simpl. by rewrite !app_nil_r.
Qed.

(** The first update of the run: when it returns, the scan exists. *)
Lemma entered_scan_update h b d i rows data :
  Spec.triple (Spec.entered job h b d i rows)
    (liftDb (scan_update (Job.scanId job) data))
    (λ _, Spec.reached job (h ++ from_option (λ st, [st]) [] (Scan.setStatus data))
            (Scan.setStatus data) (Scan.setTotalUrls data) (Scan.setFinishedAt data)
            b d i rows)
    (λ _ _, True).
Proof.
  apply triple_liftDb. intros w Hw. unfold scan_update.
  destruct (scan (db w) !! Job.scanId job) as [s|] eqn:Hs; [|done].
  split; [|by apply entered_scan_updated].
  exists (Scan.apply data s). simpl. split; [by rewrite lookup_insert_eq|].
  split; [|split].
  - intros st ->. done.
  - intros n Hn. by rewrite Hn.
  - intros f Hf. by rewrite Hf.
Qed.

Lemma reached_scan_update h cur t fin b d i rows data E :
  Spec.triple (Spec.reached job h cur t fin b d i rows)
    (liftDb (scan_update (Job.scanId job) data))
    (λ _, Spec.reached job (h ++ from_option (λ st, [st]) [] (Scan.setStatus data))
            (from_option Some cur (Scan.setStatus data))
            (from_option Some t (Scan.setTotalUrls data))
            (from_option Some fin (Scan.setFinishedAt data))
            b d i rows) E.
Proof.
  apply triple_liftDb. intros w [(s & Hs & Hcur & Ht & Hfin) Hw]. unfold scan_update.
  rewrite Hs. split; [|by apply entered_scan_updated].
  exists (Scan.apply data s). simpl. split; [by rewrite lookup_insert_eq|].
  split; [|split].
  - intros st. destruct (Scan.setStatus data); simpl; [by intros [= <-] | apply Hcur].
  - intros n. destruct (Scan.setTotalUrls data); simpl; [done | apply Ht].
  - intros f. destruct (Scan.setFinishedAt data); simpl; [done | apply Hfin].
Qed.

(** A step of the ledger for the user of the job that leaves the scans. *)
Lemma reached_check h cur t fin b d i rows required E :
  Spec.triple (Spec.reached job h cur t fin b d i rows)
    (liftDb (CreditService.checkSufficientCredits (Job.userId job) required))
    (λ c w, Spec.reached job h cur t fin b d i rows w ∧
            CreditService.hasSufficient c = bool_decide (b >= required) ∧
            CreditService.currentAmount c = b) E.
Proof.
  apply triple_liftDb. intros w [(s & Hs & Hscan) (Hh & Hb & Hd & Hi & Hrows)].
  rewrite checkSufficientCredits_run. rewrite Hb. split; [|done].
  destruct (credit (db w) !! Job.userId job) as [b0|] eqn:Hrow.
  - destruct w as [d0 q pr]. split; [by exists s | done].
  - split; [by exists s|]. unfold Spec.entered, Spec.withNewAccount. simpl.
    split.
    { unfold statusHistory. simpl. rewrite statusHistory_app, Hh. simpl.
      by rewrite app_nil_r. }
    split.
    { unfold Spec.balance in *. simpl. rewrite lookup_insert_eq.
      by rewrite Hrow in Hb. }
    rewrite decrements_app, increments_app, Hd, Hi. simpl. by rewrite !app_nil_r.
Qed.

Lemma reached_deduct h cur t fin b d i rows amount reason E :
  0 < amount → amount ≤ b →
  Spec.triple (Spec.reached job h cur t fin b d i rows)
    (liftDb (CreditService.deductCredits (Job.userId job) amount reason))
    (λ _, Spec.reached job h cur t fin (b - amount) (d ++ [amount]) i rows) E.
Proof.
  intros Hpos Hle. apply triple_liftDb.
  intros w [(s & Hs & Hscan) (Hh & Hb & Hd & Hi & Hrows)].
  rewrite deductCredits_sufficient by lia. rewrite Hb.
  split; [by exists s|]. unfold Spec.entered. simpl. split.
  { unfold statusHistory. simpl. rewrite statusHistory_app, Hh. simpl.
    by rewrite app_nil_r. }
  split; [unfold Spec.balance; simpl; by rewrite lookup_insert_eq|].
  rewrite decrements_app, increments_app, Hd, Hi. simpl.
  rewrite decide_True by done. by rewrite app_nil_r.
Qed.

Lemma reached_createMany h cur t fin b d i rows new E :
  Spec.triple (Spec.reached job h cur t fin b d i rows)
    (liftDb (scanResult_createMany new))
    (λ _, Spec.reached job h cur t fin b d i (rows ++ new)) E.
Proof.
  apply triple_liftDb. intros w [(s & Hs & Hscan) (Hh & Hb & Hd & Hi & Hrows)].
  split; [by exists s|]. unfold Spec.entered, record. simpl. split.
  { unfold statusHistory. simpl. rewrite statusHistory_app, Hh. simpl.
    by rewrite app_nil_r. }
  split; [done|].
  rewrite decrements_app, increments_app, Hd, Hi, Hrows. simpl.
  by rewrite !app_nil_r.
Qed.

(** The [try] block, whatever fails: when it returns, it has done all of
    its work. *)
Lemma reached_process h b d i rows :
  let validation :=
    Sitemap.validateAndParseSitemap (parseURL env) (maxSitemapUrls env)
      (sitemapFetch env) (parseString env) (Job.sitemapUrl job) in
  let urls := Sitemap.urls validation in
  let n := Z.of_nat (length urls) in
  let results := map (Spec.resultFor (w3cFetch env)) urls in
  Spec.triple (Spec.entered job h b d i rows) (process env job)
    (λ completed w,
       Sitemap.isValid validation = true ∧ n ≤ b ∧
       completed = {| scanId := Job.scanId job;
                      summary := W3C.generateValidationSummary results |} ∧
       Spec.reached job (h ++ [processing; success]) (Some success) (Some n)
         (Some (now env)) (b - n) (d ++ [n]) i
         (rows ++ map (toScanResult job) results) w)
    (λ _ _, True).
Proof.
  intros validation urls n results. unfold process. fold validation.
  eapply triple_bind;
    [apply triple_await; [done | apply entered_scan_update]|].
  intros []; cbv beta. simpl from_option. simpl Scan.setStatus.
  simpl Scan.setTotalUrls. simpl Scan.setFinishedAt.
  eapply triple_bind;
    [apply triple_await; [done | apply triple_updateProgress, reached_progress]|].
  intros []; cbv beta zeta.
  destruct (Sitemap.isValid validation) eqn:Hvalid; simpl negb; cbv iota;
    [|by apply triple_throw].
  pose proof (validateAndParseSitemap_valid _ _ _ _ _ Hvalid) as [Hpos _].
  fold validation in Hpos. fold urls in Hpos |- *. fold n in Hpos |- *.
  eapply triple_bind;
    [apply triple_await; [done | apply reached_scan_update]|].
  intros []; cbv beta. simpl from_option. rewrite app_nil_r.
  eapply triple_bind;
    [apply triple_await; [done | apply triple_updateProgress, reached_progress]|].
  intros []; cbv beta. eapply triple_bind;
    [apply triple_await; [done | apply reached_check]|].
  intros creditCheck; cbv beta.
  destruct (CreditService.hasSufficient creditCheck) eqn:Hsuff; simpl negb; cbv iota;
    [|by apply triple_throw].
  destruct (decide (n ≤ b)) as [Hle|Hlt].
  2: { intros w (_ & Hc & _). rewrite bool_decide_eq_false_2 in Hc by lia. done. }
  apply triple_pre with
    (P' := Spec.reached job (h ++ [processing]) (Some processing) (Some n) None
             b d i rows); [by intros w [Hw _]|].
  eapply triple_bind;
    [apply triple_await; [done | by apply reached_deduct]|].
  intros ?; cbv beta. eapply triple_bind;
    [apply triple_await; [done | apply triple_updateProgress, reached_progress]|].
  intros []; cbv beta.
  eapply triple_bind; [apply triple_validate, reached_progress|].
  intros validationResults; cbv beta.
  apply triple_pre with
    (P' := λ w, validationResults = results ∧
                Spec.reached job (h ++ [processing]) (Some processing) (Some n) None
                  (b - n) (d ++ [n]) i rows w); [by intros w [Hw ->]|].
  intros w [-> Hw]. revert w Hw.
  eapply triple_bind;
    [apply triple_await; [done | apply triple_updateProgress, reached_progress]|].
  intros []; cbv beta. eapply triple_bind;
    [apply triple_await; [done | apply reached_createMany]|].
  intros []; cbv beta zeta. eapply triple_bind;
    [apply triple_await; [done | apply reached_scan_update]|].
  intros []; cbv beta. simpl from_option. rewrite <- app_assoc.
  eapply triple_bind;
    [apply triple_await; [done | apply triple_updateProgress, reached_progress]|].
  intros []; cbv beta. apply triple_ret. intros w Hw. done.
Qed.

(** The processor returns only when its [try] block returns. *)
Lemma scanWorker_returns w completed w' :
  scanWorker env job w = (Ok completed, w') →
  process env job w = (Ok completed, w').
Proof.
  unfold scanWorker, tryCatch.
  destruct (process env job w) as [[c|e] w1]; [done|].
  unfold mbind, M_bind, throw.
  destruct (await env UpdateFailed _ w1) as [[[]|e1] w2]; [|done].
  by destruct (refundAfterFailure env job w2) as [[[]|e2] w3].
Qed.

End Success.

(** X22.  Whatever else fails, an attempt of the worker returns only after all
    of its work is done: the sitemap resolved to [n] URLs that the balance
    covered, [n] credits were deducted, once, and none refunded, one result
    per URL was stored after the results already there, the scan was given
    the statuses processing and then success and holds the URL count and the
    time of completion, and the value returned carries the summary of these
    results. *)
Theorem worker_returns_after_all_its_work
    (env : ScanQueue.Env) (job : ScanQueue.Job.data) (w w' : ScanQueue.World)
    (completed : ScanQueue.Completed) :
  ScanQueue.scanWorker env job w = (Ok completed, w') →
  let validation :=
    Sitemap.validateAndParseSitemap (ScanQueue.parseURL env)
      (ScanQueue.maxSitemapUrls env) (ScanQueue.sitemapFetch env)
      (ScanQueue.parseString env) (ScanQueue.Job.sitemapUrl job) in
  let urls := Sitemap.urls validation in
  let n := Z.of_nat (length urls) in
  let results := map (Spec.resultFor (ScanQueue.w3cFetch env)) urls in
  let scanId := ScanQueue.Job.scanId job in
  let userId := ScanQueue.Job.userId job in
  let db := ScanQueue.db w in
  let db' := ScanQueue.db w' in
  Sitemap.isValid validation = true ∧
  n ≤ Spec.balance db userId ∧
  completed = {| ScanQueue.scanId := scanId;
                 ScanQueue.summary := W3C.generateValidationSummary results |} ∧
  (∃ s, Prisma.scan db' !! scanId = Some s ∧
        Prisma.Scan.status s = Prisma.success ∧
        Prisma.Scan.totalUrls s = Some n ∧
        Prisma.Scan.finishedAt s = Some (ScanQueue.now env)) ∧
  Prisma.statusHistory scanId db'
    = Prisma.statusHistory scanId db ++ [Prisma.processing; Prisma.success] ∧
  Spec.balance db' userId = Spec.balance db userId - n ∧
  Prisma.decrements userId (Prisma.writes db')
    = Prisma.decrements userId (Prisma.writes db) ++ [n] ∧
  Prisma.increments userId (Prisma.writes db')
    = Prisma.increments userId (Prisma.writes db) ∧
  Prisma.scanResult db'
    = Prisma.scanResult db ++ map (ScanQueue.toScanResult job) results.
Proof.
  intros Hrun validation urls n results scanId userId db db'.
  apply scanWorker_returns in Hrun.
  assert (Hstart : Spec.entered job (Prisma.statusHistory scanId db)
                     (Spec.balance db userId)
                     (Prisma.decrements userId (Prisma.writes db))
                     (Prisma.increments userId (Prisma.writes db))
                     (Prisma.scanResult db) w) by done.
  pose proof (reached_process env job _ _ _ _ _ w Hstart) as H.
  rewrite Hrun in H.
  destruct H as (Hvalid & Hle & Hc & (s & Hs & Hst & Ht & Hf) & Hh & Hb & Hd & Hi & Hr).
  split; [exact Hvalid|]. split; [exact Hle|]. split; [exact Hc|]. split.
  { exists s. split; [exact Hs|]. split; [by apply Hst|].
    split; [by apply Ht | by apply Hf]. }
  done.
Qed.

Lemma worker_returns_after_all_its_work_witness :
  ∃ completed w',
    ScanQueue.scanWorker (Scenario.env Scenario.five Scenario.noFaults) Scenario.job
      (Scenario.start 9) = (Ok completed, w') ∧
    Spec.balance (ScanQueue.db w') 7 = 4 ∧
    length (Prisma.scanResult (ScanQueue.db w')) = 5%nat ∧
    Prisma.statusHistory 1 (ScanQueue.db w')
      = [Prisma.pending; Prisma.processing; Prisma.success].
Proof.
  destruct (ScanQueue.scanWorker (Scenario.env Scenario.five Scenario.noFaults)
              Scenario.job (Scenario.start 9)) as [[completed|e] w'] eqn:Hrun;
    [|by vm_compute in Hrun].
  exists completed, w'. split; [reflexivity|].
  destruct (worker_returns_after_all_its_work _ _ _ _ _ Hrun)
    as (_ & _ & _ & _ & Hh & Hb & _ & _ & Hr).
  change (ScanQueue.Job.userId Scenario.job) with 7 in Hb.
  change (ScanQueue.Job.scanId Scenario.job) with 1 in Hh.
  split; [rewrite Hb; reflexivity|]. split; [rewrite Hr; reflexivity|].
  rewrite Hh. reflexivity.
Defined.

(* ===================================================================== *)
(** * A sitemap that does not resolve                                     *)
(* ===================================================================== *)

Section Unresolved.
Import Prisma ScanQueue.

Variable env : Env.
Variable job : Job.data.

(** X23.  When the sitemap does not resolve, an attempt on a scan that has
    no URL count yet (as [createScan] leaves it) and meets no failure of the
    infrastructure on its way throws the resolver's message; the scan is given
    the statuses processing and failed and holds the message and the time of
    the failure; no credit row is written, nothing is deducted or refunded,
    and no result is stored. *)
Theorem unresolved_sitemap_fails_the_scan w s :
  let validation :=
    Sitemap.validateAndParseSitemap (parseURL env) (maxSitemapUrls env)
      (sitemapFetch env) (parseString env) (Job.sitemapUrl job) in
  Sitemap.isValid validation = false →
  (∀ c, c ∈ [UpdateProcessing; Progress10; UpdateFailed; FindScan] →
        faults env c = None) →
  scan (db w) !! Job.scanId job = Some s →
  (∀ k, Scan.totalUrls s = Some k → k ≤ 0) →
  ∃ msg w',
    Sitemap.error validation = Some msg ∧
    scanWorker env job w = (Throw (newError msg), w') ∧
    scan (db w') !! Job.scanId job
      = Some {| Scan.userId := Scan.userId s; Scan.sitemapUrl := Scan.sitemapUrl s;
                Scan.status := failed; Scan.totalUrls := Scan.totalUrls s;
                Scan.finishedAt := Some (now env); Scan.errorMsg := Some msg |} ∧
    statusHistory (Job.scanId job) (db w')
      = statusHistory (Job.scanId job) (db w) ++ [processing; failed] ∧
    credit (db w') = credit (db w) ∧
    (∀ u, decrements u (writes (db w')) = decrements u (writes (db w)) ∧
          increments u (writes (db w')) = increments u (writes (db w))) ∧
    scanResult (db w') = scanResult (db w) ∧
    progress w' = progress w ++ [(Job.scanId job, Js.Int 10)].
Proof.
  intros validation Hinvalid Hfaults Hs Hfresh.
  pose proof (resolution_outcome (parseURL env) (maxSitemapUrls env)
                (sitemapFetch env) (parseString env) (Job.sitemapUrl job)) as Hout.
  cbv zeta in Hout. fold validation in Hout. rewrite Hinvalid in Hout.
  destruct Hout as (_ & _ & _ & _ & msg & Hmsg & Hne & Hor).
  exists msg.
  set (w1 := {| db := {| scan := <[Job.scanId job :=
                           Scan.apply {| Scan.setStatus := Some processing;
                                         Scan.setTotalUrls := None;
                                         Scan.setFinishedAt := None;
                                         Scan.setErrorMsg := None |} s]> (scan (db w));
                         credit := credit (db w); scanResult := scanResult (db w);
                         nextScanId := nextScanId (db w);
                         writes := writes (db w)
                           ++ [ScanUpdated (Job.scanId job)
                                 {| Scan.setStatus := Some processing;
                                    Scan.setTotalUrls := None;
                                    Scan.setFinishedAt := None;
                                    Scan.setErrorMsg := None |}] |};
                queue := queue w;
                progress := progress w ++ [(Job.scanId job, Js.Int 10)] |}).
  assert (Hprocess : process env job w = (Throw (newError msg), w1)).
  { unfold process. fold validation. rewrite Hinvalid, Hor.
    unfold mbind, M_bind, await. rewrite !Hfaults by (rewrite !elem_of_cons; tauto).
    unfold liftDb, scan_update, updateProgress, modify, throw. by rewrite Hs. }
  set (failure := {| Scan.setStatus := Some failed; Scan.setTotalUrls := None;
                     Scan.setFinishedAt := Some (now env);
                     Scan.setErrorMsg := Some (errMessage (newError msg)) |}).
  assert (Hs1 : scan (db w1) !! Job.scanId job
                = Some (Scan.apply {| Scan.setStatus := Some processing;
                                      Scan.setTotalUrls := None;
                                      Scan.setFinishedAt := None;
                                      Scan.setErrorMsg := None |} s))
    by (simpl; by rewrite lookup_insert_eq).
  set (s1 := Scan.apply _ s) in Hs1.
  set (w2 := {| db := {| scan := <[Job.scanId job := Scan.apply failure s1]> (scan (db w1));
                         credit := credit (db w1); scanResult := scanResult (db w1);
                         nextScanId := nextScanId (db w1);
                         writes := writes (db w1) ++ [ScanUpdated (Job.scanId job) failure] |};
                queue := queue w1; progress := progress w1 |}).
  assert (Hupdate :
    await env UpdateFailed (liftDb (scan_update (Job.scanId job) failure)) w1
    = (Ok tt, w2)).
  { unfold await. rewrite Hfaults by (rewrite !elem_of_cons; tauto).
    unfold liftDb, scan_update. by rewrite Hs1. }
  assert (Hrefund : refundAfterFailure env job w2 = (Ok tt, w2)).
  { unfold refundAfterFailure, tryCatch. unfold mbind at 1, M_bind at 1.
    unfold await at 1. rewrite Hfaults by (rewrite !elem_of_cons; tauto).
    unfold liftDb, scan_findUnique, gets.
    replace (scan (db w2) !! Job.scanId job) with (Some (Scan.apply failure s1))
      by (simpl; by rewrite lookup_insert_eq).
    simpl. destruct (Scan.totalUrls s) as [k|] eqn:Hk; [|done].
    specialize (Hfresh k eq_refl). rewrite (bool_decide_eq_false_2 (k > 0)) by lia.
    by rewrite andb_false_r. }
  exists w2. split; [done|]. split.
  { unfold scanWorker, tryCatch. rewrite Hprocess. unfold mbind, M_bind.
    fold failure. by rewrite Hupdate, Hrefund. }
  simpl. rewrite lookup_insert_eq, insert_insert_eq. split; [done|].
  unfold statusHistory, record. simpl.
  rewrite <- app_assoc, statusHistory_app. simpl. rewrite !decide_True by done.
  split; [done|]. split; [done|]. split; [|done].
  intros u. by rewrite decrements_app, increments_app, !app_nil_r.
Qed.

End Unresolved.

Lemma unresolved_sitemap_fails_the_scan_witness :
  ∃ w',
    ScanQueue.scanWorker Scenario.unreachable Scenario.job (Scenario.start 9)
      = (Throw (newError "Failed to fetch sitemap: HTTP 404: Not Found"), w') ∧
    (Prisma.Scan.status <$> Prisma.scan (ScanQueue.db w') !! 1) = Some Prisma.failed ∧
    Prisma.credit (ScanQueue.db w') = Prisma.credit (ScanQueue.db (Scenario.start 9)).
Proof.
  edestruct (unresolved_sitemap_fails_the_scan Scenario.unreachable Scenario.job
               (Scenario.start 9))
    as (msg & w' & Hmsg & Hrun & Hscan & _ & Hcredit & _).
  - reflexivity.
  - intros c _. reflexivity.
  - reflexivity.
  - intros k Hk. vm_compute in Hk. injection Hk as <-. lia.
  - exists w'. vm_compute in Hmsg. injection Hmsg as <-.
    split; [exact Hrun|]. split; [|exact Hcredit].
    change (ScanQueue.Job.scanId Scenario.job) with 1 in Hscan. by rewrite Hscan.
Defined.

(* ===================================================================== *)
(** * A failure after the deduction                                       *)
(* ===================================================================== *)

Section FailureAfterDeduction.
Import Prisma ScanQueue.

Variable env : Env.
Variable job : Job.data.

(** Only the calls that follow the deduction may fail, and one of them
    does. *)
Hypothesis others_succeed : ∀ c, c ∉ Spec.afterDeduction → faults env c = None.
Hypothesis one_fails : ∃ c, c ∈ Spec.afterDeduction ∧ faults env c ≠ None.

(** A call that is not among them. *)
Ltac not_after :=
  apply others_succeed; apply (bool_decide_unpack _); by vm_compute.

Lemma reached_refund h cur t fin b d i rows amount reason related E :
  0 < amount → amount ≤ 10000 →
  Spec.triple (Spec.reached job h cur t fin b d i rows)
    (liftDb (CreditService.refundCredits (Job.userId job) amount reason related))
    (λ _, Spec.reached job h cur t fin (b + amount) d (i ++ [amount]) rows) E.
Proof.
  intros Hpos Hmax. apply triple_liftDb.
  intros w [(s & Hs & Hscan) (Hh & Hb & Hd & Hi & Hrows)].
  rewrite refundCredits_accepted by lia. rewrite Hb.
  split; [by exists s|]. unfold Spec.entered. simpl. split.
  { unfold statusHistory. simpl. rewrite statusHistory_app, Hh, omap_app. simpl.
    destruct (credit (db w) !! Job.userId job); simpl; by rewrite app_nil_r. }
  split; [unfold Spec.balance; simpl; by rewrite lookup_insert_eq|].
  rewrite !decrements_app, !increments_app, Hd, Hi.
  destruct (credit (db w) !! Job.userId job); simpl;
    rewrite decide_True by done; by rewrite !app_nil_r.
Qed.

(** The state after the deduction, whatever was written since. *)
Lemma refunded_after_failure b d i n :
  0 < n → n ≤ 10000 →
  Spec.triple
    (λ w, ∃ h cur fin rows,
       Spec.reached job h cur (Some n) fin (b - n) (d ++ [n]) i rows w)
    (refundAfterFailure env job)
    (λ _ w, ∃ h cur fin rows,
       Spec.reached job h cur (Some n) fin b (d ++ [n]) (i ++ [n]) rows w)
    (λ _ _, False).
Proof.
  intros Hpos Hmax w (h & cur & fin & rows & Hw).
  assert (Hfind : faults env FindScan = None) by not_after.
  assert (Hrefund : faults env RefundCredits = None) by not_after.
  destruct Hw as [(s & Hs & Hcur & Ht & Hfin) Hrest].
  unfold refundAfterFailure, tryCatch. unfold mbind at 1, M_bind at 1.
  unfold await at 1. rewrite Hfind. unfold liftDb at 1, scan_findUnique, gets.
  rewrite Hs, (Ht n eq_refl).
  rewrite bool_decide_eq_true_2 by lia. rewrite bool_decide_eq_true_2 by lia.
  cbn [andb]. cbv beta iota.
  assert (Hw : Spec.reached job h cur (Some n) fin (b - n) (d ++ [n]) i rows
                 {| db := db w; queue := queue w; progress := progress w |}).
  { destruct w. split; [by exists s | done]. }
  pose proof (reached_refund h cur (Some n) fin (b - n) (d ++ [n]) i rows n
                ("scan_failure_" +:+ pretty (Job.scanId job)) (Some (Job.scanId job))
                (λ _ _, False) Hpos Hmax _ Hw) as Hstep.
  unfold mbind, M_bind, await. rewrite Hrefund.
  destruct (liftDb _ _) as [[r|e] w'] eqn:Hrun; [|done].
  exists h, cur, fin, rows. by replace b with (b - n + n) by lia.
Qed.

Lemma failure_after_deduction h b d i rows :
  let validation :=
    Sitemap.validateAndParseSitemap (parseURL env) (maxSitemapUrls env)
      (sitemapFetch env) (parseString env) (Job.sitemapUrl job) in
  let n := Z.of_nat (length (Sitemap.urls validation)) in
  Sitemap.isValid validation = true → n ≤ b →
  Spec.triple (Spec.reached job h None None None b d i rows) (process env job)
    (λ _ _, False)
    (λ _ w, ∃ h' cur fin rows',
       Spec.reached job h' cur (Some n) fin (b - n) (d ++ [n]) i rows' w).
Proof.
  intros validation n Hvalid Hle.
  pose proof (validateAndParseSitemap_valid _ _ _ _ _ Hvalid) as [Hpos _].
  fold validation in Hpos. fold n in Hpos.
  unfold process. fold validation. rewrite Hvalid. cbv zeta. fold n.
  simpl negb. cbv iota.
  eapply triple_bind.
  { apply triple_await_ok; [not_after|].
    apply reached_scan_update. }
  intros []; cbv beta. simpl from_option. eapply triple_bind.
  { apply triple_await_ok; [not_after|].
    apply triple_updateProgress, reached_progress. }
  intros []; cbv beta. eapply triple_bind.
  { apply triple_await_ok; [not_after|].
    apply reached_scan_update. }
  intros []; cbv beta. simpl from_option. eapply triple_bind.
  { apply triple_await_ok; [not_after|].
    apply triple_updateProgress, reached_progress. }
  intros []; cbv beta. eapply triple_bind.
  { apply triple_await_ok; [not_after|].
    apply reached_check. }
  intros creditCheck; cbv beta.
  destruct (CreditService.hasSufficient creditCheck); simpl negb; cbv iota.
  2: { intros w (_ & Hc & _). rewrite bool_decide_eq_true_2 in Hc by lia. done. }
  apply triple_pre with
    (P' := Spec.reached job ((h ++ [processing]) ++ []) (Some processing) (Some n) None
             b d i rows); [by intros w [Hw _]|].
  eapply triple_bind.
  { apply triple_await_ok; [not_after|].
    by apply reached_deduct. }
  intros ?; cbv beta.
  (* from here on a call may fail *)
  destruct (faults env Progress30) as [reason|] eqn:F30.
  { eapply triple_bind with (R := λ _ _, False); [|by intros ? ? []].
    unfold await. rewrite F30. apply triple_throw. intros w Hw. by eexists _, _, _, _. }
  eapply triple_bind;
    [apply triple_await_ok; [done | apply triple_updateProgress, reached_progress]|].
  intros []; cbv beta.
  eapply triple_bind; [apply triple_validate_inv, reached_progress|].
  intros validationResults; cbv beta.
  destruct (faults env Progress90) as [reason|] eqn:F90.
  { eapply triple_bind with (R := λ _ _, False); [|by intros ? ? []].
    unfold await. rewrite F90. apply triple_throw. intros w Hw. by eexists _, _, _, _. }
  eapply triple_bind;
    [apply triple_await_ok; [done | apply triple_updateProgress, reached_progress]|].
  intros []; cbv beta.
  destruct (faults env CreateResults) as [reason|] eqn:Fcreate.
  { eapply triple_bind with (R := λ _ _, False); [|by intros ? ? []].
    unfold await. rewrite Fcreate. apply triple_throw. intros w Hw.
    by eexists _, _, _, _. }
  eapply triple_bind;
    [apply triple_await_ok; [done | apply reached_createMany]|].
  intros []; cbv beta zeta.
  destruct (faults env UpdateSuccess) as [reason|] eqn:Fsuccess.
  { eapply triple_bind with (R := λ _ _, False); [|by intros ? ? []].
    unfold await. rewrite Fsuccess. apply triple_throw. intros w Hw.
    by eexists _, _, _, _. }
  eapply triple_bind;
    [apply triple_await_ok; [done | apply reached_scan_update]|].
  intros []; cbv beta. simpl from_option.
  destruct (faults env Progress100) as [reason|] eqn:F100.
  { eapply triple_bind with (R := λ _ _, False); [|by intros ? ? []].
    unfold await. rewrite F100. apply triple_throw. intros w Hw.
    by eexists _, _, _, _. }
  exfalso. destruct one_fails as (c & Hc & Hfault).
  unfold Spec.afterDeduction in Hc. rewrite !elem_of_cons in Hc.
  repeat destruct Hc as [->|Hc]; try congruence. by apply elem_of_nil in Hc.
Qed.

Lemma failure_is_refunded h b d i rows :
  let validation :=
    Sitemap.validateAndParseSitemap (parseURL env) (maxSitemapUrls env)
      (sitemapFetch env) (parseString env) (Job.sitemapUrl job) in
  let n := Z.of_nat (length (Sitemap.urls validation)) in
  Sitemap.isValid validation = true → maxSitemapUrls env ≤ 10000 → n ≤ b →
  Spec.triple (Spec.reached job h None None None b d i rows) (scanWorker env job)
    (λ _ _, False)
    (λ _ w, ∃ h' fin rows',
       Spec.reached job h' (Some failed) (Some n) fin b (d ++ [n]) (i ++ [n]) rows' w).
Proof.
  intros validation n Hvalid Hmax Hle.
  pose proof (validateAndParseSitemap_valid _ _ _ _ _ Hvalid) as [Hpos Hn].
  fold validation in Hpos, Hn. fold n in Hpos, Hn.
  unfold scanWorker.
  eapply triple_tryCatch; [by apply failure_after_deduction|].
  intros error. cbv beta.
  eapply triple_bind with
    (R := λ _ w, ∃ h' fin rows',
            Spec.reached job h' (Some failed) (Some n) fin (b - n) (d ++ [n]) i rows' w).
  { apply triple_await_ok; [not_after|].
    intros w (h' & cur & fin & rows' & Hw).
    pose proof (reached_scan_update job h' cur (Some n) fin (b - n) (d ++ [n]) i rows'
      {| Scan.setStatus := Some failed; Scan.setTotalUrls := None;
         Scan.setFinishedAt := Some (now env);
         Scan.setErrorMsg := Some (errMessage error) |} (λ _ _, False) w Hw) as Hstep.
    destruct (liftDb _ w) as [[[]|e] w']; [|done]. by eexists _, _, _. }
  intros []; cbv beta.
  eapply triple_bind with
    (R := λ _ w, ∃ h' fin rows',
            Spec.reached job h' (Some failed) (Some n) fin b (d ++ [n]) (i ++ [n]) rows' w).
  { intros w (h' & fin & rows' & Hw).
    assert (Hn' : n ≤ 10000) by lia.
    pose proof (refunded_after_failure b d i n Hpos Hn' w) as Hstep.
    destruct (refundAfterFailure env job w) as [[[]|e] w'] eqn:Hrun.
    - (* the status is still the one the handler wrote *)
      destruct Hw as [(s & Hs & Hcur & Ht & Hfin) Hrest].
      clear Hstep.
      assert (Hfind : faults env FindScan = None) by not_after.
      assert (Hrefund : faults env RefundCredits = None) by not_after.
      revert Hrun. unfold refundAfterFailure, tryCatch. unfold mbind at 1, M_bind at 1.
      unfold await at 1. rewrite Hfind. unfold liftDb at 1, scan_findUnique, gets.
      rewrite Hs, (Ht n eq_refl).
      rewrite bool_decide_eq_true_2 by lia. rewrite bool_decide_eq_true_2 by lia.
      cbn [andb]. cbv beta iota.
      assert (Hw : Spec.reached job h' (Some failed) (Some n) fin (b - n) (d ++ [n]) i
                     rows' {| db := db w; queue := queue w; progress := progress w |}).
      { destruct w. split; [by exists s | done]. }
      pose proof (reached_refund h' (Some failed) (Some n) fin (b - n) (d ++ [n]) i rows' n
                    ("scan_failure_" +:+ pretty (Job.scanId job)) (Some (Job.scanId job))
                    (λ _ _, False) Hpos Hn' _ Hw) as Hstep.
      unfold mbind, M_bind, await. rewrite Hrefund.
      destruct (liftDb _ _) as [[r|e] w''] eqn:Hrun; [|done].
      intros [= <-]. exists h', fin, rows'. by replace b with (b - n + n) by lia.
    - exfalso. apply Hstep. by exists h', (Some failed), fin, rows'. }
  intros []; cbv beta. by apply triple_throw.
Qed.

End FailureAfterDeduction.

(** X24.  When only calls that follow the deduction can fail and one of them
    does, the attempt throws and the deduction is refunded in full: the
    sitemap being valid with [n] URLs ([n] at most 10000) that the balance
    covers, [n] credits are deducted, [n] credits are refunded, the balance
    ends where it started, and the scan is left failed with its URL count. *)
Theorem failure_after_deduction_is_refunded
    (env : ScanQueue.Env) (job : ScanQueue.Job.data) (w : ScanQueue.World) :
  let validation :=
    Sitemap.validateAndParseSitemap (ScanQueue.parseURL env)
      (ScanQueue.maxSitemapUrls env) (ScanQueue.sitemapFetch env)
      (ScanQueue.parseString env) (ScanQueue.Job.sitemapUrl job) in
  let n := Z.of_nat (length (Sitemap.urls validation)) in
  let scanId := ScanQueue.Job.scanId job in
  let userId := ScanQueue.Job.userId job in
  let db := ScanQueue.db w in
  (∀ c, c ∉ Spec.afterDeduction → ScanQueue.faults env c = None) →
  (∃ c, c ∈ Spec.afterDeduction ∧ ScanQueue.faults env c ≠ None) →
  is_Some (Prisma.scan db !! scanId) →
  Sitemap.isValid validation = true →
  ScanQueue.maxSitemapUrls env ≤ 10000 →
  n ≤ Spec.balance db userId →
  ∃ e w',
    ScanQueue.scanWorker env job w = (Throw e, w') ∧
    Spec.balance (ScanQueue.db w') userId = Spec.balance db userId ∧
    Prisma.decrements userId (Prisma.writes (ScanQueue.db w'))
      = Prisma.decrements userId (Prisma.writes db) ++ [n] ∧
    Prisma.increments userId (Prisma.writes (ScanQueue.db w'))
      = Prisma.increments userId (Prisma.writes db) ++ [n] ∧
    ∃ s, Prisma.scan (ScanQueue.db w') !! scanId = Some s ∧
         Prisma.Scan.status s = Prisma.failed ∧
         Prisma.Scan.totalUrls s = Some n.
Proof.
  intros validation n scanId userId db Hothers Hone [s Hs] Hvalid Hmax Hle.
  assert (Hstart : Spec.reached job (Prisma.statusHistory scanId db) None None None
                     (Spec.balance db userId)
                     (Prisma.decrements userId (Prisma.writes db))
                     (Prisma.increments userId (Prisma.writes db))
                     (Prisma.scanResult db) w).
  { split; [by exists s | done]. }
  pose proof (failure_is_refunded env job Hothers Hone _ _ _ _ _ Hvalid Hmax Hle
                w Hstart) as H.
  destruct (ScanQueue.scanWorker env job w) as [[c|e] w']; [done|].
  destruct H as (h' & fin & rows' & (s' & Hs' & Hst & Ht & _) & _ & Hb & Hd & Hi & _).
  exists e, w'. split; [done|]. split; [exact Hb|]. split; [exact Hd|].
  split; [exact Hi|]. exists s'. split; [exact Hs'|].
  split; [by apply Hst | by apply Ht].
Qed.

Lemma failure_after_deduction_is_refunded_witness :
  let env :=
    Scenario.env Scenario.five
      (Scenario.faultAt ScanQueue.CreateResults "Connection terminated unexpectedly") in
  ∃ e w',
    ScanQueue.scanWorker env Scenario.job (Scenario.start 9) = (Throw e, w') ∧
    Spec.balance (ScanQueue.db w') 7 = 9 ∧
    Prisma.decrements 7 (Prisma.writes (ScanQueue.db w')) = [5] ∧
    Prisma.increments 7 (Prisma.writes (ScanQueue.db w')) = [5].
Proof.
  intros env.
  destruct (failure_after_deduction_is_refunded env Scenario.job (Scenario.start 9))
    as (e & w' & Hrun & Hb & Hd & Hi & _).
  - intros c Hc. destruct c; try reflexivity.
    exfalso. apply Hc. apply (bool_decide_unpack _). by vm_compute.
  - exists ScanQueue.CreateResults. split; [|discriminate].
    apply (bool_decide_unpack _). by vm_compute.
  - eexists. reflexivity.
  - reflexivity.
  - by vm_compute.
  - by vm_compute.
  - exists e, w'. split; [exact Hrun|]. split; [exact Hb|]. split; [exact Hd | exact Hi].
Defined.

(* ===================================================================== *)
(** * The failure handler                                                 *)
(* ===================================================================== *)

Section FailureHandler.
Import Prisma ScanQueue.

Variable env : Env.
Variable job : Job.data.

(** The refund of the handler always returns, and leaves the scans as they
    are. *)
Lemma refundAfterFailure_returns (scans : gmap Z Scan.t) :
  Spec.triple (λ w, scan (db w) = scans) (refundAfterFailure env job)
    (λ _ w, scan (db w) = scans) (λ _ _, False).
Proof.
  unfold refundAfterFailure.
  eapply triple_tryCatch with (R := λ _ w, scan (db w) = scans);
    [|intros ?; by apply triple_ret].
  eapply triple_bind with (R := λ _ w, scan (db w) = scans).
  { apply triple_await; [done|]. by apply triple_liftDb. }
  intros [s|]; [|by apply triple_ret].
  destruct (Scan.totalUrls s) as [totalUrls|]; [|by apply triple_ret].
  case_match; [|by apply triple_ret].
  eapply triple_bind with (R := λ _ w, scan (db w) = scans).
  { apply triple_await; [done|]. apply triple_liftDb. intros w Hw.
    destruct (refundCredits_sameScans (db w) (Job.userId job) totalUrls
                ("scan_failure_" +:+ pretty (Job.scanId job)) (Some (Job.scanId job)))
      as (Hscan & _).
    destruct (CreditService.refundCredits _ _ _ _ _) as [[r|e] d]; simpl in *;
      by rewrite Hscan. }
  intros ?; cbv beta. by apply triple_ret.
Qed.

(** X25.  When the update that marks the scan failed itself throws, the
    handler stops there: the error thrown is that of the update, not the one
    that made the attempt fail, no refund is attempted, and the world is left
    as the [try] block left it, the scan still processing. *)
Theorem failed_update_skips_the_refund w reason :
  faults env UpdateFailed = Some reason →
  scanWorker env job w =
    match process env job w with
    | (Ok completed, w1) => (Ok completed, w1)
    | (Throw _, w1) => (Throw (newError reason), w1)
    end.
Proof.
  intros Hfault. unfold scanWorker, tryCatch.
  destruct (process env job w) as [[c|e] w1]; [done|].
  unfold mbind, M_bind, await. by rewrite Hfault.
Qed.

(** X26.  When the [try] block throws and the update that marks the scan
    failed goes through, the processor throws the very error of the [try]
    block, whatever becomes of the refund, and the scan is left failed with
    the message of that error and the time of the failure. *)
Theorem failed_scan_holds_the_error w e w1 :
  process env job w = (Throw e, w1) →
  faults env UpdateFailed = None →
  is_Some (scan (db w) !! Job.scanId job) →
  ∃ w' s,
    scanWorker env job w = (Throw e, w') ∧
    scan (db w') !! Job.scanId job = Some s ∧
    Scan.status s = failed ∧
    Scan.errorMsg s = Some (errMessage e) ∧
    Scan.finishedAt s = Some (now env).
Proof.
  intros Hprocess Hfault Hscan.
  assert (Hs1 : is_Some (scan (db w1) !! Job.scanId job)).
  { assert (Hstart : Spec.touchedOnly job w w).
    { split; [done|]. split; [apply dbTouchedOnly_refl|]. exists [].
      by rewrite app_nil_r. }
    pose proof (touched_process env job w w Hstart) as Htouched.
    rewrite Hprocess in Htouched. destruct Htouched as (_ & (_ & _ & Hk & _) & _).
    destruct Hscan as [s Hs]. rewrite Hs in Hk.
    by destruct (scan (db w1) !! Job.scanId job). }
  destruct Hs1 as [s1 Hs1].
  unfold scanWorker, tryCatch. rewrite Hprocess.
  unfold mbind at 1, M_bind at 1. unfold await at 1. rewrite Hfault.
  unfold liftDb at 1, scan_update. rewrite Hs1.
  match goal with |- context [_ {| db := ?d; queue := ?q; progress := ?pr |}] =>
    set (w2 := {| db := d; queue := q; progress := pr |})
  end.
  pose proof (refundAfterFailure_returns (scan (db w2)) w2 eq_refl) as Hrefund.
  unfold mbind, M_bind.
  destruct (refundAfterFailure env job w2) as [[[]|e2] w3]; [|done].
  eexists _, _. split; [reflexivity|]. rewrite Hrefund. simpl.
  split; [by rewrite lookup_insert_eq | done].
Qed.

End FailureHandler.

Lemma failed_update_skips_the_refund_witness :
  let env :=
    Scenario.env Scenario.five
      (λ c, if decide (c = ScanQueue.CreateResults) then Some "Connection terminated"
            else if decide (c = ScanQueue.UpdateFailed) then Some "Connection terminated"
            else None) in
  let '(r, w') := ScanQueue.scanWorker env Scenario.job (Scenario.start 9) in
  ScanQueue.faults env ScanQueue.UpdateFailed = Some "Connection terminated" ∧
  r = Throw (newError "Connection terminated") ∧
  (Prisma.Scan.status <$> Prisma.scan (ScanQueue.db w') !! 1) = Some Prisma.processing ∧
  Spec.balance (ScanQueue.db w') 7 = 4 ∧
  Prisma.increments 7 (Prisma.writes (ScanQueue.db w')) = [].
Proof.
  intros env.
  assert (Hfault : ScanQueue.faults env ScanQueue.UpdateFailed
                   = Some "Connection terminated") by reflexivity.
  rewrite (failed_update_skips_the_refund env Scenario.job (Scenario.start 9)
             "Connection terminated" Hfault).
  vm_compute. done.
Defined.

Lemma failed_scan_holds_the_error_witness :
  let env :=
    Scenario.env Scenario.five
      (Scenario.faultAt ScanQueue.CreateResults "Connection terminated") in
  ∃ w' s,
    ScanQueue.scanWorker env Scenario.job (Scenario.start 9)
      = (Throw (newError "Connection terminated"), w') ∧
    Prisma.scan (ScanQueue.db w') !! 1 = Some s ∧
    Prisma.Scan.status s = Prisma.failed ∧
    Prisma.Scan.errorMsg s = Some "Connection terminated" ∧
    Prisma.Scan.finishedAt s = Some 1000.
Proof.
  intros env.
  destruct (ScanQueue.process env Scenario.job (Scenario.start 9)) as [r w1] eqn:Hp.
  assert (Hr : r = Throw (newError "Connection terminated"))
    by (vm_compute in Hp; by injection Hp as <- _).
  subst r.
  assert (Hfault : ScanQueue.faults env ScanQueue.UpdateFailed = None) by reflexivity.
  assert (Hscan : is_Some (Prisma.scan (ScanQueue.db (Scenario.start 9))
                             !! ScanQueue.Job.scanId Scenario.job))
    by (eexists; reflexivity).
  exact (failed_scan_holds_the_error env Scenario.job (Scenario.start 9) _ w1
           Hp Hfault Hscan).
Defined.

(* ===================================================================== *)
(** * The summary of a batch                                              *)
(* ===================================================================== *)

Section BatchSummary.
Import W3C.

Variable fetch : string → Fetched.

Lemma processed_error_types w url :
  Forall (λ m, type m = "error") (errors (processW3CResult w url)).
Proof.
  destruct (processW3CResult_messages w url) as [-> _].
  apply Forall_forall. intros m Hm.
  apply list_elem_of_fmap in Hm as (nu & -> & Hnu).
  apply list_elem_of_filter in Hnu as [Hnu _].
  unfold Spec.isErrorMessage in Hnu. apply bool_decide_eq_true in Hnu.
  unfold processMessage. simpl. by rewrite Hnu.
Qed.

Lemma validateUrl_error_types url r :
  validateUrl fetch url = Ok r → Forall (λ m, type m = "error") (errors r).
Proof.
  unfold validateUrl.
  destruct (fetch url) as [reason | ok status statusText body]; [done|].
  destruct ok; [|done]. destruct body as [reason | | value]; [done..|]. simpl.
  intros [= <-]. apply processed_error_types.
Qed.

(** The errors recorded for one URL. *)
Lemma resultFor_errors url :
  match validateUrl fetch url with
  | Ok r =>
      Spec.resultFor fetch url = r ∧ Forall (λ m, type m = "error") (errors r)
  | Throw e =>
      isValid (Spec.resultFor fetch url) = false ∧
      ∃ m, errors (Spec.resultFor fetch url) = [m] ∧
           type m = "validation_error" ∧ severity m = Some critical
  end.
Proof.
  unfold Spec.resultFor. destruct (validateUrl fetch url) as [r|e] eqn:Hr.
  - split; [done|]. by eapply validateUrl_error_types.
  - split; [done|]. by eexists.
Qed.

Lemma tallyOf_app key ms1 ms2 :
  Spec.tallyOf key (ms1 ++ ms2) = Spec.tallyOf key ms1 + Spec.tallyOf key ms2.
Proof. unfold Spec.tallyOf. rewrite filter_app, length_app. lia. Qed.

Lemma tallyOf_other key ms :
  Forall (λ m, type m = "error") ms → key ≠ "error" → Spec.tallyOf key ms = 0.
Proof.
  intros Hms Hkey. unfold Spec.tallyOf.
  induction Hms as [|m ms Hm _ IH]; [done|].
  rewrite filter_cons_False; [done|].
  unfold Spec.typeKey. rewrite Hm. simpl. congruence.
Qed.

Lemma countOf_nonneg sev ms : 0 ≤ Spec.countOf sev ms.
Proof. unfold Spec.countOf. lia. Qed.

(** The failures of a batch, in the three places where the summary counts
    them. *)
Lemma failures_counted urls :
  let results := map (Spec.resultFor fetch) urls in
  let k := Z.of_nat (length (Spec.unreachableUrls fetch urls)) in
  Spec.tallyOf "validation_error" (Spec.allErrors results) = k ∧
  k ≤ Z.of_nat (length (filter (λ r, isValid r = false) results)) ∧
  k ≤ Spec.countOf critical (Spec.allErrors results) ∧
  Forall (λ m, type m = "error" ∨ type m = "validation_error") (Spec.allErrors results).
Proof.
  induction urls as [|url urls IH]; [by repeat split|].
  cbv zeta in *. destruct IH as (IH1 & IH2 & IH3 & IH4).
  unfold Spec.unreachableUrls, Spec.allErrors in *. cbn [map concat].
  rewrite tallyOf_app, countOf_app, Forall_app.
  pose proof (resultFor_errors url) as Hurl.
  pose proof (countOf_nonneg critical (errors (Spec.resultFor fetch url))) as Hcrit.
  destruct (validateUrl fetch url) as [r|e] eqn:Hr.
  - destruct Hurl as [Heq Htypes]. rewrite filter_cons_False by (by rewrite Hr).
    rewrite Heq in *. rewrite tallyOf_other by done. rewrite IH1.
    split; [lia|]. split.
    { rewrite filter_cons. case_decide; simpl; lia. }
    split; [lia|]. split; [|done].
    eapply Forall_impl; [exact Htypes|]. intros m Hm. by left.
  - destruct Hurl as [Hinvalid (m & Herrs & Htype & Hsev)].
    rewrite filter_cons_True by (by rewrite Hr).
    rewrite filter_cons_True by done. rewrite Herrs. cbn [length].
    split.
    { unfold Spec.tallyOf at 1. rewrite filter_cons_True, filter_nil
        by (unfold Spec.typeKey; by rewrite Htype).
      simpl length. lia. }
    split; [lia|]. split.
    { rewrite countOf_cons, countOf_nil, decide_True
        by (unfold Spec.severityOf; by rewrite Hsev).
      lia. }
    split; [|done]. apply Forall_cons. split; [by right | constructor].
Qed.

(** X27.  In the summary of what the batch validator returns for a list of
    URLs, every URL whose validation threw is counted as an invalid page and
    as a critical error, and [errorTypes] counts exactly these URLs under
    [validation_error]; the only keys of [errorTypes] are [error], for the
    errors of the checker, and [validation_error]. *)
Theorem batch_failures_in_summary (urls : list string) :
  let s := generateValidationSummary (map (Spec.resultFor fetch) urls) in
  let k := Z.of_nat (length (Spec.unreachableUrls fetch urls)) in
  validateUrls fetch None urls = (Ok (map (Spec.resultFor fetch) urls), []) ∧
  Summary.errorTypes s !! "validation_error"
    = (if decide (k = 0) then None else Some (Js.Num k)) ∧
  k ≤ Summary.invalid s ∧
  k ≤ Breakdown.critical (Summary.severityBreakdown s) ∧
  (∀ key, is_Some (Summary.errorTypes s !! key) →
          key = "error" ∨ key = "validation_error").
Proof.
  intros s k. subst s k.
  destruct (failures_counted urls) as (Htally & Hinvalid & Hcritical & Htypes).
  cbv zeta in *. set (results := map (Spec.resultFor fetch) urls) in *.
  split; [|split; [|split; [|split]]].
  - apply (validateUrls_returns fetch None). by intros f p [=].
  - rewrite summary_errorTypes. unfold Spec.tallied. by rewrite Htally.
  - unfold generateValidationSummary. cbn [Summary.invalid].
    match goal with |- context [foldl countResult ?s0 results] =>
      destruct (countResults_fields results s0) as (_ & _ & -> & _)
    end.
    simpl. lia.
  - pose proof (summary_breakdown results critical) as Hb.
    cbn [Spec.counter] in Hb. rewrite Hb. exact Hcritical.
  - intros key. rewrite summary_errorTypes. unfold Spec.tallied.
    case_decide as Hzero; [by intros [? ?]|]. intros _.
    assert (Hsome : ∃ m, m ∈ Spec.allErrors results ∧ Spec.typeKey m = key).
    { unfold Spec.tallyOf in Hzero.
      destruct (filter (λ m, Spec.typeKey m = key) (Spec.allErrors results))
        as [|m ms] eqn:Hfilter; [done|].
      assert (Hin : m ∈ filter (λ m, Spec.typeKey m = key) (Spec.allErrors results))
        by (rewrite Hfilter; by left).
      apply list_elem_of_filter in Hin as [Hkey Hin]. by exists m. }
    destruct Hsome as (m & Hm & <-).
    rewrite Forall_forall in Htypes. unfold Spec.typeKey.
    by destruct (Htypes m Hm) as [-> | ->]; [left | right].
Qed.

End BatchSummary.

(* ===================================================================== *)
(** * The details of a scan                                               *)
(* ===================================================================== *)

Section Details.
Import Prisma ScanService.

Lemma countRow_comm summary x y :
  countRow (countRow summary x) y = countRow (countRow summary y) x.
Proof.
  unfold countRow. simpl.
  destruct (ScanResult.isValid x), (ScanResult.isValid y); f_equal; lia.
Qed.

Lemma countRows_Permutation rows rows' :
  rows ≡ₚ rows' → ∀ summary, foldl countRow summary rows = foldl countRow summary rows'.
Proof.
  induction 1 as [|x l l' _ IH|x y l|l1 l2 l3 _ IH1 _ IH2]; intros summary; simpl.
  - done.
  - apply IH.
  - by rewrite countRow_comm.
  - by rewrite IH1.
Qed.

(** The summary does not depend on the order of the rows. *)
Lemma calculateScanSummary_Permutation rows rows' :
  rows ≡ₚ rows' → calculateScanSummary rows = calculateScanSummary rows'.
Proof.
  intros Hperm. unfold calculateScanSummary.
  rewrite (Permutation_length Hperm).
  by rewrite (countRows_Permutation rows rows' Hperm).
Qed.

Variable orderByUrl : list ScanResult.t → list ScanResult.t.

(** The database returns the rows it was asked for, in some order. *)
Hypothesis orderByUrl_Permutation : ∀ rows, orderByUrl rows ≡ₚ rows.

Lemma getScanDetails_run db id u s :
  scan db !! id = Some s → Scan.userId s = u →
  getScanDetails orderByUrl id u db =
    (Ok {| ScanDetails.scan := s;
           ScanDetails.results := scanResultsOf orderByUrl id db;
           ScanDetails.summary := calculateScanSummary (scanResultsOf orderByUrl id db);
           ScanDetails.resultCount :=
             Z.of_nat (length (filter (λ r, ScanResult.scanId r = id) (scanResult db)));
           ScanDetails.hasResults :=
             bool_decide (Z.of_nat (length (scanResultsOf orderByUrl id db)) > 0) |},
     db).
Proof.
  intros Hs Hu. unfold getScanDetails, tryCatch, mbind, M_bind, scan_findFirst, gets.
  by rewrite Hs, decide_True.
Qed.

(** X28.  [getScanDetails] by the owner of a scan returns, and changes
    nothing: the results it returns are the stored results of that scan and
    of no other, the summary is the summary of these results, whatever the
    order in which the database returns them, and [resultCount] is their
    number. *)
Theorem getScanDetails_of_the_owner db id u s :
  scan db !! id = Some s → Scan.userId s = u →
  ∃ details,
    getScanDetails orderByUrl id u db = (Ok details, db) ∧
    ScanDetails.scan details = s ∧
    ScanDetails.results details
      ≡ₚ filter (λ r, ScanResult.scanId r = id) (scanResult db) ∧
    ScanDetails.summary details
      = calculateScanSummary (filter (λ r, ScanResult.scanId r = id) (scanResult db)) ∧
    ScanDetails.resultCount details = Z.of_nat (length (ScanDetails.results details)) ∧
    ScanDetails.hasResults details = bool_decide (ScanDetails.results details ≠ []).
Proof.
  intros Hs Hu. eexists. split; [by apply getScanDetails_run|]. simpl.
  unfold scanResultsOf.
  set (stored := filter (λ r, ScanResult.scanId r = id) (scanResult db)).
  pose proof (orderByUrl_Permutation stored) as Hperm.
  split; [done|]. split; [done|].
  split; [by apply calculateScanSummary_Permutation|].
  split; [by rewrite (Permutation_length Hperm)|].
  apply bool_decide_ext. destruct (orderByUrl stored); simpl; split; try done; lia.
Qed.

(** X29.  After an attempt of the worker has returned for a scan that its
    user owns and that had no result yet, the details of the scan show what
    the worker returned: the scan is a success, there is one result for every
    URL of the scan, and the summary has the counts and the percentage of the
    summary that the job returned. *)
Theorem details_after_success
    (env : ScanQueue.Env) (job : ScanQueue.Job.data) (w w' : ScanQueue.World)
    (completed : ScanQueue.Completed) :
  ScanQueue.scanWorker env job w = (Ok completed, w') →
  (∀ s, scan (ScanQueue.db w) !! ScanQueue.Job.scanId job = Some s →
        Scan.userId s = ScanQueue.Job.userId job) →
  Forall (λ r, ScanResult.scanId r ≠ ScanQueue.Job.scanId job)
    (scanResult (ScanQueue.db w)) →
  ∃ details,
    getScanDetails orderByUrl (ScanQueue.Job.scanId job) (ScanQueue.Job.userId job)
      (ScanQueue.db w') = (Ok details, ScanQueue.db w') ∧
    Scan.status (ScanDetails.scan details) = success ∧
    Scan.totalUrls (ScanDetails.scan details) = Some (ScanDetails.resultCount details) ∧
    let a := ScanQueue.summary completed in
    let b := ScanDetails.summary details in
    ScanSummary.total b = W3C.Summary.total a ∧
    ScanSummary.valid b = W3C.Summary.valid a ∧
    ScanSummary.invalid b = W3C.Summary.invalid a ∧
    ScanSummary.totalErrors b = W3C.Summary.totalErrors a ∧
    ScanSummary.totalWarnings b = W3C.Summary.totalWarnings a ∧
    ScanSummary.validPercentage b = W3C.Summary.validPercentage a.
Proof.
  intros Hrun Howner Hfresh.
  (* what the attempt has done *)
  pose proof (scanWorker_returns env job w completed w' Hrun) as Hprocess.
  assert (Hstart : Spec.entered job
                     (statusHistory (ScanQueue.Job.scanId job) (ScanQueue.db w))
                     (Spec.balance (ScanQueue.db w) (ScanQueue.Job.userId job))
                     (decrements (ScanQueue.Job.userId job) (writes (ScanQueue.db w)))
                     (increments (ScanQueue.Job.userId job) (writes (ScanQueue.db w)))
                     (scanResult (ScanQueue.db w)) w) by done.
  pose proof (reached_process env job _ _ _ _ _ w Hstart) as Hdone.
  rewrite Hprocess in Hdone.
  destruct Hdone as (_ & _ & -> & (s' & Hs' & Hst & Ht & _) & _ & _ & _ & _ & Hrows).
  (* the scan has kept its owner *)
  assert (Htouched : Spec.touchedOnly job w w').
  { assert (Hrefl : Spec.touchedOnly job w w).
    { split; [done|]. split; [apply dbTouchedOnly_refl|]. exists [].
      by rewrite app_nil_r. }
    pose proof (touched_scanWorker env job w w Hrefl) as Hk. by rewrite Hrun in Hk. }
  destruct Htouched as (_ & (_ & _ & Hk & _) & _). rewrite Hs' in Hk.
  destruct (scan (ScanQueue.db w) !! ScanQueue.Job.scanId job) as [s|] eqn:Hs;
    [|done].
  destruct Hk as [Huser _]. rewrite (Howner s eq_refl) in Huser.
  (* the results of the scan are those of this attempt *)
  set (urls := Sitemap.urls _) in *.
  set (results := map (Spec.resultFor (ScanQueue.w3cFetch env)) urls) in *.
  assert (Hstored :
    filter (λ r, ScanResult.scanId r = ScanQueue.Job.scanId job)
      (scanResult (ScanQueue.db w'))
    = map (ScanQueue.toScanResult job) results).
  { rewrite Hrows, filter_app.
    assert (Hold : filter (λ r, ScanResult.scanId r = ScanQueue.Job.scanId job)
                     (scanResult (ScanQueue.db w)) = []).
    { by apply filter_none. }
    rewrite Hold. simpl. apply filter_all, Forall_forall. intros row Hrow.
    by apply list_elem_of_fmap in Hrow as (r & -> & _). }
  eexists. split; [by apply getScanDetails_run|].
  cbn [ScanDetails.scan ScanDetails.summary ScanDetails.resultCount ScanQueue.summary].
  split; [by apply Hst|]. split.
  { rewrite (Ht _ eq_refl), Hstored. unfold results. by rewrite !length_map. }
  unfold scanResultsOf. rewrite Hstored.
  rewrite (calculateScanSummary_Permutation _ _ (orderByUrl_Permutation _)).
  apply summaries_agree.
Qed.

End Details.

Lemma getScanDetails_of_the_owner_witness :
  let orderByUrl := @reverse Prisma.ScanResult.t in
  let db :=
    ScanQueue.db (ScanQueue.scanWorker (Scenario.env Scenario.five Scenario.noFaults)
                    Scenario.job (Scenario.start 9)).2 in
  (∀ rows, orderByUrl rows ≡ₚ rows) ∧
  ∃ details,
    ScanService.getScanDetails orderByUrl 1 7 db = (Ok details, db) ∧
    ScanService.ScanDetails.resultCount details = 5 ∧
    ScanService.ScanSummary.valid (ScanService.ScanDetails.summary details) = 5.
Proof.
  intros orderByUrl db.
  assert (Hperm : ∀ rows, orderByUrl rows ≡ₚ rows) by (intros rows; apply reverse_Permutation).
  split; [exact Hperm|].
  destruct (Prisma.scan db !! 1) as [s|] eqn:Hs; [|by vm_compute in Hs].
  assert (Hu : Prisma.Scan.userId s = 7) by (vm_compute in Hs; by injection Hs as <-).
  destruct (getScanDetails_of_the_owner orderByUrl Hperm db 1 7 s Hs Hu)
    as (details & Hrun & _ & _ & Hsummary & _).
  exists details. split; [exact Hrun|].
  vm_compute in Hrun. injection Hrun as <-. split; reflexivity.
Defined.

Lemma details_after_success_witness :
  let orderByUrl := @reverse Prisma.ScanResult.t in
  let env := Scenario.env Scenario.five Scenario.noFaults in
  (∀ rows, orderByUrl rows ≡ₚ rows) ∧
  ∃ completed w' details,
    ScanQueue.scanWorker env Scenario.job (Scenario.start 9) = (Ok completed, w') ∧
    ScanService.getScanDetails orderByUrl 1 7 (ScanQueue.db w')
      = (Ok details, ScanQueue.db w') ∧
    Prisma.Scan.status (ScanService.ScanDetails.scan details) = Prisma.success ∧
    ScanService.ScanSummary.total (ScanService.ScanDetails.summary details)
      = W3C.Summary.total (ScanQueue.summary completed).
Proof.
  intros orderByUrl env.
  assert (Hperm : ∀ rows, orderByUrl rows ≡ₚ rows) by (intros rows; apply reverse_Permutation).
  split; [exact Hperm|].
  destruct (ScanQueue.scanWorker env Scenario.job (Scenario.start 9))
    as [[completed|e] w'] eqn:Hrun; [|by vm_compute in Hrun].
  destruct (details_after_success orderByUrl Hperm env Scenario.job (Scenario.start 9) w'
              completed Hrun) as (details & Hdetails & Hstatus & _ & Htotal & _).
  - intros s Hs. vm_compute in Hs. by injection Hs as <-.
  - constructor.
  - exists completed, w', details. split; [reflexivity|]. split; [exact Hdetails|].
    split; [exact Hstatus | exact Htotal].
Defined.
